(** * The File Tree (FT) of DirectoryFileTrees: a shallow embedding.

    The development follows the C sources:
    - [3FT/nodeFT.c]   one node of the tree ([Node_new], [Node_free], ...);
    - [3FT/ft.c]       the process-wide tree and its path-routed operations;
    - the DT checker   ([CheckerDT_Node_isValid], [CheckerDT_treeCheck],
                        [CheckerDT_isValid]).

    The C code works on heap objects through pointers, so the model has a
    store: node objects and character buffers live in finite maps keyed by
    address, a pointer is an optional address ([None] is [NULL]), and every
    function is a state transformer that may also crash (a failed [assert],
    a read through a dangling pointer) or fail to return.  [malloc] and its
    relatives may fail: the store carries the outcomes of the coming
    allocations. *)

From Stdlib Require Import ZArith Lia List Ascii String.
From stdpp Require Import base option list gmap strings sorting.

(** ** Return codes ([a4def.h]) *)

Inductive status : Type :=
| SUCCESS
| INITIALIZATION_ERROR
| ALREADY_IN_TREE
| NO_SUCH_PATH
| CONFLICTING_PATH
| BAD_PATH
| NOT_A_DIRECTORY
| NOT_A_FILE
| MEMORY_ERROR.

#[global] Instance status_eq_dec : EqDecision status.
Proof. solve_decision. Defined.

(** [typedef enum { FT_DIR, FT_FILE } NodeType;] *)
Inductive NodeType : Type := FT_DIR | FT_FILE.

#[global] Instance NodeType_eq_dec : EqDecision NodeType.
Proof. solve_decision. Defined.

(** ** Paths *)

(** Modelled from the spec: the Path module ([path.h], [path.c]) is not among
    the sources.  A path is its sequence of components; its depth is the
    number of components; a prefix is its first [k] components; paths are
    ordered lexicographically by their path string. *)
Definition path : Type := list string.

(** A [Path_T] is a pointer to a path object. *)
Definition Path_T : Type := option path.

Definition pathname (p : path) : string :=
  foldr (λ c acc, "/" +:+ c +:+ acc) "" p.

Definition comparePath (p q : path) : Z :=
  match String.compare (pathname p) (pathname q) with
  | Lt => (-1)%Z
  | Eq => 0%Z
  | Gt => 1%Z
  end.

Fixpoint sharedPrefixDepth (p q : path) : nat :=
  match p, q with
  | a :: p', b :: q' =>
      if decide (a = b) then S (sharedPrefixDepth p' q') else 0
  | _, _ => 0
  end.

Definition isPrefix (p q : path) : bool :=
  bool_decide (sharedPrefixDepth p q = length p).

(** ** Machine integers: [size_t] is an unsigned 64-bit integer *)

Definition SIZE_MODULUS : Z := (2 ^ 64)%Z.

Definition size_sub (a b : Z) : Z := ((a - b) mod SIZE_MODULUS)%Z.
Definition size_add (a b : Z) : Z := ((a + b) mod SIZE_MODULUS)%Z.

(** ** The store *)

Definition loc : Type := nat.

(** A [Node_T] is a pointer to a [struct node]. *)
Definition Node_T : Type := option loc.

(** A [char *]: a pointer to a character buffer. *)
Definition charp : Type := option loc.

(** [struct node] of [nodeFT.c].  The children [DynArray_T] is a pointer
    that is [NULL] for files; the node is the only owner of the array, so
    the array is kept with the node. *)
Record node : Type := Node {
  oPPath : Path_T;
  oNParent : Node_T;
  oChildren : option (list Node_T);
  eType : NodeType;
  pcContents : charp;
}.

(** The store, with the two [static] variables of [ft.c]. *)
Record world : Type := World {
  nodes : gmap loc node;             (* the live [struct node]s *)
  bufs : gmap loc (list ascii);      (* the live character buffers *)
  bIsInitialized : bool;
  oRoot : Node_T;
  brk : loc;                         (* the next address never handed out *)
  fate : list bool;                  (* whether the coming allocations succeed *)
}.

Definition set_nodes (f : gmap loc node → gmap loc node) (w : world) : world :=
  World (f (nodes w)) (bufs w) (bIsInitialized w) (oRoot w) (brk w) (fate w).
Definition set_bufs (f : gmap loc (list ascii) → gmap loc (list ascii))
    (w : world) : world :=
  World (nodes w) (f (bufs w)) (bIsInitialized w) (oRoot w) (brk w) (fate w).
Definition set_bIsInitialized (b : bool) (w : world) : world :=
  World (nodes w) (bufs w) b (oRoot w) (brk w) (fate w).
Definition set_oRoot (r : Node_T) (w : world) : world :=
  World (nodes w) (bufs w) (bIsInitialized w) r (brk w) (fate w).
Definition set_brk (b : loc) (w : world) : world :=
  World (nodes w) (bufs w) (bIsInitialized w) (oRoot w) b (fate w).
Definition set_fate (f : list bool) (w : world) : world :=
  World (nodes w) (bufs w) (bIsInitialized w) (oRoot w) (brk w) f.

(** ** The monad of C functions *)

Inductive result (A : Type) : Type :=
| Ret (a : A) (w : world)   (* the call returns [a] and leaves the store [w] *)
| Crash                     (* a failed [assert], or undefined behaviour *)
| Diverge.                  (* the recursion does not come back *)
Arguments Ret {A} a w.
Arguments Crash {A}.
Arguments Diverge {A}.

Definition M (A : Type) : Type := world → result A.

Definition ret {A} (a : A) : M A := λ w, Ret a w.

Definition bind {A B} (m : M A) (k : A → M B) : M B := λ w,
  match m w with
  | Ret a w' => k a w'
  | Crash => Crash
  | Diverge => Diverge
  end.

Definition gets {A} (f : world → A) : M A := λ w, Ret (f w) w.
Definition modify (f : world → world) : M unit := λ w, Ret () (f w).
Definition crash {A} : M A := λ _, Crash.

(** What a call returned, and the store it left. *)
Definition returned {A} (r : result A) : option A :=
  match r with Ret a _ => Some a | _ => None end.
Definition store_after {A} (r : result A) : option world :=
  match r with Ret _ w => Some w | _ => None end.

(** One allocation request: the next entry of [fate] says whether it
    succeeds; when none is left the allocation succeeds. *)
Definition malloc_ok : M bool := λ w,
  match fate w with
  | [] => Ret true w
  | b :: f => Ret b (set_fate f w)
  end.

(** Dereferencing a node pointer: [NULL] and freed nodes crash. *)
Definition load (n : Node_T) : M node := λ w,
  match n with
  | None => Crash
  | Some l => match nodes w !! l with Some nd => Ret nd w | None => Crash end
  end.

(** Writing through a node pointer. *)
Definition store (n : Node_T) (nd : node) : M unit := λ w,
  match n with
  | None => Crash
  | Some l =>
      match nodes w !! l with
      | Some _ => Ret () (set_nodes (insert l nd) w)
      | None => Crash
      end
  end.

(** A fresh [struct node] holding [nd]. *)
Definition new_node (nd : node) : M Node_T := λ w,
  Ret (Some (brk w)) (set_brk (S (brk w)) (set_nodes (insert (brk w) nd) w)).

(** [free] of a node object. *)
Definition free_node (n : Node_T) : M unit := λ w,
  match n with
  | None => Ret () w
  | Some l =>
      match nodes w !! l with
      | Some _ => Ret () (set_nodes (delete l) w)
      | None => Crash
      end
  end.

(** A fresh character buffer holding [bs]. *)
Definition new_buf (bs : list ascii) : M charp := λ w,
  Ret (Some (brk w)) (set_brk (S (brk w)) (set_bufs (insert (brk w) bs) w)).

(** Reading a whole buffer through a pointer. *)
Definition read_buf (p : charp) : M (list ascii) := λ w,
  match p with
  | None => Crash
  | Some l => match bufs w !! l with Some bs => Ret bs w | None => Crash end
  end.

(** [free(p)]: nothing for [NULL]; freeing a buffer twice crashes. *)
Definition free_buf (p : charp) : M unit := λ w,
  match p with
  | None => Ret () w
  | Some l =>
      match bufs w !! l with
      | Some _ => Ret () (set_bufs (delete l) w)
      | None => Crash
      end
  end.

Definition NUL : ascii := Ascii.zero.

(** The characters of a buffer before its first NUL; [None] when the buffer
    holds no NUL, where [strlen] and [strcpy] would run past its end. *)
Fixpoint c_string (bs : list ascii) : option (list ascii) :=
  match bs with
  | [] => None
  | c :: bs' =>
      if decide (c = NUL) then Some [] else cons c <$> c_string bs'
  end.

(** The C string a pointer leads to, read in store [w]. *)
Definition string_at (w : world) (p : charp) : option (list ascii) :=
  l ← p; bs ← bufs w !! l; c_string bs.

Declare Scope M_scope.
Notation "x ← y ; z" := (bind y (λ x : _, z))
  (at level 20, y at level 100, z at level 200, only parsing) : M_scope.
Notation "' x ← y ; z" := (bind y (λ x : _, z))
  (at level 20, x pattern, y at level 100, z at level 200, only parsing)
  : M_scope.
Notation "x ;; z" := (bind x (λ _, z))
  (at level 100, z at level 200, only parsing, right associativity) : M_scope.
Open Scope M_scope.

(** [strlen] and the source of a [strcpy]: the string at [p]. *)
Definition read_string (p : charp) : M (list ascii) :=
  bs ← read_buf p;
  match c_string bs with
  | Some s => ret s
  | None => crash
  end.

Definition nonnull {A} (p : option A) : M A :=
  match p with
  | Some a => ret a
  | None => crash
  end.

(** A loop over a list with a loop-carried value. *)
Fixpoint for_each {A S} (body : S → A → M S) (l : list A) (s : S) : M S :=
  match l with
  | [] => ret s
  | a :: l' => s' ← body s a; for_each body l' s'
  end.

(** ** The Path functions, on path objects *)

(** Modelled from the spec: the functions of the absent Path module, on
    pointers; each asserts that its path arguments are not [NULL], and the
    ones that build a path object allocate it. *)
Definition Path_getDepth (oPPath : Path_T) : M nat :=
  p ← nonnull oPPath; ret (length p).

Definition Path_comparePath (oPPath1 oPPath2 : Path_T) : M Z :=
  p ← nonnull oPPath1; q ← nonnull oPPath2; ret (comparePath p q).

Definition Path_getSharedPrefixDepth (oPPath1 oPPath2 : Path_T) : M nat :=
  p ← nonnull oPPath1; q ← nonnull oPPath2; ret (sharedPrefixDepth p q).

Definition Path_isPrefix (oPPath1 oPPath2 : Path_T) : M bool :=
  p ← nonnull oPPath1; q ← nonnull oPPath2; ret (isPrefix p q).

(** [prefix(path, k)]: the first [k] components; fails if [k > depth]. *)
Definition Path_prefix (oPPath : Path_T) (k : nat) : M Path_T :=
  p ← nonnull oPPath;
  if decide (length p < k) then ret (None : Path_T)
  else (ok ← malloc_ok; ret (if ok then Some (take k p) else None)).

Definition Path_copy (oPPath : Path_T) : M Path_T :=
  p ← nonnull oPPath;
  ok ← malloc_ok; ret (if ok then Some p else None).

Definition Path_toString (oPPath : Path_T) : M (option string) :=
  p ← nonnull oPPath;
  ok ← malloc_ok; ret (if ok then Some (pathname p) else None).

(** ** [nodeFT.c] *)

Definition Node_getType (oNNode : Node_T) : M NodeType :=
  nd ← load oNNode; ret (eType nd).

Definition Node_getPath (oNNode : Node_T) : M Path_T :=
  nd ← load oNNode; ret (oPPath nd).

Definition Node_getParent (oNNode : Node_T) : M Node_T :=
  nd ← load oNNode; ret (oNParent nd).

(** [Node_getNumChildren]: asserts a non-[NULL] directory. *)
Definition Node_getNumChildren (oNParent : Node_T) : M nat :=
  nd ← load oNParent;
  if decide (eType nd = FT_DIR) then
    arr ← nonnull (oChildren nd); ret (length arr)
  else crash.

(** [Node_getChild]: the status and what is written to [*poNResult]. *)
Definition Node_getChild (oNParent : Node_T) (ulChildID : nat)
    : M (status * Node_T) :=
  nd ← load oNParent;
  if decide (eType nd = FT_DIR) then
    arr ← nonnull (oChildren nd);
    match arr !! ulChildID with
    | None => ret (NO_SUCH_PATH, None)
    | Some child => ret (SUCCESS, child)
    end
  else crash.

Fixpoint Node_hasChild_loop (oPPath : Path_T) (children : list Node_T)
    : M bool :=
  match children with
  | [] => ret false
  | child :: rest =>
      cp ← Node_getPath child;
      c ← Path_comparePath cp oPPath;
      if decide (c = 0%Z) then ret true else Node_hasChild_loop oPPath rest
  end.

Definition Node_hasChild (oNParent : Node_T) (oPPath : Path_T) : M bool :=
  nd ← load oNParent;
  _ ← nonnull oPPath;
  if decide (eType nd = FT_DIR) then
    arr ← nonnull (oChildren nd); Node_hasChild_loop oPPath arr
  else crash.

(** [Node_new]: the status and, on [SUCCESS], what is written to
    [*poNResult] (nothing is written otherwise).  The node object is entered
    in the store once it is complete: the failure paths free what they had
    allocated.  The test [!Path_prefix(oParentPath, oPPath)] is the prefix
    test its comment announces (the child's path must start with the
    parent's), [Path_isPrefix]. *)
Definition Node_new (oPPath : Path_T) (oNParent : Node_T) (eType : NodeType)
    : M (status * Node_T) :=
  d ← Path_getDepth oPPath;
  if decide (d = 0) then ret (NO_SUCH_PATH, None) else
  early ←
    match oNParent with
    | None => ret (if decide (d ≠ 1) then Some NO_SUCH_PATH else None)
    | Some _ =>
        oParentPath ← Node_getPath oNParent;
        dp ← Path_getDepth oParentPath;
        if decide (d ≠ dp + 1) then ret (Some NO_SUCH_PATH) else
        pre ← Path_isPrefix oParentPath oPPath;
        if negb pre then ret (Some CONFLICTING_PATH) else
        has ← Node_hasChild oNParent oPPath;
        ret (if has then Some ALREADY_IN_TREE else None)
    end;
  match early with
  | Some st => ret (st, None)
  | None =>
      ok ← malloc_ok;                       (* malloc(sizeof(struct node)) *)
      if negb ok then ret (MEMORY_ERROR, None) else
      copy ← Path_copy oPPath;
      if decide (copy = None) then ret (MEMORY_ERROR, None) else
      match eType with
      | FT_DIR =>
          ok ← malloc_ok;                   (* DynArray_new(0) *)
          if negb ok then ret (MEMORY_ERROR, None) else
          oNResult ← new_node (Node copy oNParent (Some []) FT_DIR None);
          ret (SUCCESS, oNResult)
      | FT_FILE =>
          ok ← malloc_ok;                   (* calloc(1, sizeof(char)) *)
          if negb ok then ret (MEMORY_ERROR, None) else
          contents ← new_buf [NUL];
          oNResult ← new_node (Node copy oNParent None FT_FILE contents);
          ret (SUCCESS, oNResult)
      end
  end.

(** [Node_free]: the recursion, [fuel] levels deep. *)
Fixpoint Node_free_rec (fuel : nat) (oNNode : Node_T) : M nat :=
  match fuel with
  | 0 => λ _, Diverge
  | S fuel' =>
      match oNNode with
      | None => ret 0
      | Some _ =>
          t ← Node_getType oNNode;
          ulTotalFreed ←
            match t with
            | FT_DIR =>
                ulNumChildren ← Node_getNumChildren oNNode;
                for_each
                  (λ total i,
                     '(st, oChild) ← Node_getChild oNNode i;
                     if decide (st = SUCCESS ∧ oChild ≠ None) then
                       k ← Node_free_rec fuel' oChild; ret (total + k)
                     else ret total)
                  (seq 0 ulNumChildren) 0
            | FT_FILE =>
                nd ← load oNNode;
                free_buf (pcContents nd);;
                ret 0
            end;
          free_node oNNode;;
          ret (ulTotalFreed + 1)
      end
  end.

(** [Node_free].  A recursion deeper than the number of live nodes meets a
    node twice on one branch and never comes back, so that many levels are
    all the levels of any call that returns. *)
Definition Node_free (oNNode : Node_T) : M nat := λ w,
  Node_free_rec (S (size (nodes w))) oNNode w.

Definition Node_compare (oNFirst oNSecond : Node_T) : M Z :=
  pFirst ← Node_getPath oNFirst;
  pSecond ← Node_getPath oNSecond;
  Path_comparePath pFirst pSecond.

(** [Node_toString]: the [malloc]'d line of a node, or [NULL]. *)
Definition Node_toString (oNNode : Node_T) : M (option string) :=
  p ← Node_getPath oNNode;
  pathStr ← Path_toString p;
  match pathStr with
  | None => ret None
  | Some s =>
      t ← Node_getType oNNode;
      let typeStr := match t with FT_FILE => "file" | FT_DIR => "dir" end in
      ok ← malloc_ok;
      ret (if ok then Some (s +:+ " [" +:+ typeStr +:+ "]") else None)
  end.

(** [Node_setContents]: [true] is the C function's 1, [false] its 0. *)
Definition Node_setContents (oNNode : Node_T) (pcContents0 : charp) : M bool :=
  nd ← load oNNode;
  if decide (eType nd ≠ FT_FILE) then ret false else
  src ← match pcContents0 with
        | None => ret []                (* NULL is treated as the empty string *)
        | Some _ => read_string pcContents0
        end;
  ok ← malloc_ok;                        (* malloc(strlen(pcContents) + 1) *)
  if negb ok then ret false else
  newContents ← new_buf (src ++ [NUL]);  (* strcpy *)
  free_buf (pcContents nd);;
  store oNNode
    (Node (oPPath nd) (oNParent nd) (oChildren nd) (eType nd) newContents);;
  ret true.

Definition Node_getContents (oNNode : Node_T) : M charp :=
  nd ← load oNNode;
  ret (if decide (eType nd ≠ FT_FILE) then None else pcContents nd).

(** ** The children array ([dynarray.h]) *)

(** Modelled from the spec: the ordered dynamic sequence ([dynarray.c] is not
    among the sources).  [DynArray_add] appends at the end, and fails when
    it cannot grow the array.  The array lives in its node, so the node is
    passed for [owner->oChildren]. *)
Definition DynArray_add (owner : Node_T) (pvElement : Node_T) : M bool :=
  nd ← load owner;
  arr ← nonnull (oChildren nd);
  ok ← malloc_ok;
  if negb ok then ret false else
  store owner
    (Node (oPPath nd) (oNParent nd) (Some (arr ++ [pvElement])) (eType nd)
       (pcContents nd));;
  ret true.

Definition DynArray_removeAt (owner : Node_T) (i : nat) : M unit :=
  nd ← load owner;
  arr ← nonnull (oChildren nd);
  if decide (length arr ≤ i) then crash else
  store owner
    (Node (oPPath nd) (oNParent nd) (Some (delete i arr)) (eType nd)
       (pcContents nd)).

(** [Node_removeChild]: the loop over the indices [js] of the array, and the
    function.  [DynArray_getLength] and [DynArray_get] need a live array,
    and [DynArray_get] an index within it. *)
Fixpoint Node_removeChild_loop (oParent oChild : Node_T) (js : list nat)
    : M status :=
  match js with
  | [] => ret NO_SUCH_PATH
  | i :: js' =>
      nd ← load oParent;
      arr ← nonnull (oChildren nd);
      match arr !! i with
      | None => crash
      | Some child =>
          if decide (child = oChild) then
            DynArray_removeAt oParent i;; ret SUCCESS
          else Node_removeChild_loop oParent oChild js'
      end
  end.

Definition Node_removeChild (oParent oChild : Node_T) : M status :=
  nd ← load oParent;
  if decide (oChild = None) then crash else
  arr ← nonnull (oChildren nd);
  Node_removeChild_loop oParent oChild (seq 0 (length arr)).

(** [memcpy] into a live buffer: the whole buffer is overwritten. *)
Definition write_buf (p : charp) (bs : list ascii) : M unit := λ w,
  match p with
  | None => Crash
  | Some l =>
      match bufs w !! l with
      | Some _ => Ret () (set_bufs (insert l bs) w)
      | None => Crash
      end
  end.

(** [malloc(n)] of a character buffer: [NULL] when the allocation fails. *)
Definition malloc_buf (n : nat) : M charp :=
  ok ← malloc_ok;
  if negb ok then ret None else new_buf (replicate n NUL).

(** ** [ft.c] *)

(** How far the walk of an insertion got: it stopped with a status, or it
    reached the directory that is to hold the new node. *)
Inductive descent : Type :=
| Stopped (st : status)
| Reached (oCurr : Node_T).

(** How far the walk of a lookup got. *)
Inductive walked : Type :=
| PrefixFailed
| Missing
| Arrived (oParent oCurr : Node_T).

(** What [FT_stat] returns: the status, and the cells behind [pbIsFile] and
    [pulSize] after the call ([None] for a [NULL] pointer). *)
Record stat_result : Type := StatResult {
  stat_status : status;
  stat_isFile : option bool;
  stat_size : option Z;
}.

Section FT.

(** Modelled from the spec: [Path_create] parses a path string into a path
    object and yields [NULL] for a string that is no path.  The parser of
    the absent Path module is a parameter of the model. *)
Variable Path_parse : string → option path.

Definition Path_create (pcPath : string) : M Path_T :=
  match Path_parse pcPath with
  | None => ret None
  | Some p => ok ← malloc_ok; ret (if ok then Some p else None)
  end.

(** The inner loop all operations share: the first child of [oCurr], in
    array order, whose path compares equal to [oPrefix]; [NULL] when there
    is none (a child that matched was dereferenced, so it is not [NULL]). *)
Fixpoint FT_scan (oCurr : Node_T) (oPrefix : Path_T) (js : list nat)
    : M Node_T :=
  match js with
  | [] => ret None
  | j :: js' =>
      '(st, child) ← Node_getChild oCurr j;
      if decide (st = SUCCESS) then
        cp ← Node_getPath child;
        c ← Path_comparePath cp oPrefix;
        if decide (c = 0%Z) then ret child else FT_scan oCurr oPrefix js'
      else FT_scan oCurr oPrefix js'
  end.

Definition FT_findChild (oCurr : Node_T) (oPrefix : Path_T) : M Node_T :=
  numChildren ← Node_getNumChildren oCurr;
  FT_scan oCurr oPrefix (seq 0 numChildren).

(** The outer loop of [FT_insertDir] and [FT_insertFile], over the levels
    [1 .. depth-1]; [miss] is the status for a prefix that is not found
    ([NO_SUCH_PATH] in [FT_insertDir], [CONFLICTING_PATH] in
    [FT_insertFile]). *)
Fixpoint FT_descend (miss : status) (oNewPath : Path_T) (levels : list nat)
    (oCurr : Node_T) : M descent :=
  match levels with
  | [] => ret (Reached oCurr)
  | i :: rest =>
      oPrefix ← Path_prefix oNewPath i;
      if decide (oPrefix = None) then ret (Stopped MEMORY_ERROR) else
      oNext ← FT_findChild oCurr oPrefix;
      if decide (oNext = None) then ret (Stopped miss) else
      t ← Node_getType oNext;
      if decide (t ≠ FT_DIR) then ret (Stopped NOT_A_DIRECTORY) else
      FT_descend miss oNewPath rest oNext
  end.

(** The outer loop of the lookups, over the levels [1 .. depth]. *)
Fixpoint FT_walk (oTargetPath : Path_T) (levels : list nat)
    (oParent oCurr : Node_T) : M walked :=
  match levels with
  | [] => ret (Arrived oParent oCurr)
  | i :: rest =>
      oPrefix ← Path_prefix oTargetPath i;
      if decide (oPrefix = None) then ret PrefixFailed else
      oNext ← FT_findChild oCurr oPrefix;
      if decide (oNext = None) then ret Missing else
      FT_walk oTargetPath rest oCurr oNext
  end.

Definition FT_insertDir (pcPath : string) : M status :=
  init ← gets bIsInitialized;
  if negb init then ret INITIALIZATION_ERROR else
  oNewPath ← Path_create pcPath;
  if decide (oNewPath = None) then ret BAD_PATH else
  depth ← Path_getDepth oNewPath;
  if decide (depth = 0) then ret BAD_PATH else
  root ← gets oRoot;
  if decide (root = None) then
    if decide (depth ≠ 1) then ret CONFLICTING_PATH else
    '(result, oNew) ← Node_new oNewPath None FT_DIR;
    if decide (result ≠ SUCCESS) then ret result else
    modify (set_oRoot oNew);;
    ret SUCCESS
  else
    d ← FT_descend NO_SUCH_PATH oNewPath (seq 1 (depth - 1)) root;
    match d with
    | Stopped st => ret st
    | Reached oCurr =>
        same ← FT_findChild oCurr oNewPath;
        if decide (same ≠ None) then ret ALREADY_IN_TREE else
        '(result, oNewNode) ← Node_new oNewPath oCurr FT_DIR;
        if decide (result ≠ SUCCESS) then ret result else
        added ← DynArray_add oCurr oNewNode;
        if negb added then (Node_free oNewNode;; ret MEMORY_ERROR) else
        ret SUCCESS
    end.

Definition FT_containsDir (pcPath : string) : M bool :=
  init ← gets bIsInitialized;
  if negb init then ret false else
  oTargetPath ← Path_create pcPath;
  if decide (oTargetPath = None) then ret false else
  depth ← Path_getDepth oTargetPath;
  if decide (depth = 0) then ret false else
  root ← gets oRoot;
  if decide (root = None) then ret false else
  r ← FT_walk oTargetPath (seq 1 depth) None root;
  match r with
  | PrefixFailed | Missing => ret false
  | Arrived _ oCurr =>
      t ← Node_getType oCurr;
      ret (bool_decide (t = FT_DIR))
  end.

(** The loop that takes [oToRemove] out of its parent's array. *)
Fixpoint FT_unlink (oParent oToRemove : Node_T) (js : list nat) : M unit :=
  match js with
  | [] => ret ()
  | j :: js' =>
      '(st, child) ← Node_getChild oParent j;
      if decide (st = SUCCESS ∧ child = oToRemove) then
        DynArray_removeAt oParent j
      else FT_unlink oParent oToRemove js'
  end.

Definition FT_rmDir (pcPath : string) : M status :=
  init ← gets bIsInitialized;
  if negb init then ret INITIALIZATION_ERROR else
  oTargetPath ← Path_create pcPath;
  if decide (oTargetPath = None) then ret BAD_PATH else
  depth ← Path_getDepth oTargetPath;
  if decide (depth = 0) then ret BAD_PATH else
  root ← gets oRoot;
  if decide (root = None) then ret NO_SUCH_PATH else
  rootPath ← Node_getPath root;
  c ← Path_comparePath rootPath oTargetPath;
  if decide (c = 0%Z) then
    t ← Node_getType root;
    if decide (t ≠ FT_DIR) then ret NOT_A_DIRECTORY else
    Node_free root;;
    modify (set_oRoot None);;
    ret SUCCESS
  else
    r ← FT_walk oTargetPath (seq 1 depth) None root;
    match r with
    | PrefixFailed => ret MEMORY_ERROR
    | Missing => ret NO_SUCH_PATH
    | Arrived oParent oToRemove =>
        t ← Node_getType oToRemove;
        if decide (t ≠ FT_DIR) then ret NOT_A_DIRECTORY else
        numChildren ← Node_getNumChildren oParent;
        FT_unlink oParent oToRemove (seq 0 numChildren);;
        Node_free oToRemove;;
        ret SUCCESS
    end.

(** [FT_insertFile]: [pvContents] is the caller's buffer ([None] for a
    [NULL] pointer); copying [ulLength] bytes out of a shorter buffer is
    undefined. *)
Definition FT_insertFile (pcPath : string) (pvContents : option (list ascii))
    (ulLength : nat) : M status :=
  init ← gets bIsInitialized;
  if negb init then ret INITIALIZATION_ERROR else
  oNewPath ← Path_create pcPath;
  if decide (oNewPath = None) then ret BAD_PATH else
  depth ← Path_getDepth oNewPath;
  if decide (depth = 0) then ret BAD_PATH else
  root ← gets oRoot;
  if decide (root = None ∧ depth = 1) then ret CONFLICTING_PATH else
  early ←
    (if decide (root = None) then
       rootPrefix ← Path_prefix oNewPath 1;
       if decide (rootPrefix = None) then ret (Some MEMORY_ERROR) else
       '(result, oNew) ← Node_new rootPrefix None FT_DIR;
       if decide (result ≠ SUCCESS) then ret (Some result) else
       modify (set_oRoot oNew);;
       ret None
     else ret None);
  match early with
  | Some st => ret st
  | None =>
      oCurr ← gets oRoot;
      d ← FT_descend CONFLICTING_PATH oNewPath (seq 1 (depth - 1)) oCurr;
      match d with
      | Stopped st => ret st
      | Reached oCurr =>
          same ← FT_findChild oCurr oNewPath;
          if decide (same ≠ None) then ret ALREADY_IN_TREE else
          '(result, oNewNode) ← Node_new oNewPath oCurr FT_FILE;
          if decide (result ≠ SUCCESS) then ret result else
          copy ← malloc_buf ulLength;
          if decide (0 < ulLength ∧ copy = None) then
            (Node_free oNewNode;; ret MEMORY_ERROR)
          else
          failed ←
            match pvContents with
            | Some src =>
                if decide (0 < ulLength) then
                  (if decide (length src < ulLength) then crash
                   else write_buf copy (take ulLength src));;
                  set ← Node_setContents oNewNode copy;
                  ret (negb set)
                else (Node_setContents oNewNode None;; ret false)
            | None => Node_setContents oNewNode None;; ret false
            end;
          if (failed : bool) then
            (free_buf copy;; Node_free oNewNode;; ret MEMORY_ERROR)
          else
          free_buf copy;;
          added ← DynArray_add oCurr oNewNode;
          if negb added then (Node_free oNewNode;; ret MEMORY_ERROR) else
          ret SUCCESS
      end
  end.

Definition FT_containsFile (pcPath : string) : M bool :=
  init ← gets bIsInitialized;
  if negb init then ret false else
  oTargetPath ← Path_create pcPath;
  if decide (oTargetPath = None) then ret false else
  depth ← Path_getDepth oTargetPath;
  if decide (depth = 0) then ret false else
  root ← gets oRoot;
  if decide (root = None) then ret false else
  r ← FT_walk oTargetPath (seq 1 depth) None root;
  match r with
  | PrefixFailed | Missing => ret false
  | Arrived _ oCurr =>
      t ← Node_getType oCurr;
      ret (bool_decide (t = FT_FILE))
  end.

Definition FT_rmFile (pcPath : string) : M status :=
  init ← gets bIsInitialized;
  if negb init then ret INITIALIZATION_ERROR else
  oTargetPath ← Path_create pcPath;
  if decide (oTargetPath = None) then ret BAD_PATH else
  depth ← Path_getDepth oTargetPath;
  if decide (depth = 0) then ret BAD_PATH else
  root ← gets oRoot;
  if decide (root = None) then ret NO_SUCH_PATH else
  rootPath ← Node_getPath root;
  c ← Path_comparePath rootPath oTargetPath;
  if decide (c = 0%Z) then
    t ← Node_getType root;
    ret (if decide (t = FT_FILE) then NOT_A_FILE else CONFLICTING_PATH)
  else
    r ← FT_walk oTargetPath (seq 1 depth) None root;
    match r with
    | PrefixFailed => ret MEMORY_ERROR
    | Missing => ret NO_SUCH_PATH
    | Arrived oParent oCurr =>
        t ← Node_getType oCurr;
        if decide (t ≠ FT_FILE) then ret NOT_A_FILE else
        numChildren ← Node_getNumChildren oParent;
        FT_unlink oParent oCurr (seq 0 numChildren);;
        Node_free oCurr;;
        ret SUCCESS
    end.

(** [FT_getFileContents]: the pointer it returns. *)
Definition FT_getFileContents (pcPath : string) : M charp :=
  init ← gets bIsInitialized;
  if negb init then ret None else
  oTargetPath ← Path_create pcPath;
  if decide (oTargetPath = None) then ret None else
  depth ← Path_getDepth oTargetPath;
  if decide (depth = 0) then ret None else
  root ← gets oRoot;
  if decide (root = None) then ret None else
  r ← FT_walk oTargetPath (seq 1 depth) None root;
  match r with
  | PrefixFailed | Missing => ret None
  | Arrived _ oCurr =>
      t ← Node_getType oCurr;
      if decide (t ≠ FT_FILE) then ret None else
      Node_getContents oCurr
  end.

(** [FT_replaceFileContents]: the pointer it returns. *)
Definition FT_replaceFileContents (pcPath : string)
    (pvNewContents : option (list ascii)) (ulNewLength : nat) : M charp :=
  init ← gets bIsInitialized;
  if negb init then ret None else
  oTargetPath ← Path_create pcPath;
  if decide (oTargetPath = None) then ret None else
  depth ← Path_getDepth oTargetPath;
  if decide (depth = 0) then ret None else
  root ← gets oRoot;
  if decide (root = None) then ret None else
  r ← FT_walk oTargetPath (seq 1 depth) None root;
  match r with
  | PrefixFailed | Missing => ret None
  | Arrived _ oCurr =>
      t ← Node_getType oCurr;
      if decide (t ≠ FT_FILE) then ret None else
      prepared ←
        match pvNewContents with
        | Some src =>
            if decide (0 < ulNewLength) then
              newContents ← malloc_buf ulNewLength;
              if decide (newContents = None) then ret None else
              (if decide (length src < ulNewLength) then crash
               else write_buf newContents (take ulNewLength src));;
              ret (Some newContents)
            else ret (Some None)
        | None => ret (Some None)
        end;
      match prepared with
      | None => ret None                       (* allocation failed *)
      | Some newContents =>
          oldContents ← Node_getContents oCurr;
          set ← Node_setContents oCurr newContents;
          if negb set then (free_buf newContents;; ret None) else
          ret oldContents
      end
  end.

Definition FT_stat (pcPath : string) (pbIsFile : option bool)
    (pulSize : option Z) : M stat_result :=
  let unchanged st := StatResult st pbIsFile pulSize in
  init ← gets bIsInitialized;
  if negb init then ret (unchanged INITIALIZATION_ERROR) else
  oTargetPath ← Path_create pcPath;
  if decide (oTargetPath = None) then ret (unchanged BAD_PATH) else
  depth ← Path_getDepth oTargetPath;
  if decide (depth = 0) then ret (unchanged BAD_PATH) else
  root ← gets oRoot;
  if decide (root = None) then ret (unchanged NO_SUCH_PATH) else
  rootPath ← Node_getPath root;
  rootPrefix ← Path_prefix rootPath 1;
  isPre ← (if decide (rootPrefix = None) then ret false
           else Path_isPrefix rootPath oTargetPath);
  if negb isPre then ret (unchanged CONFLICTING_PATH) else
  r ← FT_walk oTargetPath (seq 1 depth) None root;
  match r with
  | PrefixFailed => ret (unchanged MEMORY_ERROR)
  | Missing => ret (unchanged NO_SUCH_PATH)
  | Arrived _ oCurr =>
      t ← Node_getType oCurr;
      match t with
      | FT_FILE =>
          size ← match pulSize with
                 | None => ret None
                 | Some _ =>
                     contents ← Node_getContents oCurr;
                     match contents with
                     | None => ret (Some 0%Z)
                     | Some _ =>
                         s ← read_string contents;     (* strlen *)
                         ret (Some (Z.of_nat (length s)))
                     end
                 end;
          ret (StatResult SUCCESS (pbIsFile ≫= λ _, Some true) size)
      | FT_DIR =>
          ret (StatResult SUCCESS (pbIsFile ≫= λ _, Some false) pulSize)
      end
  end.

Definition FT_init : M status :=
  init ← gets bIsInitialized;
  if (init : bool) then ret INITIALIZATION_ERROR else
  modify (set_bIsInitialized true);;
  modify (set_oRoot None);;
  ret SUCCESS.

Definition FT_destroy : M status :=
  init ← gets bIsInitialized;
  if negb init then ret INITIALIZATION_ERROR else
  root ← gets oRoot;
  (if decide (root ≠ None) then Node_free root;; modify (set_oRoot None)
   else ret ());;
  modify (set_bIsInitialized false);;
  ret SUCCESS.

(** [qsort] with [compareNodes]: the nodes in ascending order of their
    paths.  [qsort] leaves the order of equal elements open; this one keeps
    it. *)
Fixpoint insert_sorted (x : Node_T) (l : list Node_T) : M (list Node_T) :=
  match l with
  | [] => ret [x]
  | y :: l' =>
      c ← Node_compare x y;
      if decide (c ≤ 0)%Z then ret (x :: y :: l')
      else (r ← insert_sorted x l'; ret (y :: r))
  end.

Fixpoint qsort (l : list Node_T) : M (list Node_T) :=
  match l with
  | [] => ret []
  | x :: l' => s ← qsort l'; insert_sorted x s
  end.

(** A loop of recursive visits that stops at the first [FALSE]. *)
Fixpoint visit_all (visit : Node_T → list string → M (bool * list string))
    (children : list Node_T) (oLines : list string)
    : M (bool * list string) :=
  match children with
  | [] => ret (true, oLines)
  | child :: rest =>
      '(ok, oLines') ← visit child oLines;
      if (ok : bool) then visit_all visit rest oLines'
      else ret (false, oLines')
  end.

Definition newline : string := String (ascii_of_nat 10) EmptyString.

(** [FT_traverseToString], [fuel] levels deep; [oLines] is the array of the
    lines collected so far, and the result pairs the returned boolean with
    the array after the call. *)
Fixpoint FT_traverseToString_rec (fuel : nat) (oNode : Node_T)
    (oLines : list string) : M (bool * list string) :=
  match fuel with
  | 0 => λ _, Diverge
  | S fuel' =>
      s ← Node_toString oNode;
      match s with
      | None => ret (false, oLines)
      | Some line =>
          added ← malloc_ok;                      (* DynArray_add(oLines, s) *)
          if negb added then ret (false, oLines) else
          let oLines := oLines ++ [line] in
          numChildren ← Node_getNumChildren oNode;
          okF ← malloc_ok;                        (* DynArray_new(0) *)
          okD ← malloc_ok;                        (* DynArray_new(0) *)
          if negb okF || negb okD then ret (false, oLines) else
          '(fileChildren, dirChildren) ←
            for_each
              (λ '(fs, ds) i,
                 '(st, child) ← Node_getChild oNode i;
                 if decide (st = SUCCESS) then
                   t ← Node_getType child;
                   grown ← malloc_ok;   (* DynArray_add, result not checked *)
                   ret (match t with
                        | FT_FILE => (if grown then fs ++ [child] else fs, ds)
                        | FT_DIR => (fs, if grown then ds ++ [child] else ds)
                        end)
                 else ret (fs, ds))
              (seq 0 numChildren) ([], []);
          fileChildren ← qsort fileChildren;
          dirChildren ← qsort dirChildren;
          '(ok, oLines) ←
            visit_all (FT_traverseToString_rec fuel') fileChildren oLines;
          if negb ok then ret (false, oLines) else
          visit_all (FT_traverseToString_rec fuel') dirChildren oLines
      end
  end.

Definition FT_traverseToString (oNode : Node_T) (oLines : list string)
    : M (bool * list string) := λ w,
  FT_traverseToString_rec (S (size (nodes w))) oNode oLines w.

Definition FT_toString : M (option string) :=
  init ← gets bIsInitialized;
  root ← gets oRoot;
  if negb init || bool_decide (root = None) then ret None else
  ok ← malloc_ok;                                 (* DynArray_new(0) *)
  if negb ok then ret None else
  '(ok, oLines) ← FT_traverseToString root [];
  if negb ok then ret None else
  ok ← malloc_ok;                                 (* malloc(totalLength) *)
  if negb ok then ret None else
  ret (Some (foldr (λ line acc, line +:+ newline +:+ acc) "" oLines)).

End FT.

(** ** The checker *)

(** The first loop of [CheckerDT_Node_isValid]: every child can be fetched
    and points back to [oNNode]. *)
Fixpoint CheckerDT_children_loop (oNNode : Node_T) (js : list nat) : M bool :=
  match js with
  | [] => ret true
  | i :: js' =>
      '(iStatus, oNChild) ← Node_getChild oNNode i;
      if decide (iStatus ≠ SUCCESS ∨ oNChild = None) then ret false else
      par ← Node_getParent oNChild;
      if decide (par ≠ oNNode) then ret false
      else CheckerDT_children_loop oNNode js'
  end.

(** The second loop: the inner loop over [j], then the outer over [i]. *)
Fixpoint CheckerDT_duplicate_inner (oNNode oNChild1 : Node_T) (js : list nat)
    : M bool :=
  match js with
  | [] => ret true
  | j :: js' =>
      '(_, oNChild2) ← Node_getChild oNNode j;
      p1 ← Node_getPath oNChild1;
      p2 ← Node_getPath oNChild2;
      c ← Path_comparePath p1 p2;
      if decide (c = 0%Z) then ret false
      else CheckerDT_duplicate_inner oNNode oNChild1 js'
  end.

Fixpoint CheckerDT_duplicate_loop (oNNode : Node_T) (ulNumChildren : nat)
    (indices : list nat) : M bool :=
  match indices with
  | [] => ret true
  | i :: rest =>
      '(_, oNChild1) ← Node_getChild oNNode i;
      ok ← CheckerDT_duplicate_inner oNNode oNChild1
              (seq (i + 1) (ulNumChildren - (i + 1)));
      if negb ok then ret false
      else CheckerDT_duplicate_loop oNNode ulNumChildren rest
  end.

(** The third loop, [for (i = 0; i < ulNumChildren - 1; i++)]: the bound is
    computed in [size_t], and [fuel] bounds the number of iterations. *)
Fixpoint CheckerDT_order_loop (fuel : nat) (oNNode : Node_T) (i bound : Z)
    : M bool :=
  match fuel with
  | 0 => λ _, Diverge
  | S fuel' =>
      if decide (i < bound)%Z then
        '(s1, oneNode) ← Node_getChild oNNode (Z.to_nat i);
        if decide (s1 ≠ SUCCESS ∨ oneNode = None) then ret false else
        '(s2, twoNode) ← Node_getChild oNNode (Z.to_nat (i + 1));
        if decide (s2 ≠ SUCCESS ∨ twoNode = None) then ret false else
        p1 ← Node_getPath oneNode;
        p2 ← Node_getPath twoNode;
        if decide (p1 = None ∨ p2 = None) then ret false else
        cmp ← Path_comparePath p1 p2;
        if decide (cmp > 0)%Z then ret false
        else CheckerDT_order_loop fuel' oNNode (i + 1)%Z bound
      else ret true
  end.

(** [CheckerDT_Node_isValid].  The checker is written against the node
    interface ([Node_getPath], [Node_getParent], [Node_getNumChildren],
    [Node_getChild]); the accessors are those of [nodeFT.c]. *)
Definition CheckerDT_Node_isValid (oNNode : Node_T) : M bool :=
  if decide (oNNode = None) then ret false else
  oPNPath ← Node_getPath oNNode;
  if decide (oPNPath = None) then ret false else
  oNParent ← Node_getParent oNNode;
  parentOk ←
    (if decide (oNParent ≠ None) then
       oPPPath ← Node_getPath oNParent;
       if decide (oPPPath = None) then ret false else
       shared ← Path_getSharedPrefixDepth oPNPath oPPPath;
       d ← Path_getDepth oPNPath;
       ret (bool_decide (Z.of_nat shared = size_sub (Z.of_nat d) 1))
     else ret true);
  if negb parentOk then ret false else
  ulNumChildren ← Node_getNumChildren oNNode;
  ok ← CheckerDT_children_loop oNNode (seq 0 ulNumChildren);
  if negb ok then ret false else
  ok ← CheckerDT_duplicate_loop oNNode ulNumChildren (seq 0 ulNumChildren);
  if negb ok then ret false else
  CheckerDT_order_loop (S ulNumChildren) oNNode 0
    (size_sub (Z.of_nat ulNumChildren) 1).

(** The loop of [CheckerDT_treeCheck] over the children. *)
Fixpoint CheckerDT_treeCheck_loop
    (check : Node_T → Z → M (bool * Z)) (oNNode : Node_T) (js : list nat)
    (count : Z) : M (bool * Z) :=
  match js with
  | [] => ret (true, count)
  | i :: js' =>
      '(st, oNChild) ← Node_getChild oNNode i;
      if decide (st ≠ SUCCESS ∨ oNChild = None) then ret (false, count) else
      '(ok, count') ← check oNChild count;
      if negb ok then ret (false, count')
      else CheckerDT_treeCheck_loop check oNNode js' count'
  end.

(** [CheckerDT_treeCheck], [fuel] levels deep: the returned boolean and the
    counter behind [pulCount] after the call. *)
Fixpoint CheckerDT_treeCheck_rec (fuel : nat) (oNNode : Node_T) (count : Z)
    : M (bool * Z) :=
  match fuel with
  | 0 => λ _, Diverge
  | S fuel' =>
      if decide (oNNode ≠ None) then
        valid ← CheckerDT_Node_isValid oNNode;
        if negb valid then ret (false, count) else
        let count := size_add count 1 in
        ulNumChildren ← Node_getNumChildren oNNode;
        CheckerDT_treeCheck_loop (CheckerDT_treeCheck_rec fuel') oNNode
          (seq 0 ulNumChildren) count
      else ret (true, count)
  end.

Definition CheckerDT_treeCheck (oNNode : Node_T) (count : Z) : M (bool * Z) :=
  λ w, CheckerDT_treeCheck_rec (S (size (nodes w))) oNNode count w.

Definition CheckerDT_isValid (bIsInitialized0 : bool) (oNRoot : Node_T)
    (ulCount : Z) : M bool :=
  if negb bIsInitialized0 then
    if decide (ulCount ≠ 0%Z) then ret false else
    if decide (oNRoot ≠ None) then ret false else
    ret true
  else
  if decide (ulCount = 0%Z ∧ oNRoot ≠ None) then ret false else
  if decide (ulCount > 0 ∧ oNRoot = None)%Z then ret false else
  '(ok, ulTraverseCount) ← CheckerDT_treeCheck oNRoot 0;
  if negb ok then ret false else
  if decide (ulTraverseCount ≠ ulCount) then ret false else
  ret true.

(** ** The stores the FT interface can reach *)

(** One call of the public interface of [ft.h]. *)
Inductive call : Type :=
| Call_init
| Call_destroy
| Call_insertDir (pcPath : string)
| Call_insertFile (pcPath : string) (pvContents : option (list ascii))
    (ulLength : nat)
| Call_containsDir (pcPath : string)
| Call_containsFile (pcPath : string)
| Call_rmDir (pcPath : string)
| Call_rmFile (pcPath : string)
| Call_getFileContents (pcPath : string)
| Call_replaceFileContents (pcPath : string)
    (pvNewContents : option (list ascii)) (ulNewLength : nat)
| Call_stat (pcPath : string) (pbIsFile : option bool) (pulSize : option Z)
| Call_toString.

(** The store before [main]: nothing allocated, the tree not initialised. *)
Definition boot (b : loc) (f : list bool) : world := World ∅ ∅ false None b f.

Section Reach.

Variable Path_parse : string → option path.

Definition perform (c : call) : M unit :=
  match c with
  | Call_init => FT_init;; ret ()
  | Call_destroy => FT_destroy;; ret ()
  | Call_insertDir p => FT_insertDir Path_parse p;; ret ()
  | Call_insertFile p c n => FT_insertFile Path_parse p c n;; ret ()
  | Call_containsDir p => FT_containsDir Path_parse p;; ret ()
  | Call_containsFile p => FT_containsFile Path_parse p;; ret ()
  | Call_rmDir p => FT_rmDir Path_parse p;; ret ()
  | Call_rmFile p => FT_rmFile Path_parse p;; ret ()
  | Call_getFileContents p => FT_getFileContents Path_parse p;; ret ()
  | Call_replaceFileContents p c n =>
      FT_replaceFileContents Path_parse p c n;; ret ()
  | Call_stat p b z => FT_stat Path_parse p b z;; ret ()
  | Call_toString => FT_toString;; ret ()
  end.

(** A store is reachable when a client gets there from [boot] by calls of
    the interface that return; between calls the allocator's future is
    anyone's guess. *)
Inductive reachable : world → Prop :=
| reachable_boot b f : reachable (boot b f)
| reachable_call w c w' :
    reachable w → perform c w = Ret () w' → reachable w'
| reachable_fate w f : reachable w → reachable (set_fate f w).

End Reach.

(** ** Predicates on stores *)

(** [w'] is [w] up to the allocator's future, and no failure is pending in
    [w'] unless one was pending in [w]. *)
Definition fated (w w' : world) : Prop :=
  nodes w' = nodes w ∧ bufs w' = bufs w ∧
  bIsInitialized w' = bIsInitialized w ∧ oRoot w' = oRoot w ∧
  brk w' = brk w ∧ (false ∈ fate w' → false ∈ fate w).

(** A directory without parent, children or contents. *)
Definition root_dir (p : path) : node :=
  Node (Some p) None (Some []) FT_DIR None.

(** The tree is empty, or it is one directory of depth 1 and nothing else
    is allocated. *)
Definition lone_root (w : world) : Prop :=
  bufs w = ∅ ∧
  (bIsInitialized w = false → oRoot w = None) ∧
  match oRoot w with
  | None => nodes w = ∅
  | Some r => ∃ p, length p = 1 ∧ nodes w = {[ r := root_dir p ]}
  end.

(** The path of the node a child pointer leads to. *)
Definition child_path (w : world) (c : Node_T) : option path :=
  match c with
  | None => None
  | Some l =>
      match nodes w !! l with
      | Some nd => oPPath nd
      | None => None
      end
  end.

(** Every file node has a content buffer. *)
Definition files_have_contents (w : world) : Prop :=
  ∀ l nd, nodes w !! l = Some nd → eType nd = FT_FILE → pcContents nd ≠ None.

(** The node behind [n] is a file whose contents are the empty string. *)
Definition holds_empty_string (w : world) (n : Node_T) : Prop :=
  ∃ l nd b, n = Some l ∧ nodes w !! l = Some nd ∧ eType nd = FT_FILE ∧
            pcContents nd = Some b ∧ string_at w (Some b) = Some [].

(** The allocator hands out addresses from [brk] on: every live buffer, and
    every buffer a node points to, lies below it. *)
Definition fresh (w : world) : Prop :=
  (∀ l, is_Some (bufs w !! l) → l < brk w) ∧
  (∀ l nd b, nodes w !! l = Some nd → pcContents nd = Some b → b < brk w).

(** What [CheckerDT_Node_isValid] accepts: a live directory with a path
    and at least one child, whose path shares with the parent's all but its
    last component, whose children are live nodes that point back to it,
    no two of them with equal paths, each one not after the next. *)
Definition accepted_node (w : world) (l : loc) : Prop :=
  ∃ nd p cs,
    nodes w !! l = Some nd ∧ oPPath nd = Some p ∧
    eType nd = FT_DIR ∧ oChildren nd = Some cs ∧ cs ≠ [] ∧
    (∀ lp, oNParent nd = Some lp →
       ∃ pp, child_path w (Some lp) = Some pp ∧
             Z.of_nat (sharedPrefixDepth p pp)
             = size_sub (Z.of_nat (length p)) 1) ∧
    (∀ i c, cs !! i = Some c →
       ∃ lc ndc, c = Some lc ∧ nodes w !! lc = Some ndc ∧
                 oNParent ndc = Some l) ∧
    (∀ i j ci cj, i < j → cs !! i = Some ci → cs !! j = Some cj →
       ∃ pi pj, child_path w ci = Some pi ∧ child_path w cj = Some pj ∧
                comparePath pi pj ≠ 0%Z) ∧
    (∀ i ci cj, cs !! i = Some ci → cs !! S i = Some cj →
       ∃ pi pj, child_path w ci = Some pi ∧ child_path w cj = Some pj ∧
                (comparePath pi pj ≤ 0)%Z).

(** A line of [FT_toString] that stands for a live directory of [w]. *)
Definition dir_line (w : world) (line : string) : Prop :=
  ∃ l nd p, nodes w !! l = Some nd ∧ eType nd = FT_DIR ∧
            oPPath nd = Some p ∧ line = pathname p +:+ " [dir]".

(** ** Trees laid out in the store *)

#[local] Set Warnings "-register-all".

(** The shape of a tree in the store: a file with its address and the
    pointer to its contents, or a directory with its address and the trees
    of its children, in array order. *)
Inductive tree : Type :=
| File (l : loc) (b : charp)
| Dir (l : loc) (children : list tree).

Definition root_of (t : tree) : loc :=
  match t with File l _ | Dir l _ => l end.

(** The addresses of the nodes of a tree, and of its content buffers. *)
Fixpoint node_locs (t : tree) : list loc :=
  match t with
  | File l _ => [l]
  | Dir l ts => l :: (ts ≫= node_locs)
  end.

Fixpoint buf_locs (t : tree) : list loc :=
  match t with
  | File _ b => match b with Some x => [x] | None => [] end
  | Dir _ ts => ts ≫= buf_locs
  end.

Fixpoint height (t : tree) : nat :=
  match t with
  | File _ _ => 1
  | Dir _ ts => S (max_list (height <$> ts))
  end.

(** The store holds the tree [t]: every node is live and has the type, the
    children and the contents the tree says, and content buffers are live. *)
Inductive laid_out (w : world) : tree → Prop :=
| laid_out_File l b nd :
    nodes w !! l = Some nd → eType nd = FT_FILE → pcContents nd = b →
    (∀ x, b = Some x → is_Some (bufs w !! x)) →
    laid_out w (File l b)
| laid_out_Dir l ts nd :
    nodes w !! l = Some nd → eType nd = FT_DIR →
    oChildren nd = Some ((λ t, Some (root_of t)) <$> ts) →
    Forall (laid_out w) ts →
    laid_out w (Dir l ts).

(** The store without the nodes at [ls] and the buffers at [bs]. *)
Definition release (ls bs : list loc) (w : world) : world :=
  set_bufs (λ m, foldr delete m bs) (set_nodes (λ m, foldr delete m ls) w).

(** ** The serialisation the specification describes *)

Definition is_file (t : tree) : bool :=
  match t with File _ _ => true | Dir _ _ => false end.

(** The line of a node: its path string and its kind. *)
Definition line_of (w : world) (t : tree) : string :=
  default "" (pathname <$> child_path w (Some (root_of t))) +:+
  (if is_file t then " [file]" else " [dir]").

(** Depth-first pre-order: the line of the node, then its file children and
    then its directory children, each with all that is below it. *)
Fixpoint preorder (w : world) (t : tree) : list string :=
  line_of w t ::
  match t with
  | File _ _ => []
  | Dir _ ts =>
      (ts ≫= λ c, if is_file c then preorder w c else []) ++
      (ts ≫= λ c, if is_file c then [] else preorder w c)
  end.

(** The lines joined, each followed by a newline. *)
Definition joined (lines : list string) : string :=
  foldr (λ line acc, line +:+ newline +:+ acc) "" lines.

(** The node behind [a] does not come after the node behind [b] in the
    order of the path strings. *)
Definition node_le (w : world) (a b : Node_T) : Prop :=
  ∃ p q, child_path w a = Some p ∧ child_path w b = Some q ∧
         (comparePath p q ≤ 0)%Z.

(** In every directory the file children are in ascending order of their
    paths, and so are the directory children. *)
Inductive in_order (w : world) : tree → Prop :=
| in_order_File l b : in_order w (File l b)
| in_order_Dir l ts :
    Sorted (node_le w)
      ((λ t, Some (root_of t)) <$> filter (λ c, is_file c = true) ts) →
    Sorted (node_le w)
      ((λ t, Some (root_of t)) <$> filter (λ c, is_file c = false) ts) →
    Forall (in_order w) ts →
    in_order w (Dir l ts).

(** The same tree with the children of its directories in another order. *)
Inductive rearranged : tree → tree → Prop :=
| rearranged_File l b : rearranged (File l b) (File l b)
| rearranged_Dir l ts ts1 ts' :
    ts ≡ₚ ts1 → Forall2 rearranged ts1 ts' →
    rearranged (Dir l ts) (Dir l ts').

(** A tree of directories. *)
Inductive dirs_only : tree → Prop :=
| dirs_only_Dir l ts : Forall dirs_only ts → dirs_only (Dir l ts).

(** Every node of the tree has a path. *)
Definition pathed (w : world) (t : tree) : Prop :=
  ∀ l, l ∈ node_locs t → is_Some (child_path w (Some l)).

(** Weakest preconditions of calls that return. *)
Definition wp {A} (m : M A) (Q : A → world → Prop) (w : world) : Prop :=
  match m w with
  | Ret a w' => Q a w'
  | _ => False
  end.

(** ** An example parser, and example stores *)

Fixpoint split_on (sep : ascii) (s : string) : list string :=
  match s with
  | EmptyString => [EmptyString]
  | String c s' =>
      if decide (c = sep) then EmptyString :: split_on sep s'
      else match split_on sep s' with
           | [] => [String c EmptyString]
           | h :: t => String c h :: t
           end
  end.

(** Modelled from the spec: absolute slash-delimited paths, ["/a/b"] being
    the components [a] and [b]; the empty string is the path of depth 0. *)
Definition absolute_path (s : string) : option path :=
  match split_on "/"%char s with
  | [ EmptyString ] => Some []
  | EmptyString :: comps =>
      if forallb (λ c, negb (bool_decide (c = EmptyString))) comps
      then Some comps else None
  | _ => None
  end.

(** The store at program start, after [FT_init], and after
    [FT_insertDir("/a")] on top of that. *)
Definition w_boot : world := boot 1 [].
Definition w_init : world := World ∅ ∅ true None 1 [].
Definition w_a : world :=
  World {[ 1 := root_dir ["a"] ]} ∅ true (Some 1) 2 [].

(** A well-formed tree the interface cannot build: the directory [/a] with
    the file [/a/f], whose contents are the string ["x"]. *)
Definition w_file : world :=
  World (<[ 1 := Node (Some ["a"]) None (Some [Some 2]) FT_DIR None ]>
         (<[ 2 := Node (Some ["a"; "f"]) (Some 1) None FT_FILE (Some 3) ]> ∅))
        {[ 3 := ["x"%char; NUL] ]} true (Some 1) 4 [].

(** The tree of the serialisation example: the directory [/a] holding the
    directory [/a/z] and the empty file [/a/y], in insertion order. *)
Definition w_tree : world :=
  World (<[ 1 := Node (Some ["a"]) None (Some [Some 2; Some 3]) FT_DIR None ]>
         (<[ 2 := Node (Some ["a"; "z"]) (Some 1) (Some []) FT_DIR None ]>
         (<[ 3 := Node (Some ["a"; "y"]) (Some 1) None FT_FILE (Some 4) ]> ∅)))
        {[ 4 := [NUL] ]} true (Some 1) 5 [].

(** A malformed store on which the walk does arrive at a file: the root
    [/a] holds a file whose path is again [/a]. *)
Definition w_flat : world :=
  World (<[ 1 := Node (Some ["a"]) None (Some [Some 2]) FT_DIR None ]>
         (<[ 2 := Node (Some ["a"]) (Some 1) None FT_FILE (Some 3) ]> ∅))
        {[ 3 := ["x"%char; NUL] ]} true (Some 1) 4 [].

(** A well-formed tree of directories the interface cannot build: [/a]
    holding [/a/b]. *)
Definition w_dirs : world :=
  World (<[ 1 := Node (Some ["a"]) None (Some [Some 2]) FT_DIR None ]>
         (<[ 2 := Node (Some ["a"; "b"]) (Some 1) (Some []) FT_DIR None ]> ∅))
        ∅ true (Some 1) 3 [].

(** The tree of the serialisation example, as a shape. *)
Definition t_tree : tree := Dir 1 [Dir 2 []; File 3 (Some 4)].

(** A well-formed tree of directories the interface cannot build, with the
    children of the root out of order: [/a] holding [/a/z] and [/a/m], and
    [/a/m] holding [/a/m/k]. *)
Definition w_zm : world :=
  World (<[ 1 := Node (Some ["a"]) None (Some [Some 2; Some 3]) FT_DIR None ]>
         (<[ 2 := Node (Some ["a"; "z"]) (Some 1) (Some []) FT_DIR None ]>
         (<[ 3 := Node (Some ["a"; "m"]) (Some 1) (Some [Some 4]) FT_DIR
                    None ]>
         (<[ 4 := Node (Some ["a"; "m"; "k"]) (Some 3) (Some []) FT_DIR
                    None ]> ∅))))
        ∅ true (Some 1) 5 [].

Definition t_zm : tree := Dir 1 [Dir 2 []; Dir 3 [Dir 4 []]].

(** The same tree with every directory's children in order. *)
Definition t_mz : tree := Dir 1 [Dir 3 [Dir 4 []]; Dir 2 []].

(** A call that leaves the store as it found it, the allocator's future
    apart. *)
Definition readonly {A} (m : M A) : Prop :=
  ∀ w a w', m w = Ret a w' → fated w w'.

Create HintDb ro discriminated.

(** A call that leaves the whole store as it found it. *)
Definition stateless {A} (m : M A) : Prop :=
  ∀ w a w', m w = Ret a w' → w' = w.

Create HintDb stateless discriminated.

(** A call that leaves no file without a content buffer. *)
Definition keeps_files {A} (m : M A) : Prop :=
  ∀ w a w', files_have_contents w → m w = Ret a w' → files_have_contents w'.

Create HintDb keeps discriminated.

(** From [w] with any future in which no allocation fails, the call returns
    [a] and leaves [w] with such a future. *)
Definition returns_calmly {A} (m : M A) (a : A) (w : world) : Prop :=
  ∀ f0, false ∉ f0 →
    ∃ f, (false ∉ f) ∧ m (set_fate f0 w) = Ret a (set_fate f w).

(* ================================================================== *)
(** * Proofs *)

#[local] Arguments lone_root : simpl never.
#[local] Arguments fated : simpl never.

(** ** The monad *)

Lemma bind_inv {A B} (m : M A) (k : A → M B) w b w'' :
  bind m k w = Ret b w'' → ∃ a w', m w = Ret a w' ∧ k a w' = Ret b w''.
Proof.
  unfold bind. destruct (m w) as [a w'| |]; [eauto | discriminate..].
Qed.

Lemma bind_eq {A B} (m : M A) (k : A → M B) w a w' :
  m w = Ret a w' → bind m k w = k a w'.
Proof. unfold bind. by intros ->. Qed.

Lemma wp_ret {A} (a : A) (Q : A → world → Prop) w : Q a w → wp (ret a) Q w.
Proof. done. Qed.

Lemma wp_bind {A B} (m : M A) (k : A → M B) (Q : B → world → Prop) w :
  wp m (λ a w', wp (k a) Q w') w → wp (bind m k) Q w.
Proof. unfold wp, bind. by destruct (m w). Qed.

Lemma wp_mono {A} (m : M A) (Q Q' : A → world → Prop) w :
  wp m Q w → (∀ a w', Q a w' → Q' a w') → wp m Q' w.
Proof. unfold wp. destruct (m w); auto. Qed.

Lemma wp_eq {A} (m : M A) (Q : A → world → Prop) w a w' :
  m w = Ret a w' → Q a w' → wp m Q w.
Proof. unfold wp. by intros ->. Qed.

Lemma wp_inv {A} (m : M A) (Q : A → world → Prop) w :
  wp m Q w → ∃ a w', m w = Ret a w' ∧ Q a w'.
Proof. unfold wp. destruct (m w); [eauto | done..]. Qed.

Lemma wp_gets {A} (f : world → A) (Q : A → world → Prop) w :
  Q (f w) w → wp (gets f) Q w.
Proof. done. Qed.

Lemma wp_modify (f : world → world) (Q : unit → world → Prop) w :
  Q () (f w) → wp (modify f) Q w.
Proof. done. Qed.

(** ** Stores up to the allocator's future *)

Lemma fated_refl w : fated w w.
Proof. by repeat split. Qed.

Lemma fated_trans w1 w2 w3 : fated w1 w2 → fated w2 w3 → fated w1 w3.
Proof.
  intros (?&?&?&?&?&?) (?&?&?&?&?&?).
  repeat split; try congruence. auto.
Qed.

Lemma fated_set_fate w f : (false ∈ f → false ∈ fate w) → fated w (set_fate f w).
Proof. by repeat split. Qed.

Lemma malloc_ok_inv w b w' :
  malloc_ok w = Ret b w' → fated w w' ∧ (b = false → false ∈ fate w).
Proof.
  unfold malloc_ok. destruct (fate w) as [|b0 f] eqn:E.
  - intros [= <- <-]. split; [apply fated_refl | done].
  - intros [= <- <-]. split.
    + apply fated_set_fate. intros ?. rewrite E. set_solver.
    + intros ->. set_solver.
Qed.

Lemma wp_malloc_ok (Q : bool → world → Prop) w :
  (∀ b w', fated w w' → (b = false → false ∈ fate w) → Q b w') →
  wp malloc_ok Q w.
Proof.
  intros H. unfold wp. destruct (malloc_ok w) as [b w'| |] eqn:E.
  - apply malloc_ok_inv in E as [??]. auto.
  - unfold malloc_ok in E. by destruct (fate w).
  - unfold malloc_ok in E. by destruct (fate w).
Qed.

(** ** Read-only calls *)

Lemma readonly_ret {A} (a : A) : readonly (ret a).
Proof. intros w a' w' [= <- <-]. apply fated_refl. Qed.

Lemma readonly_bind {A B} (m : M A) (k : A → M B) :
  readonly m → (∀ a, readonly (k a)) → readonly (bind m k).
Proof.
  intros Hm Hk w b w'' (a & w' & E1 & E2)%bind_inv.
  eapply fated_trans; [by eapply Hm | by eapply Hk].
Qed.

Lemma readonly_crash {A} : readonly (@crash A).
Proof. intros w a w'. discriminate. Qed.

Lemma readonly_gets {A} (f : world → A) : readonly (gets f).
Proof. intros w a w' [= <- <-]. apply fated_refl. Qed.

Lemma readonly_malloc_ok : readonly malloc_ok.
Proof. intros w b w' E. by apply malloc_ok_inv in E as [??]. Qed.

Lemma readonly_nonnull {A} (o : option A) : readonly (nonnull o).
Proof. destruct o; [apply readonly_ret | apply readonly_crash]. Qed.

Lemma readonly_load n : readonly (load n).
Proof.
  intros w a w'. unfold load. destruct n as [l|]; [|discriminate].
  destruct (nodes w !! l); [|discriminate].
  intros [= <- <-]. apply fated_refl.
Qed.

Lemma readonly_read_buf p : readonly (read_buf p).
Proof.
  intros w a w'. unfold read_buf. destruct p as [l|]; [|discriminate].
  destruct (bufs w !! l); [|discriminate].
  intros [= <- <-]. apply fated_refl.
Qed.

#[local] Hint Resolve readonly_ret readonly_crash readonly_gets
  readonly_malloc_ok readonly_nonnull readonly_load readonly_read_buf : ro.

(** One step of a read-only proof: split a bind, or case on what a branch
    looks at. *)
Ltac ro_step :=
  match goal with
  | |- readonly (bind _ _) => apply readonly_bind; [| intros ?]
  | |- readonly (if ?b then _ else _) => destruct b
  | |- readonly (match ?x with _ => _ end) => destruct x
  | |- readonly (let '(_, _) := ?x in _) => destruct x
  | |- readonly _ => solve [auto with ro]
  end.
Ltac ro := repeat ro_step.

Lemma readonly_read_string p : readonly (read_string p).
Proof. unfold read_string. ro. Qed.

Lemma readonly_Path_getDepth p : readonly (Path_getDepth p).
Proof. unfold Path_getDepth. ro. Qed.

Lemma readonly_Path_comparePath p q : readonly (Path_comparePath p q).
Proof. unfold Path_comparePath. ro. Qed.

Lemma readonly_Path_getSharedPrefixDepth p q :
  readonly (Path_getSharedPrefixDepth p q).
Proof. unfold Path_getSharedPrefixDepth. ro. Qed.

Lemma readonly_Path_isPrefix p q : readonly (Path_isPrefix p q).
Proof. unfold Path_isPrefix. ro. Qed.

Lemma readonly_Path_prefix p k : readonly (Path_prefix p k).
Proof. unfold Path_prefix. ro. Qed.

Lemma readonly_Path_copy p : readonly (Path_copy p).
Proof. unfold Path_copy. ro. Qed.

Lemma readonly_Path_toString p : readonly (Path_toString p).
Proof. unfold Path_toString. ro. Qed.

Lemma readonly_Node_getType n : readonly (Node_getType n).
Proof. unfold Node_getType. ro. Qed.

Lemma readonly_Node_getPath n : readonly (Node_getPath n).
Proof. unfold Node_getPath. ro. Qed.

Lemma readonly_Node_getParent n : readonly (Node_getParent n).
Proof. unfold Node_getParent. ro. Qed.

Lemma readonly_Node_getNumChildren n : readonly (Node_getNumChildren n).
Proof. unfold Node_getNumChildren. ro. Qed.

Lemma readonly_Node_getChild n i : readonly (Node_getChild n i).
Proof. unfold Node_getChild. ro. Qed.

Lemma readonly_Node_getContents n : readonly (Node_getContents n).
Proof. unfold Node_getContents. ro. Qed.

#[local] Hint Resolve readonly_read_string readonly_Path_getDepth
  readonly_Path_comparePath readonly_Path_getSharedPrefixDepth
  readonly_Path_isPrefix readonly_Path_prefix readonly_Path_copy
  readonly_Path_toString readonly_Node_getType readonly_Node_getPath
  readonly_Node_getParent readonly_Node_getNumChildren readonly_Node_getChild
  readonly_Node_getContents : ro.

Lemma readonly_Node_compare a b : readonly (Node_compare a b).
Proof. unfold Node_compare. ro. Qed.

Lemma readonly_Node_toString n : readonly (Node_toString n).
Proof. unfold Node_toString. ro. Qed.

Lemma readonly_Node_hasChild_loop p cs : readonly (Node_hasChild_loop p cs).
Proof. induction cs as [|c cs IH]; simpl; ro. Qed.

#[local] Hint Resolve readonly_Node_compare readonly_Node_toString
  readonly_Node_hasChild_loop : ro.

Lemma readonly_Node_hasChild n p : readonly (Node_hasChild n p).
Proof. unfold Node_hasChild. ro. Qed.

#[local] Hint Resolve readonly_Node_hasChild : ro.

Lemma set_fate_same w : set_fate (fate w) w = w.
Proof. by destruct w. Qed.

Lemma fated_inv w w' : fated w w' → w' = set_fate (fate w') w.
Proof.
  destruct w, w'. unfold fated, set_fate. simpl.
  intros (-> & -> & -> & -> & -> & _). done.
Qed.

(** The allocation rule, with the store after the call written out. *)
Lemma wp_malloc (Q : bool → world → Prop) w :
  (∀ b f, (false ∈ f → false ∈ fate w) → (b = false → false ∈ fate w) →
          Q b (set_fate f w)) →
  wp malloc_ok Q w.
Proof.
  intros H. apply wp_malloc_ok. intros b w' Hf Hb.
  rewrite (fated_inv _ _ Hf). apply H; [apply Hf | done].
Qed.

(** Using the specification of a call that only consumes allocations. *)
Lemma wp_fated {A} (m : M A) (P : A → Prop) (Q : A → world → Prop) w :
  wp m (λ a w', fated w w' ∧ P a) w →
  (∀ a f, (false ∈ f → false ∈ fate w) → P a → Q a (set_fate f w)) →
  wp m Q w.
Proof.
  intros Hm H. eapply wp_mono; [exact Hm|]. intros a w' [Hf HP]. simpl.
  rewrite (fated_inv _ _ Hf). apply H; [apply Hf | done].
Qed.

Lemma set_fate_twice f g w : set_fate f (set_fate g w) = set_fate f w.
Proof. done. Qed.

Lemma wp_new_node nd (Q : Node_T → world → Prop) w :
  Q (Some (brk w)) (set_brk (S (brk w)) (set_nodes (insert (brk w) nd) w)) →
  wp (new_node nd) Q w.
Proof. done. Qed.

Lemma wp_new_buf bs (Q : charp → world → Prop) w :
  Q (Some (brk w)) (set_brk (S (brk w)) (set_bufs (insert (brk w) bs) w)) →
  wp (new_buf bs) Q w.
Proof. done. Qed.

Lemma oRoot_set_fate f w : oRoot (set_fate f w) = oRoot w.
Proof. done. Qed.
Lemma bIsInitialized_set_fate f w :
  bIsInitialized (set_fate f w) = bIsInitialized w.
Proof. done. Qed.
Lemma nodes_set_fate f w : nodes (set_fate f w) = nodes w.
Proof. done. Qed.
Lemma bufs_set_fate f w : bufs (set_fate f w) = bufs w.
Proof. done. Qed.
Lemma brk_set_fate f w : brk (set_fate f w) = brk w.
Proof. done. Qed.
Lemma fate_set_fate f w : fate (set_fate f w) = f.
Proof. done. Qed.

(** Normalising the goal between steps: projections of updated stores are
    computed, and what is known of the tree's variables is used. *)
Ltac proj_norm :=
  repeat match goal with
         | |- context [oRoot (?h ?a ?W)] =>
             let v := eval cbn [oRoot set_fate set_oRoot set_brk set_nodes
                                set_bufs set_bIsInitialized]
                      in (oRoot (h a W)) in
             progress change (oRoot (h a W)) with v
         | |- context [bIsInitialized (?h ?a ?W)] =>
             let v := eval cbn [bIsInitialized set_fate set_oRoot set_brk
                                set_nodes set_bufs set_bIsInitialized]
                      in (bIsInitialized (h a W)) in
             progress change (bIsInitialized (h a W)) with v
         | |- context [brk (?h ?a ?W)] =>
             let v := eval cbn [brk set_fate set_oRoot set_brk set_nodes
                                set_bufs set_bIsInitialized]
                      in (brk (h a W)) in
             progress change (brk (h a W)) with v
         | |- context [fate (?h ?a ?W)] =>
             let v := eval cbn [fate set_fate set_oRoot set_brk set_nodes
                                set_bufs set_bIsInitialized]
                      in (fate (h a W)) in
             progress change (fate (h a W)) with v
         end.
Ltac wp_norm :=
  cbn beta iota;
  rewrite ?set_fate_twice;
  proj_norm;
  repeat match goal with
         | H : oRoot ?w = _ |- context [oRoot ?w] => rewrite H
         | H : bIsInitialized ?w = _ |- context [bIsInitialized ?w] =>
             rewrite H
         end.

(** A branch whose guard contradicts what is known. *)
Ltac absurd_branch :=
  solve [ exfalso;
          first [ done | congruence | lia
                | match goal with
                  | H : ¬ _ |- _ =>
                      apply H; first [done | congruence | discriminate]
                  end ] ].

(** One step of symbolic execution. *)
Ltac wp_step :=
  lazymatch goal with
  | |- wp (bind _ _) _ _ => apply wp_bind
  | |- wp (ret _) _ _ => apply wp_ret
  | |- wp (gets _) _ _ => apply wp_gets
  | |- wp (modify _) _ _ => apply wp_modify
  | |- wp malloc_ok _ _ => apply wp_malloc; intros ? ? ? ?
  | |- wp (new_node _) _ _ => apply wp_new_node
  | |- wp (new_buf _) _ _ => apply wp_new_buf
  | |- wp (nonnull (Some _)) _ _ => apply wp_ret
  | |- wp (nonnull ?o) _ _ => destruct o; [apply wp_ret | try done]
  | |- wp (Path_getDepth _) _ _ => unfold Path_getDepth
  | |- wp (Path_comparePath _ _) _ _ => unfold Path_comparePath
  | |- wp (Path_isPrefix _ _) _ _ => unfold Path_isPrefix
  | |- wp (if decide ?P then _ else _) _ _ =>
      destruct (decide P); try absurd_branch
  | |- wp (if negb ?b then _ else _) _ _ =>
      destruct b eqn:?; simpl negb; cbv iota
  | |- wp (if ?b then _ else _) _ _ => destruct b eqn:?
  | |- wp (match ?x with _ => _ end) _ _ => destruct x eqn:?
  end.
Ltac wp_steps := repeat (wp_step; wp_norm).
Ltac split_bools := repeat match goal with b : bool |- _ => destruct b end.
Ltac wp_cases :=
  wp_steps; repeat case_decide; split_bools; simplify_eq/=; try lia.

(** Goals [fated w w'] where [w'] is [w] with another future. *)
Ltac fated_tac :=
  first [ apply fated_refl
        | apply fated_set_fate; simpl in *; tauto ].

Lemma wp_Path_prefix p k (Q : Path_T → world → Prop) w :
  (∀ o f, (false ∈ f → false ∈ fate w) →
          o = Some (take k p) ∨ (o = None ∧ (length p < k ∨ false ∈ fate w)) →
          Q o (set_fate f w)) →
  wp (Path_prefix (Some p) k) Q w.
Proof.
  intros H. unfold Path_prefix. wp_steps.
  - rewrite <- (set_fate_same w). apply H; auto.
  - apply H; [done|]. destruct b; auto.
Qed.

(** ** Scanning a directory without children *)

Section LoneRoot.

Variables (w : world) (r : loc) (p : path).
Hypothesis Hr : nodes w !! r = Some (root_dir p).

Lemma lone_load : load (Some r) w = Ret (root_dir p) w.
Proof. unfold load. by rewrite Hr. Qed.

Lemma lone_getType : Node_getType (Some r) w = Ret FT_DIR w.
Proof. unfold Node_getType. by rewrite (bind_eq _ _ _ _ _ lone_load). Qed.

Lemma lone_getPath : Node_getPath (Some r) w = Ret (Some p) w.
Proof. unfold Node_getPath. by rewrite (bind_eq _ _ _ _ _ lone_load). Qed.

Lemma lone_getNumChildren : Node_getNumChildren (Some r) w = Ret 0 w.
Proof.
  unfold Node_getNumChildren. by rewrite (bind_eq _ _ _ _ _ lone_load).
Qed.

Lemma lone_findChild q : FT_findChild (Some r) q w = Ret None w.
Proof.
  unfold FT_findChild. by rewrite (bind_eq _ _ _ _ _ lone_getNumChildren).
Qed.

Lemma lone_getChild i : Node_getChild (Some r) i w = Ret (NO_SUCH_PATH, None) w.
Proof.
  unfold Node_getChild. by rewrite (bind_eq _ _ _ _ _ lone_load).
Qed.

(** [Node_new] under the root refuses every path whose depth is not one
    more than the root's. *)
Lemma lone_Node_new q t :
  length q ≠ length p + 1 →
  Node_new (Some q) (Some r) t w = Ret (NO_SUCH_PATH, None) w.
Proof.
  intros Hq. unfold Node_new, bind. simpl.
  destruct (decide (length q = 0)); [done|].
  rewrite lone_getPath. simpl.
  by destruct (decide (length q ≠ length p + 1)).
Qed.

End LoneRoot.

Lemma lone_Node_free w r p :
  nodes w !! r = Some (root_dir p) →
  Node_free (Some r) w = Ret 1 (set_nodes (delete r) w).
Proof.
  intros Hr. unfold Node_free. simpl. unfold bind.
  rewrite (lone_getType _ _ _ Hr), (lone_getNumChildren _ _ _ Hr). simpl.
  unfold free_node. by rewrite Hr.
Qed.

(** Creating the root: it succeeds with a fresh directory node, or an
    allocation fails and nothing changes. *)
Lemma wp_Node_new_root q (Q : status * Node_T → world → Prop) w :
  length q = 1 →
  (∀ f, (false ∈ f → false ∈ fate w) →
     Q (SUCCESS, Some (brk w))
       (set_brk (S (brk w))
          (set_nodes (insert (brk w) (root_dir q)) (set_fate f w)))) →
  (∀ f, (false ∈ f → false ∈ fate w) → false ∈ fate w →
     Q (MEMORY_ERROR, None) (set_fate f w)) →
  wp (Node_new (Some q) None FT_DIR) Q w.
Proof.
  intros Hq Hok Hfail. unfold Node_new, Path_getDepth, Path_copy.
  wp_cases.
  all: try (apply Hfail; tauto).
  all: try (apply Hok; tauto).
Qed.

Lemma fated_lone_root w w' : fated w w' → lone_root w → lone_root w'.
Proof.
  intros (Hn & Hb & Hi & Hr & _) (?&?&?). unfold lone_root.
  by rewrite Hn, Hb, Hr, Hi.
Qed.

Lemma lone_root_lookup w r :
  lone_root w → oRoot w = Some r →
  ∃ p, length p = 1 ∧ nodes w = {[ r := root_dir p ]} ∧
       nodes w !! r = Some (root_dir p).
Proof.
  intros (_ & _ & H) E. rewrite E in H. destruct H as (p & ? & Hn).
  exists p. repeat split; [done..|]. rewrite Hn. apply lookup_singleton_eq.
Qed.

Section Proofs.

Variable Path_parse : string → option path.

Lemma wp_Path_create s (Q : Path_T → world → Prop) w :
  (∀ o f, (false ∈ f → false ∈ fate w) →
          Path_parse s = o ∨ (o = None ∧ false ∈ fate w) →
          Q o (set_fate f w)) →
  wp (Path_create Path_parse s) Q w.
Proof.
  intros H. unfold Path_create. destruct (Path_parse s) as [p|] eqn:E.
  - wp_cases; apply H; auto.
  - apply wp_ret. rewrite <- (set_fate_same w). apply H; auto.
Qed.

Lemma readonly_Path_create s : readonly (Path_create Path_parse s).
Proof. unfold Path_create. ro. Qed.

Lemma readonly_FT_scan n p js : readonly (FT_scan n p js).
Proof. induction js as [|j js IH]; simpl; ro. Qed.

#[local] Hint Resolve readonly_Path_create readonly_FT_scan : ro.

Lemma readonly_FT_findChild n p : readonly (FT_findChild n p).
Proof. unfold FT_findChild. ro. Qed.

#[local] Hint Resolve readonly_FT_findChild : ro.

Lemma readonly_FT_walk p levels par cur : readonly (FT_walk p levels par cur).
Proof.
  revert par cur. induction levels as [|i levels IH]; intros; simpl; ro.
Qed.

Lemma readonly_FT_descend miss p levels cur :
  readonly (FT_descend miss p levels cur).
Proof. revert cur. induction levels as [|i levels IH]; intros; simpl; ro. Qed.

#[local] Hint Resolve readonly_FT_walk readonly_FT_descend : ro.

(** Under a root without children the walk stops at its first level. *)
Lemma wp_walk_lone w r p tp d par (Q : walked → world → Prop) :
  nodes w !! r = Some (root_dir p) → 1 ≤ d ≤ length tp →
  (∀ a f, (false ∈ f → false ∈ fate w) →
          a = Missing ∨ (a = PrefixFailed ∧ false ∈ fate w) →
          Q a (set_fate f w)) →
  wp (FT_walk (Some tp) (seq 1 d) par (Some r)) Q w.
Proof.
  intros Hr Htp H. destruct d as [|d]; [lia|].
  simpl. apply wp_bind, wp_Path_prefix.
  intros o f Hf [->|[-> [?|?]]]; [|lia|].
  - simpl. apply wp_bind. eapply wp_eq; [by apply (lone_findChild _ r p)|].
    simpl. apply wp_ret, H; auto.
  - simpl. apply wp_ret, H; auto.
Qed.

Lemma wp_descend_lone w r p miss tp d (Q : descent → world → Prop) :
  nodes w !! r = Some (root_dir p) → 1 ≤ d ≤ length tp →
  (∀ a f, (false ∈ f → false ∈ fate w) →
          a = Stopped miss ∨ (a = Stopped MEMORY_ERROR ∧ false ∈ fate w) →
          Q a (set_fate f w)) →
  wp (FT_descend miss (Some tp) (seq 1 d) (Some r)) Q w.
Proof.
  intros Hr Htp H. destruct d as [|d]; [lia|].
  simpl. apply wp_bind, wp_Path_prefix.
  intros o f Hf [->|[-> [?|?]]]; [|lia|].
  - simpl. apply wp_bind. eapply wp_eq; [by apply (lone_findChild _ r p)|].
    simpl. apply wp_ret, H; auto.
  - simpl. apply wp_ret, H; auto.
Qed.

(** Calls with a specification of their own. *)
Ltac wp_call :=
  lazymatch goal with
  | |- wp (Path_create _ _) _ _ => apply wp_Path_create; intros ? ? ? ?
  | |- wp (Path_prefix (Some _) _) _ _ =>
      apply wp_Path_prefix; intros ? ? ? [->|[-> ?]]
  | Hr : nodes _ !! ?r = Some (root_dir ?p)
    |- wp (FT_walk (Some _) (seq 1 _) _ (Some ?r)) _ ?W =>
      eapply (wp_walk_lone W r p);
      [exact Hr | simpl in *; lia | intros ? ? ? [->|[-> ?]]]
  | Hr : nodes _ !! ?r = Some (root_dir ?p)
    |- wp (FT_descend _ (Some _) (seq 1 _) (Some ?r)) _ ?W =>
      eapply (wp_descend_lone W r p);
      [exact Hr | simpl in *; lia | intros ? ? ? [->|[-> ?]]]
  | Hr : nodes _ !! ?r = Some (root_dir ?p)
    |- wp (FT_findChild (Some ?r) ?q) _ ?W =>
      eapply wp_eq; [exact (lone_findChild W r p Hr q) |]
  | Hr : nodes _ !! ?r = Some (root_dir ?p)
    |- wp (Node_getPath (Some ?r)) _ ?W =>
      eapply wp_eq; [exact (lone_getPath W r p Hr) |]
  | Hr : nodes _ !! ?r = Some (root_dir ?p)
    |- wp (Node_getType (Some ?r)) _ ?W =>
      eapply wp_eq; [exact (lone_getType W r p Hr) |]
  | Hr : nodes _ !! ?r = Some (root_dir ?p)
    |- wp (Node_free (Some ?r)) _ ?W =>
      eapply wp_eq; [exact (lone_Node_free W r p Hr) |]
  end.
Ltac wp_run := repeat (first [wp_step | wp_call]; wp_norm).

(** The case analysis of a lone root: the tree is empty, or it has its one
    directory. *)
Ltac lone_cases Hl r p Hp Hr Er :=
  let Hn := fresh "Hn" in
  match type of Hl with
  | lone_root ?w =>
      destruct (oRoot w) as [r|] eqn:Er;
      [ destruct (lone_root_lookup _ _ Hl Er) as (p & Hp & Hn & Hr) |]
  end.

(** Leaves whose status contradicts what is known of the call. *)
Ltac split_hyps :=
  repeat match goal with
         | H : _ ∨ _ |- _ => destruct H
         | H : _ ∧ _ |- _ => destruct H
         | H : ∃ _, _ |- _ => destruct H
         end.
Ltac wp_absurd :=
  intros; exfalso; split_hyps; simplify_eq/=;
  first [ tauto | lia | congruence ].

Lemma sharedPrefixDepth_refl p : sharedPrefixDepth p p = length p.
Proof. induction p as [|a p IH]; simpl; [done|]. case_decide; [lia|done]. Qed.

Lemma isPrefix_refl p : isPrefix p p = true.
Proof. unfold isPrefix. rewrite sharedPrefixDepth_refl. by apply bool_decide_eq_true. Qed.

Lemma lone_root_planted w f q :
  lone_root w → oRoot w = None → bIsInitialized w = true → length q = 1 →
  lone_root
    (set_oRoot (Some (brk w))
       (set_brk (S (brk w))
          (set_nodes (insert (brk w) (root_dir q)) (set_fate f w)))).
Proof.
  intros (Hb & Hi & Hn) Er Ei Hq. rewrite Er in Hn.
  unfold lone_root. simpl. rewrite Hn, Ei. repeat split; [done..|].
  exists q. split; [done|]. apply insert_empty.
Qed.

Lemma lone_root_planted_fate w f f' q :
  lone_root w → oRoot w = None → bIsInitialized w = true → length q = 1 →
  lone_root
    (set_fate f'
       (set_oRoot (Some (brk w))
          (set_brk (S (brk w))
             (set_nodes (insert (brk w) (root_dir q)) (set_fate f w))))).
Proof.
  intros. by apply (lone_root_planted w f q).
Qed.

Ltac lone_tac :=
  lazymatch goal with
  | Hl : lone_root ?w
    |- lone_root (set_fate _ (set_oRoot _ (set_brk _ (set_nodes _ _)))) =>
      apply lone_root_planted_fate;
      first [done | rewrite ?length_take; lia]
  | Hl : lone_root ?w |- lone_root (set_fate _ ?w) =>
      apply (fated_lone_root w); [fated_tac | exact Hl]
  | Hl : lone_root ?w |- lone_root ?w => exact Hl
  | Hl : lone_root ?w |- lone_root (set_oRoot _ (set_brk _ (set_nodes _ _))) =>
      apply lone_root_planted;
      first [done | rewrite ?length_take; lia]
  end.

(** Closing the leaves of a symbolic execution. *)
Ltac wp_leaf :=
  repeat case_decide; simplify_eq/=;
  repeat match goal with
         | |- _ ∧ _ => split
         | |- fated _ _ => fated_tac
         | |- _ → fated _ _ => intros _; fated_tac
         | |- lone_root _ => lone_tac
         end;
  try done.

(** What is left are facts about the status. *)
Ltac wp_facts :=
  intros; split_hyps; simplify_eq/=; repeat split; intros; simplify_eq/=;
  try done; try lia; try congruence; try (exfalso; tauto).

(** ** The lookups on a lone root *)

Lemma FT_containsDir_lone s w :
  lone_root w →
  wp (FT_containsDir Path_parse s) (λ b w', b = false ∧ fated w w') w.
Proof.
  intros Hl. unfold FT_containsDir. lone_cases Hl r p Hp Hr Er.
  all: wp_run; wp_leaf.
Qed.

Lemma FT_containsFile_lone s w :
  lone_root w →
  wp (FT_containsFile Path_parse s) (λ b w', b = false ∧ fated w w') w.
Proof.
  intros Hl. unfold FT_containsFile. lone_cases Hl r p Hp Hr Er.
  all: wp_run; wp_leaf.
Qed.

Lemma FT_getFileContents_lone s w :
  lone_root w →
  wp (FT_getFileContents Path_parse s) (λ c w', c = None ∧ fated w w') w.
Proof.
  intros Hl. unfold FT_getFileContents. lone_cases Hl r p Hp Hr Er.
  all: wp_run; wp_leaf.
Qed.

Lemma FT_replaceFileContents_lone s c n w :
  lone_root w →
  wp (FT_replaceFileContents Path_parse s c n)
     (λ c w', c = None ∧ fated w w') w.
Proof.
  intros Hl. unfold FT_replaceFileContents. lone_cases Hl r p Hp Hr Er.
  all: wp_run; wp_leaf.
Qed.

Lemma FT_rmFile_lone s w :
  lone_root w →
  wp (FT_rmFile Path_parse s) (λ st w', st ≠ SUCCESS ∧ fated w w') w.
Proof.
  intros Hl. unfold FT_rmFile. lone_cases Hl r p Hp Hr Er.
  all: wp_run; wp_leaf.
Qed.

Lemma FT_stat_lone s pb pz w :
  lone_root w →
  wp (FT_stat Path_parse s pb pz)
     (λ sr w',
        stat_status sr ≠ SUCCESS ∧ stat_isFile sr = pb ∧ stat_size sr = pz ∧
        fated w w' ∧
        (false ∉ fate w → bIsInitialized w = true →
         ∀ tp r p, Path_parse s = Some tp → 1 ≤ length tp →
                   oRoot w = Some r → nodes w !! r = Some (root_dir p) →
                   isPrefix p tp = true →
                   stat_status sr = NO_SUCH_PATH)) w.
Proof.
  intros Hl. unfold FT_stat. lone_cases Hl r p Hp Hr Er.
  all: wp_run; wp_leaf.
  all: try wp_absurd.
Qed.

(** ** The mutators on a lone root *)

Lemma FT_insertDir_lone s w :
  lone_root w →
  wp (FT_insertDir Path_parse s)
     (λ st w',
        lone_root w' ∧ bIsInitialized w' = bIsInitialized w ∧
        st ≠ ALREADY_IN_TREE ∧
        (st ≠ SUCCESS → fated w w') ∧
        (st = SUCCESS →
         bIsInitialized w = true ∧ oRoot w = None ∧
         ∃ p, Path_parse s = Some p ∧ length p = 1 ∧
              oRoot w' = Some (brk w) ∧
              nodes w' !! brk w = Some (root_dir p)) ∧
        (false ∉ fate w → bIsInitialized w = true →
         ∀ p, Path_parse s = Some p → 1 ≤ length p →
              (oRoot w ≠ None → st = NO_SUCH_PATH) ∧
              (oRoot w = None → length p = 1 → st = SUCCESS) ∧
              (oRoot w = None → 2 ≤ length p → st = CONFLICTING_PATH))) w.
Proof.
  intros Hl. unfold FT_insertDir. lone_cases Hl r p Hp Hr Er.
  all: wp_run.
  all: try match goal with
           | |- wp (FT_descend _ (Some ?q) _ _) _ _ =>
               destruct (decide (length q = 1)) as [E1|E1];
               [ rewrite E1; simpl | ]; wp_run
           end.
  all: try match goal with
           | Hr : nodes _ !! ?r = Some (root_dir ?p)
             |- wp (Node_new (Some ?q) (Some ?r) ?t) _ ?W =>
               eapply wp_eq;
               [ apply (lone_Node_new W r p Hr q t); lia |]; wp_run
           | |- wp (Node_new (Some ?q) None FT_DIR) _ _ =>
               apply wp_Node_new_root; [lia | intros ? ? | intros ? ? ?];
               wp_run
           end.
  all: wp_leaf.
  all: try wp_facts.
  eexists. repeat split; [done | lia | apply lookup_insert_eq].
Qed.

Lemma FT_insertFile_lone s c n w :
  lone_root w →
  wp (FT_insertFile Path_parse s c n)
     (λ st w',
        lone_root w' ∧ bIsInitialized w' = bIsInitialized w ∧
        st ≠ SUCCESS ∧ st ≠ ALREADY_IN_TREE ∧
        (oRoot w ≠ None → fated w w') ∧
        (st = NO_SUCH_PATH → ∀ p, Path_parse s = Some p → length p = 1) ∧
        (false ∉ fate w → bIsInitialized w = true →
         ∀ p, Path_parse s = Some p →
              (2 ≤ length p → st = CONFLICTING_PATH ∧
                 (oRoot w = None →
                  oRoot w' = Some (brk w) ∧
                  nodes w' !! brk w = Some (root_dir (take 1 p)))) ∧
              (length p = 1 → oRoot w ≠ None → st = NO_SUCH_PATH))) w.
Proof.
  intros Hl. unfold FT_insertFile. lone_cases Hl r p Hp Hr Er.
  all: wp_run.
  all: try match goal with
           | H : ¬ (None = None ∧ ?P) |- _ =>
               assert (¬ P) by (intros ?; apply H; done)
           end.
  all: try match goal with
           | |- wp (Node_new (Some (take 1 ?q)) None FT_DIR) _ ?W =>
               apply wp_Node_new_root;
               [ rewrite length_take; lia
               | intros ? ?;
                 assert (nodes (set_nodes (insert (brk W) (root_dir (take 1 q))) W)
                           !! brk W = Some (root_dir (take 1 q)))
                   by apply lookup_insert_eq
               | intros ? ? ?];
               wp_run
           end.
  all: try match goal with
           | |- wp (FT_descend _ (Some ?q) _ _) _ _ =>
               destruct (decide (length q = 1)) as [E1|E1];
               [ rewrite E1; simpl | ]; wp_run
           end.
  all: try match goal with
           | Hr : nodes _ !! ?r = Some (root_dir ?p)
             |- wp (Node_new (Some ?q) (Some ?r) ?t) _ ?W =>
               eapply wp_eq;
               [ apply (lone_Node_new W r p Hr q t); lia |]; wp_run
           end.
  all: wp_leaf.
  all: try wp_facts.
Qed.

Lemma lone_root_felled w r f :
  lone_root w → oRoot w = Some r →
  lone_root (set_oRoot None (set_nodes (delete r) (set_fate f w))).
Proof.
  intros Hl Er. destruct (lone_root_lookup _ _ Hl Er) as (p & Hp & Hn & Hr).
  destruct Hl as (Hb & _ & _). unfold lone_root. simpl.
  rewrite Hn, delete_singleton_eq. done.
Qed.

Lemma lone_root_switch w b :
  lone_root w → oRoot w = None → lone_root (set_bIsInitialized b w).
Proof.
  intros (Hb & _ & Hn) Er. unfold lone_root. simpl. by rewrite Er in *.
Qed.

Lemma FT_rmDir_lone s w :
  lone_root w →
  wp (FT_rmDir Path_parse s)
     (λ st w',
        lone_root w' ∧ bIsInitialized w' = bIsInitialized w ∧
        (st ≠ SUCCESS → fated w w') ∧
        (st = SUCCESS → oRoot w' = None)) w.
Proof.
  intros Hl. unfold FT_rmDir. lone_cases Hl r p Hp Hr Er.
  all: wp_run; wp_leaf.
  by apply lone_root_felled.
Qed.

Lemma FT_destroy_lone w :
  lone_root w → wp FT_destroy (λ st w', lone_root w') w.
Proof.
  intros Hl. unfold FT_destroy. lone_cases Hl r p Hp Hr Er.
  all: wp_run; wp_leaf.
  - apply lone_root_switch; [|done].
    rewrite <- (set_fate_same w). by apply lone_root_felled.
  - by apply lone_root_switch.
Qed.

Lemma FT_init_lone w : lone_root w → wp FT_init (λ st w', lone_root w') w.
Proof.
  intros Hl. unfold FT_init. wp_run; wp_leaf.
  destruct Hl as (Hb & Hi & Hn). rewrite (Hi Heqb) in Hn.
  by repeat split.
Qed.

(** ** [FT_toString] only reads the tree *)

Lemma readonly_fuel {A} (f : nat → M A) (g : world → nat) :
  (∀ n, readonly (f n)) → readonly (λ w, f (g w) w).
Proof. intros H w a w' E. by eapply H. Qed.

Lemma readonly_for_each {A S} (body : S → A → M S) l s :
  (∀ s a, readonly (body s a)) → readonly (for_each body l s).
Proof.
  intros H. revert s. induction l as [|a l IH]; intros s; simpl; ro.
Qed.

Lemma readonly_insert_sorted x l : readonly (insert_sorted x l).
Proof. induction l as [|y l IH]; simpl; ro. Qed.

#[local] Hint Resolve readonly_insert_sorted : ro.

Lemma readonly_qsort l : readonly (qsort l).
Proof. induction l as [|x l IH]; simpl; ro. Qed.

#[local] Hint Resolve readonly_qsort : ro.

Lemma readonly_visit_all visit cs oLines :
  (∀ c l, readonly (visit c l)) → readonly (visit_all visit cs oLines).
Proof.
  intros H. revert oLines. induction cs as [|c cs IH]; intros; simpl; ro.
Qed.

Lemma readonly_FT_traverseToString_rec fuel n oLines :
  readonly (FT_traverseToString_rec fuel n oLines).
Proof.
  revert n oLines. induction fuel as [|fuel IH]; intros n oLines; simpl.
  - intros w a w'. discriminate.
  - ro.
    + apply readonly_for_each. intros [fs ds] i. ro.
    + by apply readonly_visit_all.
    + by apply readonly_visit_all.
Qed.

Lemma readonly_FT_toString : readonly FT_toString.
Proof.
  unfold FT_toString. ro.
  apply (readonly_fuel (λ n, FT_traverseToString_rec n _ _)).
  intros n. apply readonly_FT_traverseToString_rec.
Qed.

Lemma readonly_FT_containsDir s : readonly (FT_containsDir Path_parse s).
Proof. unfold FT_containsDir. ro. Qed.

Lemma readonly_FT_containsFile s : readonly (FT_containsFile Path_parse s).
Proof. unfold FT_containsFile. ro. Qed.

Lemma readonly_FT_getFileContents s :
  readonly (FT_getFileContents Path_parse s).
Proof. unfold FT_getFileContents. ro. Qed.

Lemma readonly_FT_stat s pb pz : readonly (FT_stat Path_parse s pb pz).
Proof. unfold FT_stat. ro. Qed.

(** ** Every reachable store is a lone root *)

Lemma wp_returned {A} (m : M A) (Q : A → world → Prop) w a w' :
  wp m Q w → m w = Ret a w' → Q a w'.
Proof. unfold wp. intros H E. by rewrite E in H. Qed.

Lemma lone_root_set_fate w f : lone_root w → lone_root (set_fate f w).
Proof. done. Qed.

Lemma perform_lone_root c w w' :
  lone_root w → perform Path_parse c w = Ret () w' → lone_root w'.
Proof.
  intros Hl E. destruct c; simpl in E;
    apply bind_inv in E as (a & w1 & E & [= <-]).
  - by apply (wp_returned _ _ _ _ _ (FT_init_lone w Hl)) in E.
  - by apply (wp_returned _ _ _ _ _ (FT_destroy_lone w Hl)) in E.
  - by apply (wp_returned _ _ _ _ _ (FT_insertDir_lone _ w Hl)) in E as [? _].
  - by apply (wp_returned _ _ _ _ _ (FT_insertFile_lone _ _ _ w Hl)) in E
      as [? _].
  - apply readonly_FT_containsDir in E. by eapply fated_lone_root.
  - apply readonly_FT_containsFile in E. by eapply fated_lone_root.
  - by apply (wp_returned _ _ _ _ _ (FT_rmDir_lone _ w Hl)) in E as [? _].
  - apply (wp_returned _ _ _ _ _ (FT_rmFile_lone _ w Hl)) in E as [_ ?].
    by eapply fated_lone_root.
  - apply readonly_FT_getFileContents in E. by eapply fated_lone_root.
  - apply (wp_returned _ _ _ _ _ (FT_replaceFileContents_lone _ _ _ w Hl))
      in E as [_ ?].
    by eapply fated_lone_root.
  - apply readonly_FT_stat in E. by eapply fated_lone_root.
  - apply readonly_FT_toString in E. by eapply fated_lone_root.
Qed.

Lemma reachable_lone_root w : reachable Path_parse w → lone_root w.
Proof.
  induction 1 as [b f | w c w' _ IH E | w f _ IH].
  - by repeat split.
  - by eapply perform_lone_root.
  - by apply lone_root_set_fate.
Qed.

(** ** Insertion and lookup in reachable stores *)

(** What a successful [FT_insertDir] leaves: the tree was empty, and it is
    now the lone directory the path names. *)
Lemma FT_insertDir_success s w w1 :
  lone_root w → FT_insertDir Path_parse s w = Ret SUCCESS w1 →
  lone_root w1 ∧ bIsInitialized w1 = true ∧ oRoot w = None ∧
  ∃ p, Path_parse s = Some p ∧ length p = 1 ∧ oRoot w1 = Some (brk w) ∧
       nodes w1 !! brk w = Some (root_dir p).
Proof.
  intros Hl E.
  apply (wp_returned _ _ _ _ _ (FT_insertDir_lone s w Hl)) in E
    as (Hl1 & Hi & _ & _ & Hs & _).
  destruct (Hs eq_refl) as (Hi' & Er & p & ?).
  split; [done|]. split; [congruence|]. split; [done|]. by exists p.
Qed.

(** C1 (code bug).  After a successful [FT_insertDir(P)] the lookup
    [FT_containsDir(P)] does not return TRUE, as the claim has it: in every
    reachable store it returns FALSE, because the walk looks for the first
    prefix of [P] among the children of the root and never at the root
    itself.  ([FT_insertFile] never succeeds, so the claim's second half
    has no instance.) *)
Theorem containsDir_false_after_insertDir s w w1 :
  reachable Path_parse w →
  FT_insertDir Path_parse s w = Ret SUCCESS w1 →
  ∃ w2, FT_containsDir Path_parse s w1 = Ret false w2 ∧ fated w1 w2.
Proof.
  intros Hw E. apply reachable_lone_root in Hw.
  destruct (FT_insertDir_success _ _ _ Hw E) as (Hl1 & _).
  destruct (wp_inv _ _ _ (FT_containsDir_lone s w1 Hl1))
    as (b & w2 & E2 & -> & Hf).
  eauto.
Qed.

(** C2 (code bug).  For a file path of depth at least 2 whose intermediate
    directory is missing, [FT_insertFile] does not return [NO_SUCH_PATH], as
    the claim has it and as [FT_insertDir] does in the same situation: in
    every reachable initialised store it returns [CONFLICTING_PATH] (another
    status only when an allocation fails). *)
Theorem insertFile_missing_dir_conflicting_path s c n w p :
  reachable Path_parse w → bIsInitialized w = true →
  Path_parse s = Some p → 2 ≤ length p →
  ∃ st w', FT_insertFile Path_parse s c n w = Ret st w' ∧
           st ≠ NO_SUCH_PATH ∧
           (false ∉ fate w → st = CONFLICTING_PATH).
Proof.
  intros Hw Hi Hp Hlen. apply reachable_lone_root in Hw.
  destruct (wp_inv _ _ _ (FT_insertFile_lone s c n w Hw))
    as (st & w' & E & _ & _ & _ & _ & _ & Hno & Hcalm).
  exists st, w'. repeat split; [done| |].
  - intros ->. specialize (Hno eq_refl p Hp). lia.
  - intros Hc. by destruct (Hcalm Hc Hi p Hp) as [[-> _] _].
Qed.

(** C3 (code bug).  Once [FT_insertDir(P)] has succeeded, inserting [P]
    again, as a directory or as a file, does not return [ALREADY_IN_TREE],
    as the claim has it, but [NO_SUCH_PATH] (the tree is left as it is):
    the duplicate is looked for among the children of the root, and
    [Node_new] then refuses a child as shallow as the root. *)
Theorem second_insert_no_such_path s c n w w1 :
  reachable Path_parse w →
  FT_insertDir Path_parse s w = Ret SUCCESS w1 →
  false ∉ fate w1 →
  (∃ w2, FT_insertDir Path_parse s w1 = Ret NO_SUCH_PATH w2 ∧ fated w1 w2) ∧
  (∃ w2, FT_insertFile Path_parse s c n w1 = Ret NO_SUCH_PATH w2 ∧
         fated w1 w2).
Proof.
  intros Hw E Hc. apply reachable_lone_root in Hw.
  destruct (FT_insertDir_success _ _ _ Hw E)
    as (Hl1 & Hi1 & _ & p & Hp & Hlen & Hr1 & _).
  assert (oRoot w1 ≠ None) as Hne by congruence.
  split.
  - destruct (wp_inv _ _ _ (FT_insertDir_lone s w1 Hl1))
      as (st & w2 & E2 & _ & _ & _ & Hf & _ & Hcalm).
    destruct (Hcalm Hc Hi1 p Hp) as (Hst & _); [lia|].
    rewrite (Hst Hne) in *. exists w2. split; [done|]. by apply Hf.
  - destruct (wp_inv _ _ _ (FT_insertFile_lone s c n w1 Hl1))
      as (st & w2 & E2 & _ & _ & _ & _ & Hf & _ & Hcalm).
    destruct (Hcalm Hc Hi1 p Hp) as (_ & Hst).
    rewrite (Hst Hlen Hne) in *. exists w2. split; [done|]. by apply Hf.
Qed.

(** C4 (code bug).  A failing [FT_insertFile] does not leave the nodes
    reachable from the root as they were, as the claim has it: on an empty
    initialised tree, for a path of depth at least 2, it returns
    [CONFLICTING_PATH] and yet the root directory it created for the file
    is now the root of the tree. *)
Theorem insertFile_failure_keeps_new_root s c n w p :
  reachable Path_parse w → bIsInitialized w = true → oRoot w = None →
  Path_parse s = Some p → 2 ≤ length p → false ∉ fate w →
  ∃ w', FT_insertFile Path_parse s c n w = Ret CONFLICTING_PATH w' ∧
        nodes w = ∅ ∧ oRoot w' = Some (brk w) ∧
        nodes w' !! brk w = Some (root_dir (take 1 p)).
Proof.
  intros Hw Hi Er Hp Hlen Hc. apply reachable_lone_root in Hw.
  destruct (wp_inv _ _ _ (FT_insertFile_lone s c n w Hw))
    as (st & w' & E & _ & _ & _ & _ & _ & _ & Hcalm).
  destruct (Hcalm Hc Hi p Hp) as [Hst _].
  destruct (Hst Hlen) as [-> Hroot]. destruct (Hroot Er) as [??].
  exists w'. repeat split; try done.
  destruct Hw as (_ & _ & Hn). by rewrite Er in Hn.
Qed.

(** C7 (code bug).  After a successful [FT_insertDir(P)], [FT_stat(P)] does
    not report a directory, as the claim has it: it returns [NO_SUCH_PATH]
    and leaves both output cells as they were. *)
Theorem stat_after_insertDir_no_such_path s pb pz w w1 :
  reachable Path_parse w →
  FT_insertDir Path_parse s w = Ret SUCCESS w1 →
  false ∉ fate w1 →
  ∃ w2, FT_stat Path_parse s pb pz w1
        = Ret (StatResult NO_SUCH_PATH pb pz) w2.
Proof.
  intros Hw E Hc. apply reachable_lone_root in Hw.
  destruct (FT_insertDir_success _ _ _ Hw E)
    as (Hl1 & Hi1 & _ & p & Hp & Hlen & Hr1 & Hn1).
  destruct (wp_inv _ _ _ (FT_stat_lone s pb pz w1 Hl1))
    as ([st b z] & w2 & E2 & _ & Hb & Hz & _ & Hcalm).
  simpl in *. subst b z.
  rewrite (Hcalm Hc Hi1 p (brk w) p Hp) in E2; eauto using isPrefix_refl.
  lia.
Qed.

End Proofs.

(** ** The checker *)

Lemma stateless_ret {A} (a : A) : stateless (ret a).
Proof. by intros w a' w' [= <- <-]. Qed.

Lemma stateless_crash {A} : stateless (@crash A).
Proof. intros w a w'. discriminate. Qed.

Lemma stateless_bind {A B} (m : M A) (k : A → M B) :
  stateless m → (∀ a, stateless (k a)) → stateless (bind m k).
Proof.
  intros Hm Hk w b w'' (a & w' & E1 & E2)%bind_inv.
  apply Hm in E1 as ->. by apply Hk in E2.
Qed.

Lemma stateless_nonnull {A} (o : option A) : stateless (nonnull o).
Proof. destruct o; [apply stateless_ret | apply stateless_crash]. Qed.

Lemma stateless_load n : stateless (load n).
Proof.
  intros w a w'. unfold load. destruct n as [l|]; [|discriminate].
  destruct (nodes w !! l); [|discriminate]. by intros [= <- <-].
Qed.

#[local] Hint Resolve stateless_ret stateless_crash stateless_nonnull
  stateless_load : stateless.

Ltac stateless_step :=
  match goal with
  | |- stateless (bind _ _) => apply stateless_bind; [| intros ?]
  | |- stateless (if ?b then _ else _) => destruct b
  | |- stateless (match ?x with _ => _ end) => destruct x
  | |- stateless (let '(_, _) := ?x in _) => destruct x
  | |- stateless _ => solve [auto with stateless]
  end.
Ltac stateless_tac := repeat stateless_step.

Lemma stateless_Path_getDepth p : stateless (Path_getDepth p).
Proof. unfold Path_getDepth. stateless_tac. Qed.

Lemma stateless_Path_comparePath p q : stateless (Path_comparePath p q).
Proof. unfold Path_comparePath. stateless_tac. Qed.

Lemma stateless_Path_getSharedPrefixDepth p q :
  stateless (Path_getSharedPrefixDepth p q).
Proof. unfold Path_getSharedPrefixDepth. stateless_tac. Qed.

Lemma stateless_Node_getPath n : stateless (Node_getPath n).
Proof. unfold Node_getPath. stateless_tac. Qed.

Lemma stateless_Node_getParent n : stateless (Node_getParent n).
Proof. unfold Node_getParent. stateless_tac. Qed.

Lemma stateless_Node_getNumChildren n : stateless (Node_getNumChildren n).
Proof. unfold Node_getNumChildren. stateless_tac. Qed.

Lemma stateless_Node_getChild n i : stateless (Node_getChild n i).
Proof. unfold Node_getChild. stateless_tac. Qed.

#[local] Hint Resolve stateless_Path_getDepth stateless_Path_comparePath
  stateless_Path_getSharedPrefixDepth stateless_Node_getPath
  stateless_Node_getParent stateless_Node_getNumChildren
  stateless_Node_getChild : stateless.

Lemma stateless_children_loop n js : stateless (CheckerDT_children_loop n js).
Proof. induction js as [|j js IH]; simpl; stateless_tac. Qed.

Lemma stateless_duplicate_inner n c js :
  stateless (CheckerDT_duplicate_inner n c js).
Proof. induction js as [|j js IH]; simpl; stateless_tac. Qed.

#[local] Hint Resolve stateless_children_loop stateless_duplicate_inner
  : stateless.

Lemma stateless_duplicate_loop n k js :
  stateless (CheckerDT_duplicate_loop n k js).
Proof. induction js as [|j js IH]; simpl; stateless_tac. Qed.

Lemma stateless_order_loop fuel n i bound :
  stateless (CheckerDT_order_loop fuel n i bound).
Proof.
  revert i. induction fuel as [|fuel IH]; intros i; simpl.
  - intros w a w'. discriminate.
  - stateless_tac.
Qed.

#[local] Hint Resolve stateless_duplicate_loop stateless_order_loop
  : stateless.

Lemma stateless_CheckerDT_Node_isValid n : stateless (CheckerDT_Node_isValid n).
Proof. unfold CheckerDT_Node_isValid. stateless_tac. Qed.

(** A node without children fails the ordering loop: its bound
    [ulNumChildren - 1] wraps around to [SIZE_MAX], and the child at index
    0 cannot be fetched. *)
Lemma order_loop_leaf n w fuel :
  Node_getNumChildren n w = Ret 0 w →
  CheckerDT_order_loop (S fuel) n 0 (size_sub (Z.of_nat 0) 1) w = Ret false w.
Proof.
  intros E. simpl. unfold bind.
  assert (Node_getChild n (Z.to_nat 0) w = Ret (NO_SUCH_PATH, None) w) as ->.
  { unfold Node_getNumChildren, Node_getChild, bind in *.
    destruct (load n w) as [nd w1| |] eqn:El; [|done..].
    apply stateless_load in El as Hw. subst w1.
    destruct (decide (eType nd = FT_DIR)); [|done].
    destruct (oChildren nd) as [arr|]; [|done]. simpl in *.
    injection E as E. by destruct arr. }
  reflexivity.
Qed.

(** [CheckerDT_Node_isValid] accepts no node without children. *)
Lemma CheckerDT_Node_isValid_has_child n w w' k :
  CheckerDT_Node_isValid n w = Ret true w' →
  Node_getNumChildren n w = Ret k w → k ≠ 0.
Proof.
  intros E Ek ->. unfold CheckerDT_Node_isValid in E.
  destruct (decide (n = None)); [done|].
  apply bind_inv in E as (oPNPath & w1 & E1 & E).
  apply stateless_Node_getPath in E1 as Hw. subst w1.
  destruct (decide (oPNPath = None)); [done|].
  apply bind_inv in E as (oNParent & w1 & E2 & E).
  apply stateless_Node_getParent in E2 as Hw. subst w1.
  apply bind_inv in E as (parentOk & w1 & E3 & E).
  assert (w1 = w) as ->.
  { match type of E3 with
    | ?m _ = Ret _ _ => assert (stateless m) as Hs by stateless_tac
    end.
    by apply Hs in E3. }
  destruct parentOk; [|done].
  cbn [negb] in E. rewrite (bind_eq _ _ _ _ _ Ek) in E.
  cbn [seq CheckerDT_children_loop CheckerDT_duplicate_loop bind ret negb]
    in E.
  rewrite (order_loop_leaf n w 0 Ek) in E. done.
Qed.

(** The traversal never accepts a tree: it would have to accept a leaf. *)
Lemma CheckerDT_treeCheck_rec_rejects fuel l c w c' w' :
  CheckerDT_treeCheck_rec fuel (Some l) c w ≠ Ret (true, c') w'.
Proof.
  revert l c w c' w'. induction fuel as [|fuel IH]; intros l c w c' w' E.
  { done. }
  simpl in E. destruct (decide (Some l ≠ None)) as [_|[]]; [|done].
  apply bind_inv in E as (valid & w1 & E1 & E).
  apply stateless_CheckerDT_Node_isValid in E1 as Hw. subst w1.
  destruct valid; [simpl in E|done].
  apply bind_inv in E as (k & w1 & E2 & E).
  apply stateless_Node_getNumChildren in E2 as Hw. subst w1.
  pose proof (CheckerDT_Node_isValid_has_child _ _ _ _ E1 E2) as Hk.
  destruct k as [|k]; [done|]. simpl in E.
  apply bind_inv in E as ([st oNChild] & w1 & E3 & E).
  destruct (decide (st ≠ SUCCESS ∨ oNChild = None)) as [|Hok]; [done|].
  destruct oNChild as [l'|]; [|by destruct Hok; right].
  apply bind_inv in E as ([ok c1] & w2 & E4 & E).
  destruct ok; [|done]. by apply IH in E4.
Qed.

(** An initialised tree with a root is never accepted, whatever the tree
    and the count. *)
Lemma CheckerDT_isValid_rejects_root w l ulCount :
  returned (CheckerDT_isValid true (Some l) ulCount w) ≠ Some true.
Proof.
  unfold CheckerDT_isValid. cbn [negb].
  case_decide; [by cbn|]. case_decide; [by cbn|].
  unfold bind.
  destruct (CheckerDT_treeCheck (Some l) 0 w) as [[ok c] w'| |] eqn:E;
    [|by cbn..].
  destruct ok; [|by cbn].
  unfold CheckerDT_treeCheck in E.
  by apply CheckerDT_treeCheck_rec_rejects in E.
Qed.

Lemma CheckerDT_treeCheck_NULL c w :
  CheckerDT_treeCheck None c w = Ret (true, c) w.
Proof.
  unfold CheckerDT_treeCheck. reflexivity.
Qed.

(** C9 (code bug).  [CheckerDT_isValid] does not return TRUE exactly for
    the trees the claim describes: it returns TRUE exactly for the empty
    tree with count 0, and never for a tree with a root, whatever the tree
    and the count.  Every tree has a node without children, and for such a
    node the loop [for (i = 0; i < ulNumChildren - 1; i++)] of
    [CheckerDT_Node_isValid] runs with the bound wrapped around to
    [SIZE_MAX] and fails to fetch the child at index 0. *)
Theorem CheckerDT_isValid_accepts_only_empty b r c w :
  returned (CheckerDT_isValid b r c w) = Some true ↔ r = None ∧ c = 0%Z.
Proof.
  split.
  - destruct r as [l|].
    + destruct b; [by intros ?%CheckerDT_isValid_rejects_root|].
      unfold CheckerDT_isValid. cbn [negb]. repeat case_decide; by cbn.
    + intros H. split; [done|]. revert H.
      unfold CheckerDT_isValid. destruct b; cbn [negb].
      * case_decide; [by cbn|]. case_decide; [by cbn|].
        rewrite (bind_eq _ _ _ _ _ (CheckerDT_treeCheck_NULL 0 w)).
        cbn [negb]. case_decide; [by cbn|]. lia.
      * case_decide; [by cbn|]. intros _.
        by destruct (decide (c = 0%Z)).
  - intros [-> ->]. destruct b; [|done].
    unfold CheckerDT_isValid. cbn [negb].
    case_decide; [by destruct H|]. case_decide; [lia|].
    by rewrite (bind_eq _ _ _ _ _ (CheckerDT_treeCheck_NULL 0 w)).
Qed.

(** ** File contents *)

(** Unfolding a call that returned, one step at a time. *)
Ltac inv_step E :=
  lazymatch type of E with
  | bind _ _ _ = Ret _ _ =>
      let a := fresh "a" in
      let w := fresh "w" in
      let E1 := fresh "E" in
      apply bind_inv in E as (a & w & E1 & E)
  | ret _ _ = Ret _ _ => unfold ret in E; simplify_eq
  | crash _ = Ret _ _ => discriminate E
  | (if ?b then _ else _) _ = Ret _ _ => destruct b eqn:?
  | (match ?x with _ => _ end) _ = Ret _ _ => destruct x eqn:?
  | (let '(_, _) := ?x in _) _ = Ret _ _ => destruct x eqn:?
  end.

Lemma c_string_NUL : c_string [NUL] = Some [].
Proof. done. Qed.

Lemma Node_new_file_contents p par w r w' :
  Node_new p par FT_FILE w = Ret (SUCCESS, r) w' → holds_empty_string w' r.
Proof.
  intros E. unfold Node_new in E.
  repeat inv_step E.
  { exfalso. repeat inv_step E1; repeat case_decide; split_bools; simplify_eq. }
  unfold new_buf in *. unfold new_node in *. simplify_eq.
  eexists _, _, _. split; [done|]. simpl.
  rewrite lookup_insert_eq. split; [done|]. split; [done|]. split; [done|].
  unfold string_at. simpl. by rewrite lookup_insert_eq.
Qed.

Lemma malloc_ok_store w b w' :
  malloc_ok w = Ret b w' →
  nodes w' = nodes w ∧ bufs w' = bufs w ∧ brk w' = brk w.
Proof. intros (? & ? & _ & _ & ? & _)%readonly_malloc_ok. done. Qed.

Lemma stateless_read_buf p : stateless (read_buf p).
Proof.
  intros w a w'. unfold read_buf. destruct p as [l|]; [|discriminate].
  destruct (bufs w !! l); [|discriminate]. by intros [= <- <-].
Qed.

#[local] Hint Resolve stateless_read_buf : stateless.

Lemma stateless_read_string p : stateless (read_string p).
Proof. unfold read_string. stateless_tac. Qed.

Lemma load_inv n w nd w' :
  load n w = Ret nd w' → ∃ l, n = Some l ∧ nodes w !! l = Some nd ∧ w' = w.
Proof.
  unfold load. destruct n as [l|]; [|done].
  destruct (nodes w !! l) eqn:E; [|done]. intros [= <- <-]. eauto.
Qed.

Lemma read_string_inv c w s w' :
  read_string c w = Ret s w' → string_at w c = Some s ∧ w' = w.
Proof.
  intros E. pose proof (stateless_read_string _ _ _ _ E) as ->.
  split; [|done]. unfold read_string in E. inv_step E.
  unfold read_buf in E0. destruct c as [l|]; [|done].
  unfold string_at. simpl. destruct (bufs w !! l) as [bs|]; [|done].
  simplify_eq. simpl. destruct (c_string a); [|done]. by inv_step E.
Qed.

(** What a successful [Node_setContents] does to the store: the node has a
    fresh buffer holding the characters of its argument up to the first
    NUL, and the buffer it had is freed. *)
Lemma Node_setContents_success n c w w' :
  Node_setContents n c w = Ret true w' →
  ∃ l nd src,
    n = Some l ∧ nodes w !! l = Some nd ∧ eType nd = FT_FILE ∧
    (c = None ∧ src = [] ∨ string_at w c = Some src ∧ c ≠ None) ∧
    nodes w' =
      <[ l := Node (oPPath nd) (oNParent nd) (oChildren nd) (eType nd)
                (Some (brk w)) ]> (nodes w) ∧
    bufs w' =
      match pcContents nd with
      | Some b => delete b (<[ brk w := src ++ [NUL] ]> (bufs w))
      | None => <[ brk w := src ++ [NUL] ]> (bufs w)
      end.
Proof.
  intros E. unfold Node_setContents in E.
  inv_step E. inv_step E; [by inv_step E|].
  inv_step E. inv_step E. inv_step E; [by inv_step E|].
  inv_step E. inv_step E. inv_step E. inv_step E.
  apply load_inv in E0 as (l & -> & Hl & ->).
  assert ((c = None ∧ a0 = [] ∨ string_at w c = Some a0 ∧ c ≠ None) ∧ w1 = w)
    as [Hsrc ->].
  { destruct c as [lc|].
    - apply read_string_inv in E1 as [? ->]. split; [by right|done].
    - inv_step E1. split; [by left|done]. }
  apply malloc_ok_store in E2 as (Hn & Hb & Hk).
  unfold new_buf in E3. simplify_eq.
  assert (nodes w4 = nodes w ∧
          bufs w4 = match pcContents a with
                    | Some b => delete b (<[ brk w := a0 ++ [NUL] ]> (bufs w))
                    | None => <[ brk w := a0 ++ [NUL] ]> (bufs w)
                    end) as [Hn4 Hb4].
  { unfold free_buf in E4. destruct (pcContents a) as [b|]; simpl in *.
    - destruct (<[brk w2:=a0 ++ [NUL]]> (bufs w2) !! b) eqn:Hold; [|done].
      simplify_eq. simpl. by rewrite Hn, Hb, Hk.
    - simplify_eq. simpl. by rewrite Hn, Hb, Hk. }
  unfold store in E5. rewrite Hn4, Hl in E5. simplify_eq. simpl.
  exists l, a, a0. rewrite Hn4, Hb4, Hk.
  repeat split; try done. by destruct (decide (eType a = FT_FILE)); [|destruct n0].
Qed.

Lemma Node_setContents_failure n c w w' :
  Node_setContents n c w = Ret false w' → nodes w' = nodes w.
Proof.
  intros E. unfold Node_setContents in E.
  inv_step E. apply load_inv in E0 as (l & -> & Hl & ->).
  inv_step E; [by inv_step E|].
  inv_step E.
  assert (w0 = w) as ->.
  { destruct c; [by apply read_string_inv in E0 as [_ ->] | by inv_step E0]. }
  inv_step E. apply malloc_ok_store in E1 as (Hn & _).
  inv_step E; [by inv_step E|].
  repeat inv_step E.
Qed.

(** [Node_setContents(node, NULL)] leaves the node with the empty string. *)
Lemma Node_setContents_NULL n w w' :
  fresh w → Node_setContents n None w = Ret true w' →
  holds_empty_string w' n.
Proof.
  intros [_ Hfresh] E.
  apply Node_setContents_success in E
    as (l & nd & src & -> & Hl & Ht & Hsrc & Hn & Hb).
  destruct Hsrc as [[_ ->]|[_ ?]]; [|done].
  eexists l, _, (brk w). split; [done|]. rewrite Hn, lookup_insert_eq.
  repeat split; [done|]. unfold string_at. simpl. rewrite Hb.
  destruct (pcContents nd) as [b|] eqn:Hc.
  - specialize (Hfresh l nd b Hl Hc).
    rewrite lookup_delete_ne, lookup_insert_eq by lia. done.
  - by rewrite lookup_insert_eq.
Qed.

(** [Node_setContents] never leaves a file without a buffer. *)
Lemma Node_setContents_keeps_contents n c w b w' :
  files_have_contents w → Node_setContents n c w = Ret b w' →
  files_have_contents w'.
Proof.
  intros Hw E l nd Hl. destruct b.
  - apply Node_setContents_success in E
      as (l0 & nd0 & src & -> & Hl0 & Ht & _ & Hn & _).
    rewrite Hn in Hl. destruct (decide (l0 = l)) as [->|].
    + rewrite lookup_insert_eq in Hl. by simplify_eq.
    + rewrite lookup_insert_ne in Hl by done. eauto.
  - apply Node_setContents_failure in E. rewrite E in Hl. eauto.
Qed.

(** The pointer a successful [FT_replaceFileContents] returns leads to a
    buffer that [Node_setContents] has freed. *)
Lemma FT_replaceFileContents_returns_freed Path_parse s c n w b w' :
  FT_replaceFileContents Path_parse s c n w = Ret (Some b) w' →
  bufs w' !! b = None.
Proof.
  intros E. unfold FT_replaceFileContents in E.
  repeat inv_step E.
  match goal with
  | H : Node_setContents _ _ _ = Ret ?x _ |- _ =>
      destruct x; [|done];
      apply Node_setContents_success in H
        as (l & nd & src & -> & Hl & Ht & _ & _ & Hb)
  end.
  match goal with
  | H : Node_getContents _ _ = Ret _ _ |- _ =>
      unfold Node_getContents in H; apply bind_inv in H as (nd' & ? & Hld & H);
      apply load_inv in Hld as (? & [= <-] & Hl' & ->);
      unfold ret in H; case_decide; simplify_eq
  end.
  rewrite Hb. match goal with H : pcContents _ = Some _ |- _ => rewrite H end.
  apply lookup_delete_eq.
Qed.

(** Running two calls that start alike side by side. *)
Ltac sync E :=
  lazymatch type of E with
  | bind _ _ _ = Ret _ _ =>
      let a := fresh "a" in
      let w := fresh "w" in
      let E1 := fresh "E" in
      apply bind_inv in E as (a & w & E1 & E);
      rewrite (bind_eq _ _ _ _ _ E1)
  | (if ?b then _ else _) _ = Ret _ _ => destruct b eqn:?
  | (match ?x with _ => _ end) _ = Ret _ _ => destruct x eqn:?
  end.

(** [FT_getFileContents] returns [NULL] only where [FT_containsFile], which
    walks the same way, finds no file. *)
Lemma FT_getFileContents_NULL Path_parse s w w' :
  files_have_contents w →
  FT_getFileContents Path_parse s w = Ret None w' →
  FT_containsFile Path_parse s w = Ret false w'.
Proof.
  intros Hw E.
  pose proof (readonly_FT_getFileContents _ _ _ _ _ E) as (Hn & _).
  unfold FT_getFileContents in E. unfold FT_containsFile.
  repeat sync E; try (unfold ret in *; by simplify_eq).
  - unfold ret in *. simplify_eq. by rewrite bool_decide_eq_false_2.
  - exfalso.
    match goal with
    | H : Node_getType _ _ = Ret _ _ |- _ =>
        unfold Node_getType in H; apply bind_inv in H as (nd & ? & Hld & H);
        apply load_inv in Hld as (l & -> & Hl & ->);
        unfold ret in H; simplify_eq
    end.
    unfold Node_getContents in E. apply bind_inv in E as (nd' & ? & Hld & E).
    apply load_inv in Hld as (? & [= <-] & Hl' & ->).
    rewrite Hl in Hl'. unfold ret in E. case_decide; simplify_eq.
    rewrite Hn in Hl. by eapply Hw.
Qed.

(** ** Files keep a buffer *)

Lemma fated_files_have_contents w w' :
  fated w w' → files_have_contents w → files_have_contents w'.
Proof. intros (Hn & _) Hw l nd. rewrite Hn. apply Hw. Qed.

(** Carrying [files_have_contents] over the calls that only read. *)
Ltac keep_files :=
  repeat match goal with
  | H : ?m ?w = Ret _ ?w', Hw : files_have_contents ?w |- _ =>
      let R := fresh "R" in
      assert (readonly m) as R by ro;
      apply R in H; apply (fated_files_have_contents _ _ H) in Hw; clear R H
  end.

Lemma new_node_keeps_contents nd w r w' :
  files_have_contents w → (eType nd = FT_FILE → pcContents nd ≠ None) →
  new_node nd w = Ret r w' → files_have_contents w'.
Proof.
  intros Hw Hnd [= <- <-] l nd'. simpl.
  destruct (decide (brk w = l)) as [->|].
  - rewrite lookup_insert_eq. by intros [= <-].
  - rewrite lookup_insert_ne by done. apply Hw.
Qed.

(** [Node_new] never leaves a file without a buffer. *)
Lemma Node_new_keeps_contents p par t w st r w' :
  files_have_contents w → Node_new p par t w = Ret (st, r) w' →
  files_have_contents w'.
Proof.
  intros Hw E. unfold Node_new in E.
  repeat inv_step E; keep_files; try done.
  - eapply new_node_keeps_contents; [exact Hw| |done]. done.
  - match goal with H : new_buf _ _ = Ret _ _ |- _ => injection H as <- <- end.
    match goal with H : new_node _ _ = Ret _ _ |- _ =>
      eapply new_node_keeps_contents; [| |exact H]; [exact Hw|done] end.
Qed.

(** The stores of the interface hold no file at all. *)
Lemma lone_root_files_have_contents w :
  lone_root w → files_have_contents w.
Proof.
  intros (_ & _ & Hr) l nd Hl Ht. destruct (oRoot w) as [r|].
  - destruct Hr as (p & _ & Hn). rewrite Hn in Hl.
    apply lookup_singleton_Some in Hl as [_ <-]. done.
  - rewrite Hr in Hl. done.
Qed.

Lemma fresh_w_file : fresh w_file.
Proof.
  split.
  - intros l [bs Hl]. simpl in Hl.
    apply lookup_singleton_Some in Hl as [<- _]. simpl. lia.
  - intros l nd b Hl Hb. simpl in *.
    apply lookup_insert_Some in Hl as [[_ <-]|[_ Hl]]; [done|].
    apply lookup_insert_Some in Hl as [[_ <-]|[_ Hl]]; [|done].
    simpl in Hb. injection Hb as <-. lia.
Qed.

Lemma files_have_contents_w_file : files_have_contents w_file.
Proof.
  intros l nd Hl Ht. simpl in Hl.
  apply lookup_insert_Some in Hl as [[_ <-]|[_ Hl]]; [done|].
  apply lookup_insert_Some in Hl as [[_ <-]|[_ Hl]]; done.
Qed.

(* ================================================================== *)
(** * Runs on the example stores *)

Lemma reachable_w_init : reachable absolute_path w_init.
Proof.
  apply (reachable_call _ w_boot Call_init); [apply reachable_boot|].
  vm_compute. reflexivity.
Qed.

Lemma reachable_w_a : reachable absolute_path w_a.
Proof.
  apply (reachable_call _ w_init (Call_insertDir "/a"));
    [apply reachable_w_init|].
  vm_compute. reflexivity.
Qed.

Lemma insertDir_w_init :
  FT_insertDir absolute_path "/a" w_init = Ret SUCCESS w_a.
Proof. vm_compute. reflexivity. Qed.

(** A file among the children stops the traversal: on the directory [/a]
    with the directory [/a/z] and the file [/a/y], [FT_traverseToString]
    asks the file for its number of children and [Node_getNumChildren]
    fails its assertion. *)
Lemma FT_toString_w_tree : FT_toString w_tree = Crash.
Proof. vm_compute. reflexivity. Qed.

(** ** The theorems at work *)

Lemma containsDir_false_after_insertDir_witness :
  reachable absolute_path w_init ∧
  FT_insertDir absolute_path "/a" w_init = Ret SUCCESS w_a ∧
  ∃ w2, FT_containsDir absolute_path "/a" w_a = Ret false w2 ∧ fated w_a w2.
Proof.
  split; [exact reachable_w_init|]. split; [exact insertDir_w_init|].
  exact (containsDir_false_after_insertDir absolute_path "/a" w_init w_a
           reachable_w_init insertDir_w_init).
Defined.

Lemma insertFile_missing_dir_conflicting_path_witness :
  reachable absolute_path w_a ∧ bIsInitialized w_a = true ∧
  absolute_path "/a/b/c" = Some ["a"; "b"; "c"] ∧
  2 ≤ length ["a"; "b"; "c"] ∧
  ∃ st w', FT_insertFile absolute_path "/a/b/c" None 0 w_a = Ret st w' ∧
           st ≠ NO_SUCH_PATH ∧
           (false ∉ fate w_a → st = CONFLICTING_PATH).
Proof.
  split; [exact reachable_w_a|]. split; [reflexivity|].
  split; [vm_compute; reflexivity|]. split; [simpl; lia|].
  apply (insertFile_missing_dir_conflicting_path absolute_path
           "/a/b/c" None 0 w_a ["a"; "b"; "c"]).
  - exact reachable_w_a.
  - reflexivity.
  - vm_compute. reflexivity.
  - simpl. lia.
Defined.

(** The two insertions side by side: the intermediate directory [/a/b] is
    absent from the tree that holds [/a] alone; inserting the directory
    [/a/b/c] returns [NO_SUCH_PATH], inserting the file [/a/b/c] returns
    [CONFLICTING_PATH]. *)
Lemma insertFile_missing_dir_run :
  reachable absolute_path w_a ∧ bIsInitialized w_a = true ∧
  nodes w_a = {[ 1 := root_dir ["a"] ]} ∧
  FT_insertDir absolute_path "/a/b/c" w_a = Ret NO_SUCH_PATH w_a ∧
  FT_insertFile absolute_path "/a/b/c" None 0 w_a
    = Ret CONFLICTING_PATH w_a.
Proof.
  split; [exact reachable_w_a|]. split; [reflexivity|].
  split; [reflexivity|]. split; vm_compute; reflexivity.
Qed.

Lemma second_insert_no_such_path_witness :
  reachable absolute_path w_init ∧
  FT_insertDir absolute_path "/a" w_init = Ret SUCCESS w_a ∧
  (false ∉ fate w_a) ∧
  (∃ w2, FT_insertDir absolute_path "/a" w_a = Ret NO_SUCH_PATH w2 ∧
         fated w_a w2) ∧
  (∃ w2, FT_insertFile absolute_path "/a" None 0 w_a = Ret NO_SUCH_PATH w2 ∧
         fated w_a w2).
Proof.
  split; [exact reachable_w_init|]. split; [exact insertDir_w_init|].
  split; [apply not_elem_of_nil|].
  exact (second_insert_no_such_path absolute_path "/a" None 0 w_init w_a
           reachable_w_init insertDir_w_init (not_elem_of_nil false)).
Defined.

Lemma insertFile_failure_keeps_new_root_witness :
  reachable absolute_path w_init ∧ bIsInitialized w_init = true ∧
  oRoot w_init = None ∧ absolute_path "/a/f" = Some ["a"; "f"] ∧
  2 ≤ length ["a"; "f"] ∧ (false ∉ fate w_init) ∧
  ∃ w', FT_insertFile absolute_path "/a/f" None 0 w_init
          = Ret CONFLICTING_PATH w' ∧
        nodes w_init = ∅ ∧ oRoot w' = Some (brk w_init) ∧
        nodes w' !! brk w_init = Some (root_dir (take 1 ["a"; "f"])).
Proof.
  split; [exact reachable_w_init|]. split; [reflexivity|].
  split; [reflexivity|]. split; [vm_compute; reflexivity|].
  split; [simpl; lia|]. split; [apply not_elem_of_nil|].
  apply (insertFile_failure_keeps_new_root absolute_path
           "/a/f" None 0 w_init ["a"; "f"]).
  - exact reachable_w_init.
  - reflexivity.
  - reflexivity.
  - vm_compute. reflexivity.
  - simpl. lia.
  - apply not_elem_of_nil.
Defined.

Lemma stat_after_insertDir_no_such_path_witness :
  reachable absolute_path w_init ∧
  FT_insertDir absolute_path "/a" w_init = Ret SUCCESS w_a ∧
  (false ∉ fate w_a) ∧
  ∃ w2, FT_stat absolute_path "/a" (Some true) (Some 7%Z) w_a
        = Ret (StatResult NO_SUCH_PATH (Some true) (Some 7%Z)) w2.
Proof.
  split; [exact reachable_w_init|]. split; [exact insertDir_w_init|].
  split; [apply not_elem_of_nil|].
  exact (stat_after_insertDir_no_such_path absolute_path "/a"
           (Some true) (Some 7%Z) w_init w_a
           reachable_w_init insertDir_w_init (not_elem_of_nil false)).
Defined.

(* ================================================================== *)
(** * Freeing a tree *)

Lemma tree_induction (P : tree → Prop) :
  (∀ l b, P (File l b)) →
  (∀ l ts, Forall P ts → P (Dir l ts)) →
  ∀ t, P t.
Proof.
  intros Hf Hd.
  assert (∀ n t, height t ≤ n → P t) as H.
  { induction n as [|n IH]; intros [l b|l ts] Hh; simpl in Hh; try lia.
    - apply Hf.
    - apply Hd. apply Forall_forall. intros t Ht. apply IH.
      assert (height t ≤ max_list (height <$> ts)); [|lia].
      by apply max_list_elem_of_le, list_elem_of_fmap_2. }
  intros t. by apply (H (height t)).
Qed.

Lemma lookup_foldr_delete {A} (m : gmap loc A) ls k :
  foldr delete m ls !! k = if decide (k ∈ ls) then None else m !! k.
Proof.
  induction ls as [|a ls IH]; cbn [foldr].
  - rewrite decide_False; [done|]. apply not_elem_of_nil.
  - destruct (decide (k = a)) as [->|Hne].
    + rewrite lookup_delete_eq, decide_True; [done|]. apply list_elem_of_here.
    + rewrite lookup_delete_ne, IH by done.
      destruct (decide (k ∈ ls)) as [Hin|Hin].
      * rewrite decide_True; [done|]. by apply list_elem_of_further.
      * rewrite decide_False; [done|]. by intros [?|?]%elem_of_cons.
Qed.

Lemma release_release ls1 bs1 ls2 bs2 w :
  release ls2 bs2 (release ls1 bs1 w) = release (ls1 ++ ls2) (bs1 ++ bs2) w.
Proof.
  unfold release, set_bufs, set_nodes. simpl.
  f_equal; apply map_eq; intros k; rewrite !lookup_foldr_delete;
    repeat case_decide; try done; exfalso; rewrite elem_of_app in *; tauto.
Qed.

Lemma nodes_release ls bs w l :
  l ∉ ls → nodes (release ls bs w) !! l = nodes w !! l.
Proof. intros Hl. simpl. rewrite lookup_foldr_delete. by rewrite decide_False. Qed.

Lemma bufs_release ls bs w b :
  b ∉ bs → bufs (release ls bs w) !! b = bufs w !! b.
Proof. intros Hb. simpl. rewrite lookup_foldr_delete. by rewrite decide_False. Qed.

Lemma root_of_node_locs t : root_of t ∈ node_locs t.
Proof. destruct t; apply list_elem_of_here. Qed.

(** Releasing what lies apart from a tree leaves the tree laid out. *)
Lemma laid_out_release ls bs w t :
  laid_out w t →
  (∀ x, x ∈ node_locs t → x ∉ ls) → (∀ x, x ∈ buf_locs t → x ∉ bs) →
  laid_out (release ls bs w) t.
Proof.
  induction t as [l b|l ts IH] using tree_induction; intros Hw Hn Hb.
  - inversion Hw as [? ? nd Hl Ht Hc Hlive|]; subst.
    apply (laid_out_File _ _ _ nd); [|done..|].
    + rewrite nodes_release; [done|]. apply Hn, list_elem_of_here.
    + intros x Hx. rewrite bufs_release; [by apply Hlive|].
      apply Hb. simpl. rewrite Hx. apply list_elem_of_here.
  - inversion Hw as [|? ? nd Hl Ht Hc Hts]; subst.
    apply (laid_out_Dir _ _ _ nd); [|done..|].
    + rewrite nodes_release; [done|]. apply Hn, list_elem_of_here.
    + rewrite Forall_forall in IH, Hts. apply Forall_forall. intros t Ht'.
      apply IH; [done|by apply Hts|..].
      * intros x Hx. apply Hn. simpl. apply list_elem_of_further.
        apply list_elem_of_bind. eauto.
      * intros x Hx. apply Hb. simpl. apply list_elem_of_bind. eauto.
Qed.

Lemma release_nil w : release [] [] w = w.
Proof. by destruct w. Qed.

Lemma Node_getChild_at l nd cs i c w :
  nodes w !! l = Some nd → eType nd = FT_DIR → oChildren nd = Some cs →
  cs !! i = Some c →
  Node_getChild (Some l) i w = Ret (SUCCESS, c) w.
Proof.
  intros Hl Ht Hc Hi. unfold Node_getChild, bind, load. rewrite Hl.
  rewrite decide_True by done. rewrite Hc. cbn [nonnull ret]. unfold Node_T in *. by rewrite Hi.
Qed.

Lemma Node_getNumChildren_at l nd cs w :
  nodes w !! l = Some nd → eType nd = FT_DIR → oChildren nd = Some cs →
  Node_getNumChildren (Some l) w = Ret (length cs) w.
Proof.
  intros Hl Ht Hc. unfold Node_getNumChildren, bind, load. rewrite Hl.
  rewrite decide_True by done. by rewrite Hc.
Qed.

Lemma Node_getType_at l nd w :
  nodes w !! l = Some nd → Node_getType (Some l) w = Ret (eType nd) w.
Proof. intros Hl. unfold Node_getType, bind, load. by rewrite Hl. Qed.

Section FreeChildren.

Variable fuel : nat.
Hypothesis IH : ∀ t w,
  height t ≤ fuel → laid_out w t →
  NoDup (node_locs t) → NoDup (buf_locs t) →
  Node_free_rec fuel (Some (root_of t)) w
  = Ret (length (node_locs t)) (release (node_locs t) (buf_locs t) w).

(** The loop of [Node_free] over the children from index [length pre] on. *)
Lemma free_children l nd pre post total w :
  nodes w !! l = Some nd → eType nd = FT_DIR →
  oChildren nd = Some ((λ t, Some (root_of t)) <$> (pre ++ post)) →
  Forall (λ t, height t ≤ fuel) post → Forall (laid_out w) post →
  NoDup (post ≫= node_locs) → NoDup (post ≫= buf_locs) →
  l ∉ post ≫= node_locs →
  for_each
    (λ total i,
       '(st, oChild) ← Node_getChild (Some l) i;
       if decide (st = SUCCESS ∧ oChild ≠ None) then
         k ← Node_free_rec fuel oChild; ret (total + k)
       else ret total)
    (seq (length pre) (length post)) total w
  = Ret (total + length (post ≫= node_locs))
        (release (post ≫= node_locs) (post ≫= buf_locs) w).
Proof.
  revert pre total w.
  induction post as [|t post IHp]; intros pre total w Hl Ht Hc Hh Hw Hn Hb Hout.
  { simpl. rewrite release_nil. unfold ret. f_equal. lia. }
  apply Forall_cons in Hh as [Hh Hhs]. apply Forall_cons in Hw as [Hw Hws].
  rewrite bind_cons in Hn, Hb, Hout.
  apply NoDup_app in Hn as (Hn & Hnd & Hns).
  apply NoDup_app in Hb as (Hb & Hbd & Hbs).
  apply not_elem_of_app in Hout as [Hout Houts].
  cbn [length seq for_each].
  rewrite (bind_eq _ _ w (total + length (node_locs t))
             (release (node_locs t) (buf_locs t) w)).
  2:{ rewrite (bind_eq _ _ _ _ _
                 (Node_getChild_at l nd _ (length pre) (Some (root_of t)) w
                    Hl Ht Hc ltac:(by rewrite list_lookup_fmap, list_lookup_middle))).
      rewrite decide_True by done.
      by rewrite (bind_eq _ _ _ _ _ (IH t w Hh Hw Hn Hb)). }
  replace (S (length pre)) with (length (pre ++ [t])) by (rewrite length_app; simpl; lia).
  rewrite (IHp (pre ++ [t])).
  - rewrite release_release, bind_cons, !length_app. f_equal. lia.
  - by rewrite nodes_release.
  - done.
  - by rewrite <- app_assoc.
  - done.
  - apply Forall_forall. intros t' Ht'. rewrite Forall_forall in Hws.
    apply laid_out_release; [by apply Hws|..].
    + intros x Hx Hx'. apply (Hnd x Hx'). apply list_elem_of_bind. eauto.
    + intros x Hx Hx'. apply (Hbd x Hx'). apply list_elem_of_bind. eauto.
  - done.
  - done.
  - done.
Qed.

End FreeChildren.

(** [Node_free] on a tree laid out in the store, with enough levels of
    recursion for its height. *)
Lemma Node_free_rec_tree fuel t w :
  height t ≤ fuel → laid_out w t →
  NoDup (node_locs t) → NoDup (buf_locs t) →
  Node_free_rec fuel (Some (root_of t)) w
  = Ret (length (node_locs t)) (release (node_locs t) (buf_locs t) w).
Proof.
  revert t w. induction fuel as [|fuel IH]; intros t w Hh Hw Hn Hb.
  { destruct t; simpl in Hh; lia. }
  inversion Hw as [l b nd Hl Ht Hc Hlive|l ts nd Hl Ht Hc Hts]; subst.
  - cbn [Node_free_rec root_of].
    rewrite (bind_eq _ _ _ _ _ (Node_getType_at l nd w Hl)), Ht.
    unfold bind, load. rewrite Hl. unfold free_buf, free_node, ret.
    destruct (pcContents nd) as [x|] eqn:Hx.
    + destruct (Hlive x eq_refl) as [bs ->]. simpl. by rewrite Hl.
    + simpl. rewrite Hl. by destruct w.
  - cbn [Node_free_rec root_of].
    rewrite (bind_eq _ _ _ _ _ (Node_getType_at l nd w Hl)), Ht.
    simpl in Hn. apply NoDup_cons in Hn as [Hout Hn]. simpl in Hb, Hh.
    rewrite (bind_eq _ _ w (length (ts ≫= node_locs))
               (release (ts ≫= node_locs) (ts ≫= buf_locs) w)).
    2:{ rewrite (bind_eq _ _ _ _ _ (Node_getNumChildren_at l nd _ w Hl Ht Hc)).
        rewrite length_fmap.
        apply (free_children fuel IH l nd [] ts 0 w); try done.
        apply Forall_forall. intros t Ht'.
        assert (height t ≤ max_list (height <$> ts)); [|lia].
        by apply max_list_elem_of_le, list_elem_of_fmap_2. }
    unfold bind, free_node, ret. rewrite nodes_release by done. rewrite Hl.
    cbn [node_locs buf_locs length]. rewrite Nat.add_1_r. f_equal.
Qed.

Lemma height_le_length t : height t ≤ length (node_locs t).
Proof.
  induction t as [l b|l ts IH] using tree_induction; simpl; [done|].
  apply le_n_S. induction ts as [|t ts IHts]; [done|].
  apply Forall_cons in IH as [Ht Hts]. specialize (IHts Hts).
  rewrite fmap_cons, bind_cons, length_app. cbn [max_list]. change (id (height t)) with (height t). lia.
Qed.

Lemma laid_out_live w t x :
  laid_out w t → x ∈ node_locs t → is_Some (nodes w !! x).
Proof.
  induction t as [l b|l ts IH] using tree_induction; intros Hw Hx.
  - inversion Hw as [? ? nd Hl|]; subst.
    apply list_elem_of_singleton in Hx as ->. rewrite Hl. by eexists.
  - inversion Hw as [|? ? nd Hl Ht Hc Hts]; subst. simpl in Hx.
    apply elem_of_cons in Hx as [->|Hx]; [rewrite Hl; by eexists|].
    apply list_elem_of_bind in Hx as (t & Hx & Ht').
    rewrite Forall_forall in IH, Hts. apply (IH t); [done|by apply Hts|done].
Qed.

Lemma length_le_size {A} (m : gmap loc A) ls :
  NoDup ls → (∀ x, x ∈ ls → is_Some (m !! x)) → length ls ≤ size m.
Proof.
  intros Hnd Hls. rewrite <- (size_list_to_set (C := gset loc)) by done.
  rewrite <- size_dom. apply subseteq_size. intros x Hx.
  apply elem_of_list_to_set in Hx. by apply elem_of_dom, Hls.
Qed.

(** [Node_free] has levels enough for every tree laid out in the store. *)
Lemma Node_free_tree t w :
  laid_out w t → NoDup (node_locs t) → NoDup (buf_locs t) →
  Node_free (Some (root_of t)) w
  = Ret (length (node_locs t)) (release (node_locs t) (buf_locs t) w).
Proof.
  intros Hw Hn Hb. unfold Node_free. apply Node_free_rec_tree; try done.
  pose proof (height_le_length t).
  pose proof (length_le_size (nodes w) (node_locs t) Hn
                (λ x, laid_out_live w t x Hw)).
  lia.
Qed.

Lemma compare_refl s : String.compare s s = Eq.
Proof.
  pose proof (String.compare_antisym s s) as H.
  by destruct (String.compare s s).
Qed.

Lemma comparePath_refl p : comparePath p p = 0%Z.
Proof. unfold comparePath. by rewrite compare_refl. Qed.

Lemma laid_out_ext w w' t :
  nodes w' = nodes w → bufs w' = bufs w → laid_out w t → laid_out w' t.
Proof.
  intros Hn Hb.
  induction t as [l b|l ts IH] using tree_induction; intros Hw.
  - inversion Hw as [? ? nd Hl Ht Hc Hlive|]; subst.
    apply (laid_out_File _ _ _ nd); rewrite ?Hn, ?Hb; done.
  - inversion Hw as [|? ? nd Hl Ht Hc Hts]; subst.
    apply (laid_out_Dir _ _ _ nd); rewrite ?Hn; try done.
    rewrite Forall_forall in IH, Hts. apply Forall_forall. intros t Ht'.
    apply IH; [done|]. by apply Hts.
Qed.

Lemma wp_inv_eq {A} (m : M A) a w w' :
  wp m (λ a' w'', a' = a ∧ w'' = w') w → m w = Ret a w'.
Proof. intros (? & ? & -> & -> & ->)%wp_inv. done. Qed.

(** What is left of the maps of a store once a tree is released. *)
Lemma release_lookup ls bs w :
  (∀ x, nodes (release ls bs w) !! x
        = if decide (x ∈ ls) then None else nodes w !! x) ∧
  (∀ x, bufs (release ls bs w) !! x
        = if decide (x ∈ bs) then None else bufs w !! x).
Proof. split; intros x; simpl; apply lookup_foldr_delete. Qed.

(** X1 (Node_free).  On a tree laid out in the store without sharing,
    [Node_free] returns the number of the tree's nodes, frees exactly these
    nodes and the content buffers of the tree's files, and leaves everything
    else in the store as it was. *)
Theorem Node_free_frees_the_tree t w :
  laid_out w t → NoDup (node_locs t) → NoDup (buf_locs t) →
  ∃ w', Node_free (Some (root_of t)) w = Ret (length (node_locs t)) w' ∧
        (∀ x, nodes w' !! x
              = if decide (x ∈ node_locs t) then None else nodes w !! x) ∧
        (∀ x, bufs w' !! x
              = if decide (x ∈ buf_locs t) then None else bufs w !! x) ∧
        oRoot w' = oRoot w ∧ bIsInitialized w' = bIsInitialized w ∧
        brk w' = brk w ∧ fate w' = fate w.
Proof.
  intros Hw Hn Hb. eexists. split; [by apply Node_free_tree|].
  destruct (release_lookup (node_locs t) (buf_locs t) w) as [??].
  by repeat split.
Qed.

(** X2 (FT_destroy).  On an initialised tree that is laid out in the store
    without sharing, [FT_destroy] returns [SUCCESS], frees every node and
    every content buffer of the tree, and leaves the tree uninitialised
    with no root. *)
Theorem FT_destroy_frees_the_tree t w :
  bIsInitialized w = true → oRoot w = Some (root_of t) →
  laid_out w t → NoDup (node_locs t) → NoDup (buf_locs t) →
  ∃ w', FT_destroy w = Ret SUCCESS w' ∧
        bIsInitialized w' = false ∧ oRoot w' = None ∧
        (∀ x, nodes w' !! x
              = if decide (x ∈ node_locs t) then None else nodes w !! x) ∧
        (∀ x, bufs w' !! x
              = if decide (x ∈ buf_locs t) then None else bufs w !! x).
Proof.
  intros Hi Hr Hw Hn Hb.
  exists (set_bIsInitialized false
            (set_oRoot None (release (node_locs t) (buf_locs t) w))).
  split.
  - apply (wp_inv_eq FT_destroy). unfold FT_destroy.
    wp_steps; try done.
    eapply wp_eq; [by apply Node_free_tree|]. by wp_steps.
  - destruct (release_lookup (node_locs t) (buf_locs t) w) as [??].
    by repeat split.
Qed.

Lemma Node_getPath_at l nd w :
  nodes w !! l = Some nd → Node_getPath (Some l) w = Ret (oPPath nd) w.
Proof. intros Hl. unfold Node_getPath, bind, load. by rewrite Hl. Qed.

Section Removal.

Variable Path_parse : string → option path.

(** Removing the root by its path: the whole tree is released. *)
Lemma FT_rmDir_root s q p l ts nd w :
  bIsInitialized w = true → oRoot w = Some l →
  laid_out w (Dir l ts) →
  NoDup (node_locs (Dir l ts)) → NoDup (buf_locs (Dir l ts)) →
  nodes w !! l = Some nd → oPPath nd = Some p →
  Path_parse s = Some q → q ≠ [] → comparePath p q = 0%Z →
  false ∉ fate w →
  ∃ f, FT_rmDir Path_parse s w
       = Ret SUCCESS
           (set_oRoot None
              (release (node_locs (Dir l ts)) (buf_locs (Dir l ts))
                 (set_fate f w))).
Proof.
  intros Hi Hr Hw Hn Hb Hl Hp Hq Hne Hcmp Hcalm.
  assert (wp (FT_rmDir Path_parse s)
            (λ st w', ∃ f, st = SUCCESS ∧
               w' = set_oRoot None
                      (release (node_locs (Dir l ts)) (buf_locs (Dir l ts))
                         (set_fate f w))) w) as H.
  { unfold FT_rmDir. wp_steps; [|done].
    apply wp_Path_create. intros o f Hf [Ho|[_ ?]]; [|done].
    rewrite Hq in Ho. subst o. wp_steps.
    { exfalso. by destruct q. }
    eapply wp_eq; [by apply (Node_getPath_at l nd)|]. rewrite Hp.
    wp_steps.
    eapply wp_eq; [by apply (Node_getType_at l nd)|].
    inversion Hw as [|? ? nd' Hl' Ht Hc Hts]; subst.
    assert (nd' = nd) as -> by congruence. rewrite Ht.
    wp_steps.
    eapply wp_eq.
    { apply (Node_free_tree (Dir l ts)); [|done..].
      by apply (laid_out_ext w). }
    wp_steps. by exists f. }
  apply wp_inv in H as (st & w' & E & f & -> & ->). by exists f.
Qed.

(** X3 (FT_rmDir).  Removing the root directory by its path frees the whole
    tree: when the path given compares equal to the root's and no allocation
    fails, [FT_rmDir] returns [SUCCESS], frees every node and every content
    buffer of the tree and leaves the tree initialised and empty. *)
Theorem FT_rmDir_root_frees_the_tree s q p l ts nd w :
  bIsInitialized w = true → oRoot w = Some l →
  laid_out w (Dir l ts) →
  NoDup (node_locs (Dir l ts)) → NoDup (buf_locs (Dir l ts)) →
  nodes w !! l = Some nd → oPPath nd = Some p →
  Path_parse s = Some q → q ≠ [] → comparePath p q = 0%Z →
  false ∉ fate w →
  ∃ w', FT_rmDir Path_parse s w = Ret SUCCESS w' ∧
        bIsInitialized w' = true ∧ oRoot w' = None ∧
        (∀ x, nodes w' !! x
              = if decide (x ∈ node_locs (Dir l ts)) then None
                else nodes w !! x) ∧
        (∀ x, bufs w' !! x
              = if decide (x ∈ buf_locs (Dir l ts)) then None
                else bufs w !! x).
Proof.
  intros Hi Hr Hw Hn Hb Hl Hp Hq Hne Hcmp Hcalm.
  destruct (FT_rmDir_root s q p l ts nd w) as [f E]; try done.
  eexists. split; [exact E|].
  destruct (release_lookup (node_locs (Dir l ts)) (buf_locs (Dir l ts))
              (set_fate f w)) as [??].
  by repeat split.
Qed.

End Removal.

(* ================================================================== *)
(** * What the checker's per-node test guarantees *)

(** A step of a call that only reads: the store stays. *)
Ltac pure_step E E1 :=
  let a := fresh "a" in
  let w1 := fresh "w" in
  let Hs := fresh "Hs" in
  apply bind_inv in E as (a & w1 & E1 & E);
  match type of E1 with
  | ?m _ = Ret _ _ => assert (stateless m) as Hs by stateless_tac
  end;
  pose proof (Hs _ _ _ E1); subst w1; clear Hs.

Lemma Node_getPath_inv c p w w' :
  Node_getPath c w = Ret p w' → w' = w ∧ child_path w c = p.
Proof.
  unfold Node_getPath. intros (nd & w1 & E1 & E)%bind_inv.
  apply load_inv in E1 as (l & -> & Hl & ->). injection E as <- <-.
  split; [done|]. simpl. by rewrite Hl.
Qed.

Lemma Path_comparePath_inv a b c w w' :
  Path_comparePath a b w = Ret c w' →
  ∃ p q, a = Some p ∧ b = Some q ∧ c = comparePath p q.
Proof.
  unfold Path_comparePath, bind. destruct a as [p|], b as [q|]; try done.
  intros [= <- <-]. eauto.
Qed.

Section Directory.

Variables (w : world) (l : loc) (nd : node) (cs : list Node_T).
Hypothesis Hl : nodes w !! l = Some nd.
Hypothesis Hc : oChildren nd = Some cs.

Lemma Node_getChild_inv i st c w' :
  Node_getChild (Some l) i w = Ret (st, c) w' →
  w' = w ∧ (st = SUCCESS ∧ cs !! i = Some c ∨
            st = NO_SUCH_PATH ∧ c = None ∧ cs !! i = None).
Proof.
  unfold Node_getChild, bind, load. rewrite Hl.
  destruct (decide (eType nd = FT_DIR)); [|done]. rewrite Hc.
  cbn [nonnull ret]. unfold Node_T in *.
  destruct (cs !! i) as [child|]; intros [= <- <- <-]; auto.
Qed.

Lemma children_loop_sound js w' :
  CheckerDT_children_loop (Some l) js w = Ret true w' →
  ∀ i, i ∈ js →
    ∃ lc ndc, cs !! i = Some (Some lc) ∧ nodes w !! lc = Some ndc ∧
              oNParent ndc = Some l.
Proof.
  induction js as [|j js IH]; intros E i Hi; [by apply elem_of_nil in Hi|].
  cbn [CheckerDT_children_loop] in E.
  pure_step E Eg. destruct a as [st c].
  apply Node_getChild_inv in Eg as (_ & [[-> Hj]|(-> & -> & _)]).
  2:{ by rewrite decide_True in E by auto. }
  destruct (decide (SUCCESS ≠ SUCCESS ∨ c = None)) as [|Hok]; [done|].
  destruct c as [lc|]; [|by destruct Hok; right].
  pure_step E Ep. unfold Node_getParent in Ep.
  apply bind_inv in Ep as (ndc & ? & Eld & Ep).
  apply load_inv in Eld as (? & [= <-] & Hlc & ->). injection Ep as <-.
  destruct (decide (oNParent ndc ≠ Some l)) as [|Hp]; [done|].
  apply elem_of_cons in Hi as [->|Hi]; [|by apply IH].
  exists lc, ndc. repeat split; [done..|].
  by destruct (decide (oNParent ndc = Some l)).
Qed.

Lemma duplicate_inner_sound c1 js w' :
  CheckerDT_duplicate_inner (Some l) c1 js w = Ret true w' →
  ∀ j, j ∈ js →
    ∃ c2 p1 p2, cs !! j = Some c2 ∧ child_path w c1 = Some p1 ∧
                child_path w c2 = Some p2 ∧ comparePath p1 p2 ≠ 0%Z.
Proof.
  induction js as [|j' js IH]; intros E j Hj; [by apply elem_of_nil in Hj|].
  cbn [CheckerDT_duplicate_inner] in E.
  pure_step E Eg. destruct a as [st c2].
  apply Node_getChild_inv in Eg as (_ & Hget).
  pure_step E E1. pure_step E E2. pure_step E E3.
  apply Node_getPath_inv in E1 as [_ H1]. apply Node_getPath_inv in E2 as [_ H2].
  apply Path_comparePath_inv in E3 as (p1 & p2 & -> & -> & ->).
  destruct (decide (comparePath p1 p2 = 0%Z)) as [|Hne]; [done|].
  apply elem_of_cons in Hj as [->|Hj]; [|by apply IH].
  exists c2, p1, p2. repeat split; try done.
  destruct Hget as [[_ ?]|(_ & -> & _)]; [done|]. done.
Qed.

Lemma duplicate_loop_sound k indices w' :
  CheckerDT_duplicate_loop (Some l) k indices w = Ret true w' →
  ∀ i j, i ∈ indices → i < j < k →
    ∃ ci cj pi pj, cs !! i = Some ci ∧ cs !! j = Some cj ∧
                   child_path w ci = Some pi ∧ child_path w cj = Some pj ∧
                   comparePath pi pj ≠ 0%Z.
Proof.
  induction indices as [|i' indices IH]; intros E i j Hi Hij;
    [by apply elem_of_nil in Hi|].
  cbn [CheckerDT_duplicate_loop] in E.
  pure_step E Eg. destruct a as [st ci].
  apply Node_getChild_inv in Eg as (_ & Hget).
  pure_step E Ei. destruct a; [|done]. cbn [negb] in E.
  apply elem_of_cons in Hi as [->|Hi]; [|by apply (IH E)].
  destruct (duplicate_inner_sound _ _ _ Ei j) as (cj & pi & pj & ? & Hpi & ? & ?).
  { apply elem_of_seq. lia. }
  exists ci, cj, pi, pj. repeat split; try done.
  destruct Hget as [[_ ?]|(_ & -> & _)]; [done|]. done.
Qed.

Lemma order_loop_sound fuel i bound w' :
  (0 ≤ i)%Z →
  CheckerDT_order_loop fuel (Some l) i bound w = Ret true w' →
  ∀ k, (i ≤ k < bound)%Z →
    ∃ c1 c2 p1 p2, cs !! Z.to_nat k = Some c1 ∧
                   cs !! Z.to_nat (k + 1) = Some c2 ∧
                   child_path w c1 = Some p1 ∧ child_path w c2 = Some p2 ∧
                   (comparePath p1 p2 ≤ 0)%Z.
Proof.
  revert i. induction fuel as [|fuel IH]; intros i Hi E k Hk; [done|].
  cbn [CheckerDT_order_loop] in E.
  destruct (decide (i < bound)%Z); [|lia].
  pure_step E Eg1. destruct a as [s1 c1].
  apply Node_getChild_inv in Eg1 as (_ & [[-> H1]|(-> & -> & _)]).
  2:{ by rewrite decide_True in E by auto. }
  destruct (decide (SUCCESS ≠ SUCCESS ∨ c1 = None)); [done|].
  pure_step E Eg2. destruct a as [s2 c2].
  apply Node_getChild_inv in Eg2 as (_ & [[-> H2]|(-> & -> & _)]).
  2:{ by rewrite decide_True in E by auto. }
  destruct (decide (SUCCESS ≠ SUCCESS ∨ c2 = None)); [done|].
  pure_step E Ep1. pure_step E Ep2.
  apply Node_getPath_inv in Ep1 as [_ Hp1]. apply Node_getPath_inv in Ep2 as [_ Hp2].
  destruct (decide (a = None ∨ a0 = None)); [done|].
  pure_step E Ec. apply Path_comparePath_inv in Ec as (p1 & p2 & -> & -> & ->).
  destruct (decide (comparePath p1 p2 > 0)%Z); [done|].
  destruct (decide (k = i)) as [->|].
  - exists c1, c2, p1, p2. repeat split; try done; lia.
  - apply (IH (i + 1)%Z); [lia|done|lia].
Qed.

End Directory.

Lemma Node_getNumChildren_inv n k w w' :
  Node_getNumChildren n w = Ret k w' →
  ∃ l nd cs, n = Some l ∧ nodes w !! l = Some nd ∧ eType nd = FT_DIR ∧
             oChildren nd = Some cs ∧ k = length cs ∧ w' = w.
Proof.
  unfold Node_getNumChildren. intros (nd & w1 & E1 & E)%bind_inv.
  apply load_inv in E1 as (l & -> & Hl & ->).
  destruct (decide (eType nd = FT_DIR)); [|done].
  destruct (oChildren nd) as [cs|] eqn:Hc; [|done].
  injection E as <- <-. by exists l, nd, cs.
Qed.

(** When [CheckerDT_Node_isValid] accepts a node, the node is a live
    directory with a path and at least one child; its path shares with its
    parent's all but the last component; every child is a live node whose
    parent pointer leads back to the node; no two children have equal
    paths; and consecutive children are in strictly ascending order of
    their paths.  The store is left as it was. *)
Lemma CheckerDT_Node_isValid_sound n w w' :
  CheckerDT_Node_isValid n w = Ret true w' →
  w' = w ∧
  ∃ l nd p cs,
    n = Some l ∧ nodes w !! l = Some nd ∧ oPPath nd = Some p ∧
    eType nd = FT_DIR ∧ oChildren nd = Some cs ∧ cs ≠ [] ∧
    (∀ lp, oNParent nd = Some lp →
       ∃ pp, child_path w (Some lp) = Some pp ∧
             Z.of_nat (sharedPrefixDepth p pp)
             = size_sub (Z.of_nat (length p)) 1) ∧
    (∀ i c, cs !! i = Some c →
       ∃ lc ndc, c = Some lc ∧ nodes w !! lc = Some ndc ∧
                 oNParent ndc = Some l) ∧
    (∀ i j ci cj, i < j → cs !! i = Some ci → cs !! j = Some cj →
       ∃ pi pj, child_path w ci = Some pi ∧ child_path w cj = Some pj ∧
                comparePath pi pj ≠ 0%Z) ∧
    ((Z.of_nat (length cs) ≤ SIZE_MODULUS)%Z →
     ∀ i ci cj, cs !! i = Some ci → cs !! S i = Some cj →
       ∃ pi pj, child_path w ci = Some pi ∧ child_path w cj = Some pj ∧
                (comparePath pi pj < 0)%Z).
Proof.
  intros E. pose proof (stateless_CheckerDT_Node_isValid _ _ _ _ E) as ->.
  split; [done|].
  pose proof E as E'. unfold CheckerDT_Node_isValid in E.
  destruct (decide (n = None)); [done|].
  pure_step E Ep. apply Node_getPath_inv in Ep as [_ Hp].
  destruct (decide (a = None)) as [|Hpn]; [done|].
  destruct a as [p|]; [|done].
  pure_step E Epar. pure_step E Eok. destruct a0; [|done]. cbn [negb] in E.
  pure_step E Ek.
  pose proof (CheckerDT_Node_isValid_has_child _ _ _ _ E' Ek) as Hk.
  apply Node_getNumChildren_inv in Ek as (l & nd & cs & -> & Hl & Ht & Hc & -> & _).
  simpl in Hp. rewrite Hl in Hp.
  pure_step E Ech. destruct a0; [|done]. cbn [negb] in E.
  pure_step E Edup. destruct a0; [|done]. cbn [negb] in E.
  pose proof (children_loop_sound w l nd cs Hl Hc _ _ Ech) as Hch.
  pose proof (duplicate_loop_sound w l nd cs Hl Hc _ _ _ Edup) as Hdup.
  pose proof (order_loop_sound w l nd cs Hl Hc _ _ _ _ (Z.le_refl 0) E) as Hord.
  assert (∀ i j ci cj, i < j → cs !! i = Some ci → cs !! j = Some cj →
            ∃ pi pj, child_path w ci = Some pi ∧ child_path w cj = Some pj ∧
                     comparePath pi pj ≠ 0%Z) as Hdistinct.
  { intros i j ci cj Hij Hi Hj.
    apply lookup_lt_Some in Hj as Hjlt. unfold Node_T in *.
    destruct (Hdup i j) as (ci' & cj' & pi & pj & ? & ? & ? & ? & ?).
    { apply elem_of_seq. lia. }
    { lia. }
    exists pi, pj. by simplify_eq. }
  exists l, nd, p, cs. repeat split; try done.
  - by destruct cs.
  - intros lp Hlp. unfold Node_getParent in Epar.
    apply bind_inv in Epar as (nd' & ? & Eld & Epar).
    apply load_inv in Eld as (? & [= <-] & Hl' & ->).
    injection Epar as <-. assert (nd' = nd) as -> by congruence.
    rewrite Hlp in Eok. rewrite decide_True in Eok by done.
    pure_step Eok Epp. apply Node_getPath_inv in Epp as [_ Hpp].
    destruct (decide (a = None)); [done|]. destruct a as [pp|]; [|done].
    pure_step Eok Esh. pure_step Eok Ed.
    unfold Path_getSharedPrefixDepth, Path_getDepth, bind in Esh, Ed.
    cbn [nonnull ret] in Esh, Ed. unfold ret in Esh, Ed, Eok. simplify_eq.
    exists pp. split; [done|]. by apply bool_decide_eq_true in Eok.
  - intros i c Hi. apply lookup_lt_Some in Hi as Hlt. unfold Node_T in *.
    destruct (Hch i) as (lc & ndc & ? & ? & ?); [apply elem_of_seq; lia|].
    exists lc, ndc. by simplify_eq.
  - intros Hsz i ci cj Hi Hj.
    apply lookup_lt_Some in Hj as Hlt. unfold Node_T in *.
    destruct (Hdistinct i (S i) ci cj) as (pi & pj & Hpi & Hpj & Hne);
      [lia|done..|].
    destruct (Hord (Z.of_nat i)) as (c1 & c2 & p1 & p2 & H1 & H2 & ? & ? & ?).
    { unfold size_sub, SIZE_MODULUS in *.
      rewrite Z.mod_small by lia. lia. }
    rewrite Nat2Z.id in H1.
    replace (Z.to_nat (Z.of_nat i + 1)) with (S i) in H2 by lia.
    exists pi, pj. simplify_eq. repeat split; try done. lia.
Qed.

Lemma Node_getPath_child c p w :
  child_path w c = Some p → Node_getPath c w = Ret (Some p) w.
Proof.
  unfold child_path. destruct c as [lc|]; [|done].
  destruct (nodes w !! lc) as [ndc|] eqn:Hlc; [|done]. intros Hp.
  rewrite (Node_getPath_at lc ndc w Hlc). by rewrite Hp.
Qed.

Section DirectoryAccepted.

Variables (w : world) (l : loc) (nd : node) (cs : list Node_T).
Hypothesis Hl : nodes w !! l = Some nd.
Hypothesis Ht : eType nd = FT_DIR.
Hypothesis Hc : oChildren nd = Some cs.

Lemma Node_getChild_any i :
  ∃ st, Node_getChild (Some l) i w = Ret (st, default None (cs !! i)) w.
Proof.
  unfold Node_getChild, bind, load. rewrite Hl.
  rewrite decide_True by done. rewrite Hc. cbn [nonnull ret].
  unfold Node_T in *. destruct (cs !! i); eauto.
Qed.

Lemma children_loop_complete js :
  (∀ i, i ∈ js →
     ∃ lc ndc, cs !! i = Some (Some lc) ∧ nodes w !! lc = Some ndc ∧
               oNParent ndc = Some l) →
  CheckerDT_children_loop (Some l) js w = Ret true w.
Proof.
  induction js as [|j js IH]; intros H; [done|].
  cbn [CheckerDT_children_loop].
  destruct (H j) as (lc & ndc & Hj & Hlc & Hp); [apply list_elem_of_here|].
  rewrite (bind_eq _ _ _ _ _ (Node_getChild_at l nd cs j _ w Hl Ht Hc Hj)).
  rewrite decide_False by (intros [?|?]; done).
  unfold Node_getParent, bind at 1, bind at 1, load. rewrite Hlc.
  cbn [ret]. rewrite Hp. rewrite decide_False by (by intros []).
  apply IH. intros i Hi. apply H. by apply list_elem_of_further.
Qed.

Lemma duplicate_inner_complete c1 p1 js :
  child_path w c1 = Some p1 →
  (∀ j, j ∈ js →
     ∃ c2 p2, cs !! j = Some c2 ∧ child_path w c2 = Some p2 ∧
              comparePath p1 p2 ≠ 0%Z) →
  CheckerDT_duplicate_inner (Some l) c1 js w = Ret true w.
Proof.
  intros H1. induction js as [|j js IH]; intros H; [done|].
  cbn [CheckerDT_duplicate_inner].
  destruct (H j) as (c2 & p2 & Hj & H2 & Hne); [apply list_elem_of_here|].
  rewrite (bind_eq _ _ _ _ _ (Node_getChild_at l nd cs j _ w Hl Ht Hc Hj)).
  rewrite (bind_eq _ _ _ _ _ (Node_getPath_child _ _ _ H1)).
  rewrite (bind_eq _ _ _ _ _ (Node_getPath_child _ _ _ H2)).
  unfold Path_comparePath. cbn [nonnull bind ret].
  rewrite decide_False by done.
  apply IH. intros i Hi. apply H. by apply list_elem_of_further.
Qed.

Lemma duplicate_loop_complete k indices :
  (∀ i j, i ∈ indices → i < j < k →
     ∃ ci cj pi pj, cs !! i = Some ci ∧ cs !! j = Some cj ∧
                    child_path w ci = Some pi ∧ child_path w cj = Some pj ∧
                    comparePath pi pj ≠ 0%Z) →
  CheckerDT_duplicate_loop (Some l) k indices w = Ret true w.
Proof.
  induction indices as [|i indices IH]; intros H; [done|].
  cbn [CheckerDT_duplicate_loop].
  destruct (Node_getChild_any i) as [st Eg].
  rewrite (bind_eq _ _ _ _ _ Eg).
  assert (CheckerDT_duplicate_inner (Some l) (default None (cs !! i))
            (seq (i + 1) (k - (i + 1))) w = Ret true w) as Ei.
  { destruct (decide (i + 1 < k)) as [Hlt|Hge].
    - destruct (H i (i + 1)) as (ci & cj & pi & pj & Hi & _ & Hpi & _);
        [apply list_elem_of_here|lia|].
      unfold Node_T in *. rewrite Hi. cbn [default].
      apply (duplicate_inner_complete ci pi); [done|].
      intros j Hj%elem_of_seq.
      destruct (H i j) as (ci' & cj' & pi' & pj' & Hi' & Hj' & Hpi' & Hpj' & ?);
        [apply list_elem_of_here|lia|].
      exists cj', pj'. simplify_eq. by repeat split.
    - replace (k - (i + 1)) with 0 by lia. done. }
  rewrite (bind_eq _ _ _ _ _ Ei). cbn [negb].
  apply IH. intros i' j Hi' Hj. apply H; [by apply list_elem_of_further|done].
Qed.

Lemma order_loop_complete fuel i bound :
  (0 ≤ i)%Z → (Z.max 0 (bound - i) < Z.of_nat fuel)%Z →
  (∀ k, (i ≤ k < bound)%Z →
     ∃ c1 c2 p1 p2, cs !! Z.to_nat k = Some c1 ∧
                    cs !! Z.to_nat (k + 1) = Some c2 ∧
                    child_path w c1 = Some p1 ∧ child_path w c2 = Some p2 ∧
                    (comparePath p1 p2 ≤ 0)%Z) →
  CheckerDT_order_loop fuel (Some l) i bound w = Ret true w.
Proof.
  revert i. induction fuel as [|fuel IH]; intros i Hi Hfuel H.
  { lia. }
  cbn [CheckerDT_order_loop].
  destruct (decide (i < bound)%Z) as [Hlt|]; [|done].
  destruct (H i) as (c1 & c2 & p1 & p2 & H1 & H2 & Hp1 & Hp2 & Hle); [lia|].
  rewrite (bind_eq _ _ _ _ _ (Node_getChild_at l nd cs _ _ w Hl Ht Hc H1)).
  assert (c1 ≠ None) by (by intros ->). assert (c2 ≠ None) by (by intros ->).
  rewrite decide_False by (intros [?|?]; done).
  rewrite (bind_eq _ _ _ _ _ (Node_getChild_at l nd cs _ _ w Hl Ht Hc H2)).
  rewrite decide_False by (intros [?|?]; done).
  rewrite (bind_eq _ _ _ _ _ (Node_getPath_child _ _ _ Hp1)).
  rewrite (bind_eq _ _ _ _ _ (Node_getPath_child _ _ _ Hp2)).
  rewrite decide_False by (intros [?|?]; done).
  unfold Path_comparePath. cbn [nonnull bind ret].
  rewrite decide_False by lia.
  apply IH; [lia|lia|]. intros k Hk. apply H. lia.
Qed.

End DirectoryAccepted.

Lemma CheckerDT_Node_isValid_complete l w :
  (∀ nd cs, nodes w !! l = Some nd → oChildren nd = Some cs →
            (Z.of_nat (length cs) ≤ SIZE_MODULUS)%Z) →
  accepted_node w l → CheckerDT_Node_isValid (Some l) w = Ret true w.
Proof.
  intros Hsz (nd & p & cs & Hl & Hp & Ht & Hc & Hne & Hpar & Hch & Hdis & Hord).
  specialize (Hsz nd cs Hl Hc).
  unfold CheckerDT_Node_isValid. rewrite decide_False by done.
  rewrite (bind_eq _ _ _ _ _ (Node_getPath_at l nd w Hl)), Hp.
  rewrite decide_False by done.
  unfold Node_getParent at 1, bind at 1, bind at 1, load. rewrite Hl.
  cbn [ret].
  assert ((if decide (oNParent nd ≠ None)
           then oPPPath ← Node_getPath (oNParent nd);
                if decide (oPPPath = None) then ret false else
                shared ← Path_getSharedPrefixDepth (Some p) oPPPath;
                d ← Path_getDepth (Some p);
                ret (bool_decide (Z.of_nat shared = size_sub (Z.of_nat d) 1))
           else ret true) w = Ret true w) as Epar.
  { destruct (oNParent nd) as [lp|] eqn:Hlp.
    - rewrite decide_True by done.
      destruct (Hpar lp eq_refl) as (pp & Hpp & Hsh).
      rewrite (bind_eq _ _ _ _ _ (Node_getPath_child _ _ _ Hpp)).
      rewrite decide_False by done.
      unfold Path_getSharedPrefixDepth, Path_getDepth.
      cbn [nonnull bind ret]. by rewrite bool_decide_eq_true_2.
    - by rewrite decide_False by (by intros []). }
  rewrite (bind_eq _ _ _ _ _ Epar). cbn [negb].
  rewrite (bind_eq _ _ _ _ _ (Node_getNumChildren_at l nd cs w Hl Ht Hc)).
  assert (CheckerDT_children_loop (Some l) (seq 0 (length cs)) w
          = Ret true w) as Ech.
  { apply (children_loop_complete w l nd cs Hl Ht Hc).
    intros i [_ Hi]%elem_of_seq.
    destruct (lookup_lt_is_Some_2 cs i Hi) as [c Hci].
    destruct (Hch i c Hci) as (lc & ndc & -> & ? & ?). by exists lc, ndc. }
  rewrite (bind_eq _ _ _ _ _ Ech). cbn [negb].
  assert (CheckerDT_duplicate_loop (Some l) (length cs) (seq 0 (length cs)) w
          = Ret true w) as Edup.
  { apply (duplicate_loop_complete w l nd cs Hl Ht Hc).
    intros i j [_ Hi]%elem_of_seq Hij.
    destruct (lookup_lt_is_Some_2 cs i ltac:(lia)) as [ci Hci].
    destruct (lookup_lt_is_Some_2 cs j ltac:(lia)) as [cj Hcj].
    destruct (Hdis i j ci cj) as (pi & pj & ? & ? & ?); [lia|done..|].
    by exists ci, cj, pi, pj. }
  rewrite (bind_eq _ _ _ _ _ Edup). cbn [negb].
  assert (length cs ≠ 0) by (by destruct cs).
  apply (order_loop_complete w l nd cs Hl Ht Hc); [done|..].
  - unfold size_sub, SIZE_MODULUS in *. rewrite Z.mod_small by lia. lia.
  - intros k Hk. unfold size_sub, SIZE_MODULUS in *.
    rewrite Z.mod_small in Hk by lia.
    destruct (lookup_lt_is_Some_2 cs (Z.to_nat k) ltac:(lia)) as [c1 H1].
    destruct (lookup_lt_is_Some_2 cs (S (Z.to_nat k)) ltac:(lia)) as [c2 H2].
    destruct (Hord _ c1 c2 H1 H2) as (p1 & p2 & ? & ? & ?).
    exists c1, c2, p1, p2. repeat split; try done.
    by replace (Z.to_nat (k + 1)) with (S (Z.to_nat k)) by lia.
Qed.

(** X4 (checker).  [CheckerDT_Node_isValid] accepts a node exactly when it
    is a live directory with a path and at least one child, whose path
    shares with its parent's all but the last component, whose children are
    live nodes that point back to it, no two of them with equal paths and
    each one not after the next (the children array being no longer than
    [size_t] can count). *)
Theorem CheckerDT_Node_isValid_accepts_exactly l w :
  (∀ nd cs, nodes w !! l = Some nd → oChildren nd = Some cs →
            (Z.of_nat (length cs) ≤ SIZE_MODULUS)%Z) →
  CheckerDT_Node_isValid (Some l) w = Ret true w ↔ accepted_node w l.
Proof.
  intros Hsz. split; [|by apply CheckerDT_Node_isValid_complete].
  intros (_ & l' & nd & p & cs & [= <-] & Hl & Hp & Ht & Hc & Hne & Hpar &
          Hch & Hdis & Hord)%CheckerDT_Node_isValid_sound.
  exists nd, p, cs. repeat split; try done.
  intros i ci cj Hi Hj.
  destruct (Hord (Hsz nd cs Hl Hc) i ci cj Hi Hj) as (pi & pj & ? & ? & ?).
  exists pi, pj. repeat split; try done. lia.
Qed.

Lemma stateless_treeCheck_loop check n js c :
  (∀ n c, stateless (check n c)) →
  stateless (CheckerDT_treeCheck_loop check n js c).
Proof.
  intros H. revert c. induction js as [|j js IH]; intros c; simpl;
    stateless_tac.
Qed.

Lemma stateless_treeCheck_rec fuel n c :
  stateless (CheckerDT_treeCheck_rec fuel n c).
Proof.
  revert n c. induction fuel as [|fuel IH]; intros n c; simpl.
  - intros w a w'. discriminate.
  - stateless_tac; try apply stateless_CheckerDT_Node_isValid.
    by apply stateless_treeCheck_loop.
Qed.

(** X5 (checker).  The checker only reads: whatever it returns,
    [CheckerDT_isValid] leaves the store exactly as it found it. *)
Theorem CheckerDT_isValid_only_reads b r c w v w' :
  CheckerDT_isValid b r c w = Ret v w' → w' = w.
Proof.
  assert (stateless (CheckerDT_isValid b r c)) as H; [|apply H].
  unfold CheckerDT_isValid. stateless_tac.
  intros w0 a w1 E. unfold CheckerDT_treeCheck in E.
  by apply stateless_treeCheck_rec in E.
Qed.

(* ================================================================== *)
(** * The node module on its own *)

Lemma Node_hasChild_loop_spec p cs w :
  (∀ c, c ∈ cs → is_Some (child_path w c)) →
  ∃ b, Node_hasChild_loop (Some p) cs w = Ret b w ∧
       (b = true ↔ ∃ c q, c ∈ cs ∧ child_path w c = Some q ∧
                          comparePath q p = 0%Z).
Proof.
  induction cs as [|c cs IH]; intros Hcs.
  - exists false. split; [done|]. split; [done|].
    by intros (c & q & ?%elem_of_nil & _).
  - destruct (Hcs c) as [q Hq]; [apply list_elem_of_here|].
    assert (Node_getPath c w = Ret (Some q) w) as Egp.
    { unfold child_path in Hq. destruct c as [lc|]; [|done].
      destruct (nodes w !! lc) as [ndc|] eqn:Hlc; [|done].
      rewrite (Node_getPath_at lc ndc w Hlc). by rewrite Hq. }
    cbn [Node_hasChild_loop]. rewrite (bind_eq _ _ _ _ _ Egp).
    unfold Path_comparePath. cbn [nonnull bind ret].
    destruct (decide (comparePath q p = 0%Z)) as [Heq|Hne].
    + exists true. split; [done|]. split; [|done]. intros _.
      exists c, q. split; [apply list_elem_of_here|done].
    + destruct IH as (b & E & Hb).
      { intros c' Hc'. apply Hcs. by apply list_elem_of_further. }
      exists b. split; [done|]. rewrite Hb. split.
      * intros (c' & q' & ? & ? & ?). exists c', q'.
        split; [by apply list_elem_of_further|done].
      * intros (c' & q' & [->|?]%elem_of_cons & Hq' & ?).
        -- congruence.
        -- by exists c', q'.
Qed.

(** X6 (Node_hasChild).  On a directory whose children are live nodes with
    paths, [Node_hasChild] returns TRUE exactly when some child's path
    compares equal to the path asked for, and leaves the store as it was. *)
Theorem Node_hasChild_finds_equal_path l nd cs p w :
  nodes w !! l = Some nd → eType nd = FT_DIR → oChildren nd = Some cs →
  (∀ c, c ∈ cs → is_Some (child_path w c)) →
  ∃ b, Node_hasChild (Some l) (Some p) w = Ret b w ∧
       (b = true ↔ ∃ c q, c ∈ cs ∧ child_path w c = Some q ∧
                          comparePath q p = 0%Z).
Proof.
  intros Hl Ht Hc Hcs. unfold Node_hasChild, bind, load. rewrite Hl.
  cbn [nonnull ret]. rewrite decide_True by done. rewrite Hc.
  cbn [nonnull ret]. by apply Node_hasChild_loop_spec.
Qed.

(** X7 (Node_getChild).  [Node_getChild] succeeds exactly below the number
    [Node_getNumChildren] reports: below it the status is [SUCCESS]; from
    it on the status is [NO_SUCH_PATH] and [NULL] is written to the
    result. *)
Theorem Node_getChild_within_bounds n k w :
  Node_getNumChildren n w = Ret k w →
  ∀ i, (i < k → ∃ c, Node_getChild n i w = Ret (SUCCESS, c) w) ∧
       (k ≤ i → Node_getChild n i w = Ret (NO_SUCH_PATH, None) w).
Proof.
  intros (l & nd & cs & -> & Hl & Ht & Hc & -> & _)%Node_getNumChildren_inv i.
  split.
  - intros Hi. destruct (lookup_lt_is_Some_2 cs i Hi) as [c Hci].
    exists c. by apply (Node_getChild_at l nd cs).
  - intros Hi. unfold Node_getChild, bind, load. rewrite Hl.
    rewrite decide_True by done. rewrite Hc. cbn [nonnull ret].
    unfold Node_T in *. by rewrite (lookup_ge_None_2 cs i Hi).
Qed.

Section RemoveChild.

Variables (w : world) (l : loc) (nd : node) (cs : list Node_T) (c : loc).
Hypothesis Hl : nodes w !! l = Some nd.
Hypothesis Hc : oChildren nd = Some cs.

Lemma Node_removeChild_loop_miss k n :
  k + n = length cs → (∀ j, k ≤ j → cs !! j ≠ Some (Some c)) →
  Node_removeChild_loop (Some l) (Some c) (seq k n) w = Ret NO_SUCH_PATH w.
Proof.
  revert k. induction n as [|n IH]; intros k Hk Hmiss; [done|].
  cbn [seq Node_removeChild_loop]. unfold bind at 1, load. rewrite Hl.
  unfold bind at 1. rewrite Hc. cbn [nonnull ret].
  destruct (lookup_lt_is_Some_2 cs k ltac:(lia)) as [x Hx].
  unfold Node_T in *. rewrite Hx.
  destruct (decide (x = Some c)) as [->|_]; [by destruct (Hmiss k)|].
  apply IH; [lia|]. intros j Hj. apply Hmiss. lia.
Qed.

Lemma Node_removeChild_loop_hit k n i :
  k + n = length cs → k ≤ i → cs !! i = Some (Some c) →
  (∀ j, k ≤ j < i → cs !! j ≠ Some (Some c)) →
  Node_removeChild_loop (Some l) (Some c) (seq k n) w
  = Ret SUCCESS
      (set_nodes
         (insert l (Node (oPPath nd) (oNParent nd) (Some (delete i cs))
                      (eType nd) (pcContents nd))) w).
Proof.
  revert k. induction n as [|n IH]; intros k Hk Hki Hi Hmiss.
  { apply lookup_lt_Some in Hi. unfold Node_T in *. lia. }
  cbn [seq Node_removeChild_loop]. unfold bind at 1, load. rewrite Hl.
  unfold bind at 1. rewrite Hc. cbn [nonnull ret].
  destruct (lookup_lt_is_Some_2 cs k ltac:(lia)) as [x Hx].
  unfold Node_T in *. rewrite Hx.
  destruct (decide (x = Some c)) as [->|Hne].
  - assert (k = i) as ->.
    { destruct (decide (k = i)); [done|]. destruct (Hmiss k); [lia|done]. }
    unfold DynArray_removeAt, bind, load, store. rewrite Hl, Hc.
    cbn [nonnull ret]. apply lookup_lt_Some in Hi. unfold Node_T in *.
    rewrite decide_False by lia. by rewrite Hl.
  - apply IH; [lia| |done|].
    + destruct (decide (k = i)) as [->|]; [congruence|lia].
    + intros j Hj. apply Hmiss. lia.
Qed.

End RemoveChild.

(** X8 (Node_removeChild).  On a node with a children array,
    [Node_removeChild] returns [NO_SUCH_PATH] and changes nothing when the
    child is not in the array; otherwise it returns [SUCCESS] and takes the
    first occurrence of the child out of the array, keeping the order of
    the others and touching nothing else. *)
Theorem Node_removeChild_removes_first l nd cs c w :
  nodes w !! l = Some nd → oChildren nd = Some cs →
  (Some c ∉ cs → Node_removeChild (Some l) (Some c) w = Ret NO_SUCH_PATH w) ∧
  (∀ i, cs !! i = Some (Some c) → (∀ j, j < i → cs !! j ≠ Some (Some c)) →
        Node_removeChild (Some l) (Some c) w
        = Ret SUCCESS
            (set_nodes
               (insert l (Node (oPPath nd) (oNParent nd)
                            (Some (delete i cs)) (eType nd) (pcContents nd)))
               w)).
Proof.
  intros Hl Hc.
  assert (∀ r, Node_removeChild_loop (Some l) (Some c) (seq 0 (length cs)) w = r →
               Node_removeChild (Some l) (Some c) w = r) as Hloop.
  { intros r <-. unfold Node_removeChild, bind at 1, load. rewrite Hl.
    rewrite decide_False by done. unfold bind at 1. rewrite Hc. done. }
  split.
  - intros Hmiss. apply Hloop.
    apply (Node_removeChild_loop_miss w l nd cs c Hl Hc); [done|].
    intros j _ Hj. apply Hmiss. by eapply list_elem_of_lookup_2.
  - intros i Hi Hfirst. apply Hloop.
    apply (Node_removeChild_loop_hit w l nd cs c Hl Hc); [done|lia|done|].
    intros j Hj. apply Hfirst. lia.
Qed.

(** X9 (Node_setContents, Node_getContents).  After a successful
    [Node_setContents], [Node_getContents] returns a buffer that holds the
    string given (the empty string for a NULL argument). *)
Theorem Node_setContents_then_getContents n c w w' :
  fresh w → Node_setContents n c w = Ret true w' →
  ∃ b src, Node_getContents n w' = Ret (Some b) w' ∧
           string_at w' (Some b) = Some src ∧
           (c = None ∧ src = [] ∨ c ≠ None ∧ string_at w c = Some src).
Proof.
  intros [_ Hfresh] E.
  apply Node_setContents_success in E
    as (l & nd & src & -> & Hl & Ht & Hsrc & Hn & Hb).
  exists (brk w), src. split; [|split].
  - unfold Node_getContents, bind, load. rewrite Hn, lookup_insert_eq.
    cbn [ret eType pcContents]. by rewrite decide_False by (by rewrite Ht; intros []).
  - unfold string_at. cbn [mbind option_bind]. rewrite Hb.
    assert (c_string (src ++ [NUL]) = Some src) as Hs.
    { destruct Hsrc as [[_ ->]|[Hs _]]; [done|].
      unfold string_at in Hs. destruct c as [lc|]; [|done]. simpl in Hs.
      destruct (bufs w !! lc) as [bs|]; [|done]. simpl in Hs.
      clear -Hs. revert src Hs. induction bs as [|x bs IH]; intros src Hs; [done|].
      simpl in Hs. destruct (decide (x = NUL)) as [->|Hx].
      - by injection Hs as <-.
      - destruct (c_string bs) as [s|] eqn:Hbs; [|done]. injection Hs as <-.
        simpl. rewrite decide_False by done. by rewrite (IH s eq_refl). }
    destruct (pcContents nd) as [b|] eqn:Hc.
    + specialize (Hfresh l nd b Hl Hc).
      rewrite lookup_delete_ne, lookup_insert_eq by lia. done.
    + by rewrite lookup_insert_eq.
  - destruct Hsrc as [[-> ->]|[? ?]]; auto.
Qed.

(** X10 (Node_setContents).  When [Node_setContents] returns 0, the node is
    not a file or an allocation failed, and nothing in the store has
    changed: the node keeps the contents it had. *)
Theorem Node_setContents_failure_changes_nothing n c w w' :
  Node_setContents n c w = Ret false w' →
  fated w w' ∧
  ∃ l nd, n = Some l ∧ nodes w !! l = Some nd ∧
          (eType nd ≠ FT_FILE ∨ false ∈ fate w).
Proof.
  intros E. unfold Node_setContents in E.
  inv_step E. apply load_inv in E0 as (l & -> & Hl & ->).
  inv_step E.
  { inv_step E. split; [apply fated_refl|]. exists l, a. auto. }
  inv_step E.
  assert (w0 = w) as ->.
  { destruct c; [by apply read_string_inv in E0 as [_ ->] | by inv_step E0]. }
  inv_step E. apply malloc_ok_inv in E1 as [Hf Hfail].
  inv_step E; [|repeat inv_step E].
  inv_step E. split; [done|]. exists l, a. split; [done|]. split; [done|].
  right. apply Hfail. by destruct a1.
Qed.

Lemma stateless_Path_isPrefix p q : stateless (Path_isPrefix p q).
Proof. unfold Path_isPrefix. stateless_tac. Qed.

Lemma stateless_Node_hasChild_loop p cs : stateless (Node_hasChild_loop p cs).
Proof. induction cs as [|c cs IH]; simpl; stateless_tac. Qed.

#[local] Hint Resolve stateless_Path_isPrefix stateless_Node_hasChild_loop
  : stateless.

Lemma stateless_Node_hasChild n p : stateless (Node_hasChild n p).
Proof. unfold Node_hasChild. stateless_tac. Qed.

#[local] Hint Resolve stateless_Node_hasChild : stateless.

Lemma Node_hasChild_loop_false p cs w w' :
  Node_hasChild_loop p cs w = Ret false w' →
  ∀ c, c ∈ cs →
    ∃ q q', p = Some q ∧ child_path w c = Some q' ∧ comparePath q' q ≠ 0%Z.
Proof.
  induction cs as [|c' cs IH]; intros E c Hc; [by apply elem_of_nil in Hc|].
  cbn [Node_hasChild_loop] in E.
  pure_step E Ep. apply Node_getPath_inv in Ep as [_ Hp].
  pure_step E Ec. apply Path_comparePath_inv in Ec as (q' & q & -> & -> & ->).
  destruct (decide (comparePath q' q = 0%Z)); [done|].
  apply elem_of_cons in Hc as [->|Hc]; [by exists q, q'|by apply IH].
Qed.

(** X11 (Node_new).  What [Node_new] promises.  A return other than
    [SUCCESS] gives no node and changes nothing in the store.  On
    [SUCCESS] the store has one more node, at a new address, with a copy of
    the path, the parent and the type given, an empty children array for a
    directory and the empty string for a file; the path has depth 1 when
    there is no parent, and otherwise it is one level deeper than the
    parent's path, starts with it, and no child of the parent has an equal
    path.  The parent's children array is not touched: linking the node is
    left to the caller. *)
Theorem Node_new_contract p par t w st r w' :
  Node_new p par t w = Ret (st, r) w' →
  (st ≠ SUCCESS → r = None ∧ fated w w') ∧
  (st = SUCCESS →
   ∃ q l,
     p = Some q ∧ r = Some l ∧ brk w ≤ l ∧
     nodes w' =
       <[ l := Node (Some q) par
                 (match t with FT_DIR => Some [] | FT_FILE => None end) t
                 (match t with FT_DIR => None | FT_FILE => Some (brk w) end) ]>
         (nodes w) ∧
     bufs w' =
       match t with
       | FT_DIR => bufs w
       | FT_FILE => <[ brk w := [NUL] ]> (bufs w)
       end ∧
     match par with
     | None => length q = 1
     | Some lp =>
         ∃ ndp pp cs,
           nodes w !! lp = Some ndp ∧ eType ndp = FT_DIR ∧
           oPPath ndp = Some pp ∧ oChildren ndp = Some cs ∧
           length q = length pp + 1 ∧ isPrefix pp q = true ∧
           ∀ c, c ∈ cs →
             ∃ q', child_path w c = Some q' ∧ comparePath q' q ≠ 0%Z
     end).
Proof.
  intros E. unfold Node_new in E.
  pure_step E Ed. unfold Path_getDepth in Ed.
  destruct p as [q|]; [|done]. cbn [nonnull bind ret] in Ed.
  injection Ed as <-.
  destruct (decide (length q = 0)) as [|Hq0].
  { inv_step E. split; [|done]. intros _. split; [done|apply fated_refl]. }
  pure_step E Eearly. destruct a as [early|].
  { inv_step E. split; [intros _|intros ->].
    - split; [done|apply fated_refl].
    - exfalso. destruct par as [lp|].
      + repeat inv_step Eearly; repeat case_decide; split_bools; simplify_eq.
      + inv_step Eearly. by case_decide. }
  assert (match par with
          | None => length q = 1
          | Some lp =>
              ∃ ndp pp cs,
                nodes w !! lp = Some ndp ∧ eType ndp = FT_DIR ∧
                oPPath ndp = Some pp ∧ oChildren ndp = Some cs ∧
                length q = length pp + 1 ∧ isPrefix pp q = true ∧
                ∀ c, c ∈ cs →
                  ∃ q', child_path w c = Some q' ∧ comparePath q' q ≠ 0%Z
          end) as Hpar.
  { destruct par as [lp|].
    - pure_step Eearly Epp. unfold Node_getPath in Epp.
      apply bind_inv in Epp as (ndp & ? & Eld & Epp).
      apply load_inv in Eld as (? & [= <-] & Hlp & ->). injection Epp as <-.
      pure_step Eearly Edp. unfold Path_getDepth in Edp.
      destruct (oPPath ndp) as [pp|] eqn:Hpp; [|done].
      cbn [nonnull bind ret] in Edp. injection Edp as <-.
      destruct (decide (length q ≠ length pp + 1)) as [|Hlen]; [by inv_step Eearly|].
      pure_step Eearly Epre. unfold Path_isPrefix in Epre.
      cbn [nonnull bind ret] in Epre. injection Epre as <-.
      destruct (isPrefix pp q) eqn:Hpre; [|by inv_step Eearly].
      cbn [negb] in Eearly.
      pure_step Eearly Ehas. destruct a; [by inv_step Eearly|].
      unfold Node_hasChild in Ehas.
      apply bind_inv in Ehas as (ndp' & ? & Eld & Ehas).
      apply load_inv in Eld as (? & [= <-] & Hlp' & ->).
      assert (ndp' = ndp) as -> by congruence.
      cbn [nonnull bind ret] in Ehas.
      destruct (decide (eType ndp = FT_DIR)) as [Htp|]; [|done].
      destruct (oChildren ndp) as [cs|] eqn:Hcs; [|done].
      cbn [nonnull bind ret] in Ehas.
      exists ndp, pp, cs. repeat split; try done; [lia|].
      intros c Hc.
      destruct (Node_hasChild_loop_false _ _ _ _ Ehas c Hc)
        as (q0 & q' & [= <-] & ? & ?).
      by exists q'.
    - inv_step Eearly. case_decide; [done|]. lia. }
  inv_step E. apply malloc_ok_inv in E0 as [Hf1 Hfail1].
  inv_step E.
  { inv_step E. split; [|done]. by intros _. }
  inv_step E. unfold Path_copy in E0.
  apply bind_inv in E0 as (? & ? & Eq & E0). injection Eq as <- <-.
  apply bind_inv in E0 as (ok2 & w2 & E2 & E0).
  apply malloc_ok_inv in E2 as [Hf2 Hfail2]. unfold ret in E0.
  injection E0 as <- <-.
  pose proof (fated_trans _ _ _ Hf1 Hf2) as Hf12.
  inv_step E.
  { inv_step E. split; [|done]. by intros _. }
  destruct ok2; [|done].
  destruct t.
  - inv_step E. apply malloc_ok_inv in E0 as [Hf3 Hfail3].
    pose proof (fated_trans _ _ _ Hf12 Hf3) as Hf.
    inv_step E.
    { inv_step E. split; [|done]. by intros _. }
    inv_step E. unfold new_node in E0. injection E0 as <- <-.
    inv_step E. split; [done|]. intros _.
    destruct Hf as (Hn & Hb & _ & _ & Hk & _).
    exists q, (brk w). rewrite <- Hk.
    repeat split; try done. simpl. by rewrite Hn.
  - inv_step E. apply malloc_ok_inv in E0 as [Hf3 Hfail3].
    pose proof (fated_trans _ _ _ Hf12 Hf3) as Hf.
    inv_step E.
    { inv_step E. split; [|done]. by intros _. }
    inv_step E. unfold new_buf in E0. injection E0 as <- <-.
    inv_step E. unfold new_node in E0. injection E0 as <- <-.
    inv_step E. split; [done|]. intros _.
    destruct Hf as (Hn & Hb & _ & _ & Hk & _).
    exists q, (S (brk w)). rewrite <- Hk.
    repeat split; try done; simpl; [lia|by rewrite Hn|by rewrite Hb].
Qed.

(* ================================================================== *)
(** * The tree interface *)

Section Interface.

Variable Path_parse : string → option path.

(** The first insertion: a directory of depth 1 becomes the root. *)
Lemma FT_insertDir_root s p w :
  bIsInitialized w = true → oRoot w = None →
  Path_parse s = Some p → length p = 1 → false ∉ fate w →
  ∃ f, (false ∈ f → false ∈ fate w) ∧
       FT_insertDir Path_parse s w
       = Ret SUCCESS
           (set_oRoot (Some (brk w))
              (set_brk (S (brk w))
                 (set_nodes (insert (brk w) (root_dir p)) (set_fate f w)))).
Proof.
  intros Hi Hr Hp Hlen Hcalm.
  assert (wp (FT_insertDir Path_parse s)
            (λ st w', ∃ f, (false ∈ f → false ∈ fate w) ∧ st = SUCCESS ∧
               w' = set_oRoot (Some (brk w))
                      (set_brk (S (brk w))
                         (set_nodes (insert (brk w) (root_dir p))
                            (set_fate f w)))) w) as H.
  { unfold FT_insertDir. wp_steps; [|done].
    apply wp_Path_create. intros o f Hf [Ho|[_ ?]]; [|done].
    rewrite Hp in Ho. subst o. wp_steps.
    apply wp_Node_new_root; [done| |].
    - intros f' Hf'. wp_steps. exists f'. split; [|done]. simpl in *. tauto.
    - intros f' Hf' Hfail. simpl in *. tauto. }
  apply wp_inv in H as (st & w' & E & f & Hf & -> & ->). by exists f.
Qed.

(** X12 (FT_insertDir).  The first insertion creates the root: on an
    initialised tree without root, for a path of depth 1 and with no
    allocation failing, [FT_insertDir] returns [SUCCESS] and the root is a
    new directory node with this path, without parent and without
    children; no other node and no buffer is touched. *)
Theorem FT_insertDir_creates_the_root s p w :
  bIsInitialized w = true → oRoot w = None →
  Path_parse s = Some p → length p = 1 → false ∉ fate w →
  ∃ w', FT_insertDir Path_parse s w = Ret SUCCESS w' ∧
        oRoot w' = Some (brk w) ∧
        nodes w' = <[ brk w := root_dir p ]> (nodes w) ∧
        bufs w' = bufs w ∧ bIsInitialized w' = true ∧
        (false ∉ fate w').
Proof.
  intros Hi Hr Hp Hlen Hcalm.
  destruct (FT_insertDir_root s p w) as (f & Hf & E); try done.
  eexists. split; [exact E|]. repeat split; try done. simpl. tauto.
Qed.

(** X13 (FT_insertDir, FT_rmDir).  Inserting the first directory and removing
    it again by the same path brings the store back: both calls return
    [SUCCESS], the tree is initialised and empty, and the nodes and buffers
    are those from before the insertion. *)
Theorem FT_insertDir_rmDir_round_trip s p w :
  bIsInitialized w = true → oRoot w = None →
  Path_parse s = Some p → length p = 1 → false ∉ fate w →
  nodes w !! brk w = None →
  ∃ w1 w2,
    FT_insertDir Path_parse s w = Ret SUCCESS w1 ∧
    FT_rmDir Path_parse s w1 = Ret SUCCESS w2 ∧
    bIsInitialized w2 = true ∧ oRoot w2 = None ∧
    nodes w2 = nodes w ∧ bufs w2 = bufs w.
Proof.
  intros Hi Hr Hp Hlen Hcalm Hnew.
  destruct (FT_insertDir_root s p w) as (f & Hf & E); try done.
  set (w1 := set_oRoot (Some (brk w))
               (set_brk (S (brk w))
                  (set_nodes (insert (brk w) (root_dir p)) (set_fate f w)))) in *.
  assert (nodes w1 !! brk w = Some (root_dir p)) as Hl
    by apply lookup_insert_eq.
  destruct (FT_rmDir_root Path_parse s p p (brk w) [] (root_dir p) w1)
    as [f' E']; try done.
  - by apply (laid_out_Dir _ _ _ (root_dir p)).
  - apply NoDup_singleton.
  - apply NoDup_nil_2.
  - by destruct p.
  - apply comparePath_refl.
  - simpl. tauto.
  - exists w1. eexists. split; [done|]. split; [exact E'|].
    repeat split; try done. simpl.
    by rewrite delete_insert_eq, delete_id.
Qed.

(** X14 (reachable stores).  Whatever calls of the interface a client makes
    from program start, the tree is empty or it is a single directory of
    depth 1 without children, and no content buffer is allocated. *)
Theorem reachable_tree_is_at_most_a_root w :
  reachable Path_parse w →
  bufs w = ∅ ∧
  (oRoot w = None → nodes w = ∅) ∧
  (∀ r, oRoot w = Some r →
        bIsInitialized w = true ∧
        ∃ p, length p = 1 ∧ nodes w = {[ r := root_dir p ]}).
Proof.
  intros (Hb & Hi & Hn)%reachable_lone_root. split; [done|].
  split.
  - intros Hr. by rewrite Hr in Hn.
  - intros r Hr. rewrite Hr in Hn. split; [|done].
    destruct (bIsInitialized w); [done|]. by rewrite Hi in Hr.
Qed.

(** X15 (FT_insertFile).  In no store a client can reach does [FT_insertFile]
    insert a file: it always returns, never with [SUCCESS] and never with
    [ALREADY_IN_TREE], and when the tree has a root it leaves the store as
    it was. *)
Theorem FT_insertFile_never_succeeds s c n w :
  reachable Path_parse w →
  ∃ st w', FT_insertFile Path_parse s c n w = Ret st w' ∧
           st ≠ SUCCESS ∧ st ≠ ALREADY_IN_TREE ∧
           (oRoot w ≠ None → fated w w').
Proof.
  intros Hw%reachable_lone_root.
  destruct (wp_inv _ _ _ (FT_insertFile_lone Path_parse s c n w Hw))
    as (st & w' & E & _ & _ & ? & ? & ? & _).
  by exists st, w'.
Qed.

(** X16 (file lookups).  In every store a client can reach, no file is ever
    found: [FT_containsFile] returns FALSE, [FT_getFileContents] returns
    NULL and [FT_rmFile] fails, whatever the path, and the store is left as
    it was. *)
Theorem file_lookups_always_fail s w :
  reachable Path_parse w →
  (∃ w', FT_containsFile Path_parse s w = Ret false w' ∧ fated w w') ∧
  (∃ w', FT_getFileContents Path_parse s w = Ret None w' ∧ fated w w') ∧
  (∃ st w', FT_rmFile Path_parse s w = Ret st w' ∧ st ≠ SUCCESS ∧
            fated w w').
Proof.
  intros Hw%reachable_lone_root. split; [|split].
  - destruct (wp_inv _ _ _ (FT_containsFile_lone Path_parse s w Hw))
      as (b & w' & E & -> & ?). by exists w'.
  - destruct (wp_inv _ _ _ (FT_getFileContents_lone Path_parse s w Hw))
      as (b & w' & E & -> & ?). by exists w'.
  - destruct (wp_inv _ _ _ (FT_rmFile_lone Path_parse s w Hw))
      as (st & w' & E & ? & ?). by exists st, w'.
Qed.

(** X17 (failed insertions and removals).  In every store a client can reach,
    an [FT_insertDir] or [FT_rmDir] that does not return [SUCCESS] leaves
    the store as it was. *)
Theorem failed_insertDir_rmDir_change_nothing s w :
  reachable Path_parse w →
  (∃ st w', FT_insertDir Path_parse s w = Ret st w' ∧
            (st ≠ SUCCESS → fated w w')) ∧
  (∃ st w', FT_rmDir Path_parse s w = Ret st w' ∧
            (st ≠ SUCCESS → fated w w')).
Proof.
  intros Hw%reachable_lone_root. split.
  - destruct (wp_inv _ _ _ (FT_insertDir_lone Path_parse s w Hw))
      as (st & w' & E & _ & _ & _ & ? & _). by exists st, w'.
  - destruct (wp_inv _ _ _ (FT_rmDir_lone Path_parse s w Hw))
      as (st & w' & E & _ & _ & ? & _). by exists st, w'.
Qed.

(** X18 (lookups).  The lookups and the serialisation never write to the
    tree: whenever they return, nodes, buffers and the tree's variables are
    as before (only allocations have been consumed). *)
Theorem lookups_leave_the_store s pb pz w :
  (∀ b w', FT_containsDir Path_parse s w = Ret b w' → fated w w') ∧
  (∀ b w', FT_containsFile Path_parse s w = Ret b w' → fated w w') ∧
  (∀ c w', FT_getFileContents Path_parse s w = Ret c w' → fated w w') ∧
  (∀ r w', FT_stat Path_parse s pb pz w = Ret r w' → fated w w') ∧
  (∀ r w', FT_toString w = Ret r w' → fated w w').
Proof.
  split; [|split; [|split; [|split]]]; intros ? ?.
  - apply readonly_FT_containsDir.
  - apply readonly_FT_containsFile.
  - apply readonly_FT_getFileContents.
  - apply readonly_FT_stat.
  - apply readonly_FT_toString.
Qed.

End Interface.

(** ** Serialising a root without children *)

Lemma string_app_assoc (s1 s2 s3 : string) :
  (s1 +:+ s2) +:+ s3 = s1 +:+ (s2 +:+ s3).
Proof.
  induction s1 as [|a s1 IH]; [done|].
  change (String a ((s1 +:+ s2) +:+ s3) = String a (s1 +:+ (s2 +:+ s3))).
  by f_equal.
Qed.

(** An allocation that does not fail. *)
Lemma wp_malloc_calm (Q : bool → world → Prop) w :
  false ∉ fate w →
  (∀ f, (false ∈ f → false ∈ fate w) → Q true (set_fate f w)) →
  wp malloc_ok Q w.
Proof.
  intros Hcalm H. apply wp_malloc. intros b f Hf Hb.
  destruct b; [by apply H|]. by destruct Hcalm; apply Hb.
Qed.

(** Symbolic execution when no allocation fails, over a node that is
    known. *)
Ltac calm_step :=
  lazymatch goal with
  | |- wp malloc_ok _ _ =>
      apply wp_malloc_calm; [simpl in *; tauto | intros ? ?]
  | |- wp (if _ then _ else _) _ _ =>
      first [progress cbn [negb orb andb] | wp_step]
  | |- wp (FT_traverseToString ?n ?l) ?Q ?w =>
      change (wp (FT_traverseToString_rec (S (size (nodes w))) n l) Q w);
      cbn [FT_traverseToString_rec]
  | Hl : nodes _ !! ?r = Some ?nd |- wp (Node_getPath (Some ?r)) _ _ =>
      eapply wp_eq; [apply (Node_getPath_at r nd); exact Hl |];
      try match goal with H : oPPath nd = _ |- _ => rewrite H end
  | Hl : nodes _ !! ?r = Some ?nd |- wp (Node_getType (Some ?r)) _ _ =>
      eapply wp_eq; [apply (Node_getType_at r nd); exact Hl |];
      try match goal with H : eType nd = _ |- _ => rewrite H end
  | _ => wp_step
  end.
Ltac calm_steps := repeat (calm_step; wp_norm).

Lemma FT_toString_childless r nd p w :
  bIsInitialized w = true → oRoot w = Some r →
  nodes w !! r = Some nd → eType nd = FT_DIR → oChildren nd = Some [] →
  oPPath nd = Some p → false ∉ fate w →
  ∃ f, (false ∈ f → false ∈ fate w) ∧
       FT_toString w
       = Ret (Some (pathname p +:+ " [dir]" +:+ newline)) (set_fate f w).
Proof.
  intros Hi Hr Hl Ht Hc Hp Hcalm.
  assert (wp FT_toString
            (λ o w', ∃ f, (false ∈ f → false ∈ fate w) ∧
               o = Some (pathname p +:+ " [dir]" +:+ newline) ∧
               w' = set_fate f w) w) as H.
  { unfold FT_toString. apply wp_bind, wp_gets. apply wp_bind, wp_gets.
    rewrite Hi, Hr. rewrite bool_decide_eq_false_2 by done. cbn [negb orb].
    calm_steps.
    unfold Node_toString, Path_toString. calm_steps.
    eapply wp_eq; [by apply (Node_getNumChildren_at r nd [])|].
    repeat (progress (calm_steps; cbn [length seq for_each qsort visit_all])).
    eexists. split; [|split; [|done]]; [simpl in *; tauto|].
    cbn [app foldr]. f_equal.
    unfold newline. cbn [String.append]. apply string_app_assoc. }
  apply wp_inv in H as (o & w' & E & f & Hf & -> & ->). by exists f.
Qed.

Section Serialisation.

Variable Path_parse : string → option path.

(** X19 (FT_toString).  In every store a client can reach, with no allocation
    failing, [FT_toString] returns NULL for the empty tree and otherwise
    the one line of the root, [<path> [dir]] followed by a newline; the tree
    is left as it was. *)
Theorem FT_toString_of_reachable_tree w :
  reachable Path_parse w → false ∉ fate w →
  ∃ w', FT_toString w
        = Ret ((λ p, pathname p +:+ " [dir]" +:+ newline)
                 <$> child_path w (oRoot w)) w' ∧
        fated w w'.
Proof.
  intros Hw%reachable_lone_root Hcalm.
  destruct Hw as (_ & Hi & Hn). destruct (oRoot w) as [r|] eqn:Hr.
  - destruct Hn as (p & _ & Hn).
    assert (nodes w !! r = Some (root_dir p)) as Hl
      by (rewrite Hn; apply lookup_singleton_eq).
    destruct (FT_toString_childless r (root_dir p) p w) as (f & Hf & E);
      try done.
    { destruct (bIsInitialized w); [done|]. by specialize (Hi eq_refl). }
    exists (set_fate f w). split; [|by apply fated_set_fate].
    rewrite E. simpl. by rewrite Hl.
  - exists w. split; [|apply fated_refl].
    unfold FT_toString, bind, gets. rewrite Hr.
    by destruct (bIsInitialized w).
Qed.

End Serialisation.

(* ================================================================== *)
(** * What the serialisation never prints *)

Lemma Node_toString_inv n line w w' :
  Node_toString n w = Ret (Some line) w' →
  ∃ l nd p, n = Some l ∧ nodes w !! l = Some nd ∧ oPPath nd = Some p ∧
            line = pathname p +:+ " [" +:+
                   match eType nd with FT_FILE => "file" | FT_DIR => "dir" end
                   +:+ "]".
Proof.
  unfold Node_toString. intros E.
  apply bind_inv in E as (op & w1 & E1 & E).
  unfold Node_getPath in E1. apply bind_inv in E1 as (nd & w0 & El & E1).
  apply load_inv in El as (l & -> & Hl & ->). injection E1 as <- <-.
  apply bind_inv in E as (ps & w2 & E2 & E).
  pose proof (readonly_Path_toString _ _ _ _ E2) as (Hn & _).
  unfold Path_toString in E2. apply bind_inv in E2 as (p & w3 & Ep & E2).
  destruct (oPPath nd) as [p'|] eqn:Hp; [|done]. injection Ep as <- <-.
  apply bind_inv in E2 as (ok & w3 & _ & E2). injection E2 as <- <-.
  destruct ok; [|done].
  apply bind_inv in E as (t & w4 & Et & E).
  unfold Node_getType in Et. apply bind_inv in Et as (nd' & w5 & El & Et).
  apply load_inv in El as (? & [= <-] & Hl' & ->). injection Et as <- <-.
  rewrite Hn, Hl in Hl'. injection Hl' as <-.
  apply bind_inv in E as (ok & w6 & _ & E). injection E as E _.
  destruct ok; [|done]. injection E as <-.
  by exists l, nd, p'.
Qed.

Lemma dir_line_fated w w' line : fated w w' → dir_line w' line → dir_line w line.
Proof.
  intros (Hn & _) (l & nd & p & Hl & H). rewrite Hn in Hl. by exists l, nd, p.
Qed.

Section Visits.

Variable visit : Node_T → list string → M (bool * list string).
Hypothesis visit_dir_lines : ∀ n lines w ok lines' w',
  visit n lines w = Ret (ok, lines') w' →
  fated w w' ∧ ∃ new, lines' = lines ++ new ∧ Forall (dir_line w) new.

Lemma visit_all_dir_lines cs lines w ok lines' w' :
  visit_all visit cs lines w = Ret (ok, lines') w' →
  fated w w' ∧ ∃ new, lines' = lines ++ new ∧ Forall (dir_line w) new.
Proof.
  revert lines w. induction cs as [|c cs IH]; intros lines w E.
  - injection E as <- <- <-. split; [apply fated_refl|].
    exists []. by rewrite app_nil_r.
  - cbn [visit_all] in E. apply bind_inv in E as ([ok1 l1] & w1 & E1 & E).
    apply visit_dir_lines in E1 as (Hf1 & new1 & -> & Hd1).
    destruct ok1.
    + apply IH in E as (Hf2 & new2 & -> & Hd2).
      split; [by eapply fated_trans|].
      exists (new1 ++ new2). split; [by rewrite app_assoc|].
      apply Forall_app. split; [done|].
      eapply Forall_impl; [exact Hd2|]. intros line. by apply dir_line_fated.
    + injection E as <- <- <-. split; [done|]. by exists new1.
Qed.

End Visits.

Lemma FT_traverseToString_rec_dir_lines fuel n lines w ok lines' w' :
  FT_traverseToString_rec fuel n lines w = Ret (ok, lines') w' →
  fated w w' ∧ ∃ new, lines' = lines ++ new ∧ Forall (dir_line w) new.
Proof.
  revert n lines w ok lines' w'.
  induction fuel as [|fuel IH]; intros n lines w ok lines' w' E; [done|].
  pose proof (readonly_FT_traverseToString_rec _ _ _ _ _ _ E) as Hf.
  split; [done|]. cbn [FT_traverseToString_rec] in E.
  assert (∃ new, lines = lines ++ new ∧ Forall (dir_line w) new) as Hnone.
  { exists []. by rewrite app_nil_r. }
  apply bind_inv in E as (s & w1 & Es & E).
  pose proof (readonly_Node_toString _ _ _ _ Es) as Hf1.
  destruct s as [line|]; [|by injection E as <- <- <-].
  apply Node_toString_inv in Es as (l & nd & p & -> & Hl & Hp & ->).
  apply bind_inv in E as (added & w2 & Ea & E).
  pose proof (readonly_malloc_ok _ _ _ Ea) as Hf2.
  destruct added; cbn [negb] in E; [|by injection E as <- <- <-].
  apply bind_inv in E as (k & w3 & Ek & E).
  apply Node_getNumChildren_inv in Ek as (? & nd' & cs & [= <-] & Hl' & Ht & _ & _ & ->).
  pose proof (fated_trans _ _ _ Hf1 Hf2) as Hf12.
  destruct (Hf12) as (Hn & _). rewrite Hn, Hl in Hl'. injection Hl' as <-. rewrite Ht in E.
  assert (dir_line w (pathname p +:+ " [" +:+ "dir" +:+ "]")) as Hline.
  { by exists l, nd, p. }
  assert (∀ w0 new, fated w w0 → Forall (dir_line w0) new →
            ∃ new', (lines ++ [pathname p +:+ " [" +:+ "dir" +:+ "]"]) ++ new
                    = lines ++ new' ∧ Forall (dir_line w) new') as Hmore.
  { intros w0 new Hf0 Hd. exists ((pathname p +:+ " [dir]") :: new).
    split; [by rewrite <- app_assoc|]. constructor; [done|].
    eapply Forall_impl; [exact Hd|]. intros ?. by apply dir_line_fated. }
  assert (∃ new, lines ++ [pathname p +:+ " [" +:+ "dir" +:+ "]"]
                 = lines ++ new ∧ Forall (dir_line w) new) as Hone.
  { exists [pathname p +:+ " [dir]"]. split; [done|]. by constructor. }
  apply bind_inv in E as (okF & w3 & EF & E).
  pose proof (fated_trans _ _ _ Hf12 (readonly_malloc_ok _ _ _ EF)) as Hf3.
  apply bind_inv in E as (okD & w4 & ED & E).
  pose proof (fated_trans _ _ _ Hf3 (readonly_malloc_ok _ _ _ ED)) as Hf4.
  destruct (negb okF || negb okD); [by injection E as <- <- <-|].
  apply bind_inv in E as ([fs ds] & w5 & Ee & E).
  assert (fated w4 w5) as Hf5.
  { revert Ee. apply readonly_for_each. intros [fs' ds'] i. ro. }
  apply (fated_trans _ _ _ Hf4) in Hf5.
  apply bind_inv in E as (fs' & w6 & Eq1 & E).
  pose proof (fated_trans _ _ _ Hf5 (readonly_qsort _ _ _ _ Eq1)) as Hf6.
  apply bind_inv in E as (ds' & w7 & Eq2 & E).
  pose proof (fated_trans _ _ _ Hf6 (readonly_qsort _ _ _ _ Eq2)) as Hf7.
  apply bind_inv in E as ([ok1 l1] & w8 & Ev1 & E).
  apply (visit_all_dir_lines _ IH) in Ev1 as (Hf8 & new1 & -> & Hd1).
  destruct ok1; cbn [negb] in E.
  - apply (visit_all_dir_lines _ IH) in E as (Hf9 & new2 & -> & Hd2).
    rewrite <- app_assoc. apply (Hmore w7); [done|].
    apply Forall_app. split; [done|].
    eapply Forall_impl; [exact Hd2|]. intros ?. by apply dir_line_fated.
  - injection E as <- <- <-. by apply (Hmore w7).
Qed.

(** X20 ([FT_toString]).  The string [FT_toString] returns never has a line
    for a file: whenever the call returns a string, in any store, the string
    is made of lines [<path> [dir]], each the line of a live directory
    node.  (A visit of a file node does not come back: [Node_getNumChildren]
    asserts a directory.) *)
Theorem FT_toString_prints_directories_only w s w' :
  FT_toString w = Ret (Some s) w' →
  ∃ lines, s = foldr (λ line acc, line +:+ newline +:+ acc) "" lines ∧
           Forall (dir_line w) lines.
Proof.
  unfold FT_toString. intros E.
  apply bind_inv in E as (init & w1 & E1 & E). injection E1 as <- <-.
  apply bind_inv in E as (root & w1 & E1 & E). injection E1 as <- <-.
  destruct (negb (bIsInitialized w) || bool_decide (oRoot w = None)); [done|].
  apply bind_inv in E as (ok & w1 & E1 & E).
  apply readonly_malloc_ok in E1 as Hf1.
  destruct ok; [|done]. cbn [negb] in E.
  apply bind_inv in E as ([ok lines] & w2 & E2 & E).
  apply FT_traverseToString_rec_dir_lines in E2 as (_ & new & -> & Hd).
  destruct ok; [|done]. cbn [negb] in E.
  apply bind_inv in E as (ok & w3 & _ & E). destruct ok; [|done].
  injection E as <- _. exists new. split; [done|].
  eapply Forall_impl; [exact Hd|]. intros ?. by apply dir_line_fated.
Qed.

(* ================================================================== *)
(** * Lookups in any tree *)

Lemma Node_getChild_past l nd cs i w :
  nodes w !! l = Some nd → eType nd = FT_DIR → oChildren nd = Some cs →
  cs !! i = None →
  Node_getChild (Some l) i w = Ret (NO_SUCH_PATH, None) w.
Proof.
  intros Hl Ht Hc Hi. unfold Node_getChild, bind, load. rewrite Hl.
  rewrite decide_True by done. rewrite Hc. cbn [nonnull ret].
  unfold Node_T in *. by rewrite Hi.
Qed.

Lemma wp_returns {A} (m : M A) (a : A) w :
  wp m (λ x w', x = a ∧ fated w w') w → ∃ w', m w = Ret a w' ∧ fated w w'.
Proof. intros (x & w' & E & -> & Hf)%wp_inv. eauto. Qed.

Section BelowTheRoot.

Variable Path_parse : string → option path.
Variables (w : world) (r : loc) (nd : node) (cs : list Node_T) (p : path).
Hypothesis Hr : nodes w !! r = Some nd.
Hypothesis Ht : eType nd = FT_DIR.
Hypothesis Hc : oChildren nd = Some cs.
Hypothesis Hcs : ∀ c, c ∈ cs →
  ∃ q, child_path w c = Some q ∧ comparePath q (take 1 p) ≠ 0%Z.

Lemma FT_scan_miss f js :
  FT_scan (Some r) (Some (take 1 p)) js (set_fate f w)
  = Ret None (set_fate f w).
Proof.
  induction js as [|j js IH]; [done|]. cbn [FT_scan].
  destruct (cs !! j) as [c|] eqn:Hj.
  - rewrite (bind_eq _ _ _ _ _
               (Node_getChild_at r nd cs j c (set_fate f w) Hr Ht Hc Hj)).
    rewrite decide_True by done.
    destruct (Hcs c) as (q & Hq & Hne); [by eapply list_elem_of_lookup_2|].
    rewrite (bind_eq _ _ _ _ _ (Node_getPath_child c q (set_fate f w) Hq)).
    unfold Path_comparePath. cbn [nonnull bind ret].
    by rewrite decide_False.
  - rewrite (bind_eq _ _ _ _ _
               (Node_getChild_past r nd cs j (set_fate f w) Hr Ht Hc Hj)).
    by rewrite decide_False.
Qed.

Lemma FT_findChild_miss f :
  FT_findChild (Some r) (Some (take 1 p)) (set_fate f w)
  = Ret None (set_fate f w).
Proof.
  unfold FT_findChild.
  rewrite (bind_eq _ _ _ _ _
             (Node_getNumChildren_at r nd cs (set_fate f w) Hr Ht Hc)).
  apply FT_scan_miss.
Qed.

(** The walk of a lookup stops at its first level. *)
Lemma wp_walk_miss f d par (Q : walked → world → Prop) :
  1 ≤ d ≤ length p →
  (∀ a g, (false ∈ g → false ∈ f) →
          a = Missing ∨ a = PrefixFailed ∧ false ∈ f →
          Q a (set_fate g w)) →
  wp (FT_walk (Some p) (seq 1 d) par (Some r)) Q (set_fate f w).
Proof.
  intros Hd H. destruct d as [|d]; [lia|].
  cbn [seq FT_walk]. apply wp_bind, wp_Path_prefix.
  intros o g Hg [->|[-> [?|Hfail]]]; [|lia|].
  - rewrite decide_False by done. apply wp_bind.
    eapply wp_eq; [apply FT_findChild_miss|].
    rewrite decide_True by done. apply wp_ret, H; auto.
  - rewrite decide_True by done. apply wp_ret, H; auto.
Qed.

End BelowTheRoot.

(** X21 (lookups).  In any store, a lookup finds a path only through a
    child of the root whose path compares equal to the path's first
    component: when the root is a directory none of whose children has such
    a path (the directory [/a] holding the file [/a/f], asked for [/a/f]),
    [FT_containsDir] and [FT_containsFile] return FALSE and
    [FT_getFileContents] and [FT_replaceFileContents] return NULL, and the
    tree is left as it was. *)
Theorem lookups_miss_below_the_root Path_parse s p c n r nd cs w :
  Path_parse s = Some p →
  oRoot w = Some r → nodes w !! r = Some nd →
  eType nd = FT_DIR → oChildren nd = Some cs →
  (∀ c, c ∈ cs →
     ∃ q, child_path w c = Some q ∧ comparePath q (take 1 p) ≠ 0%Z) →
  (∃ w', FT_containsDir Path_parse s w = Ret false w' ∧ fated w w') ∧
  (∃ w', FT_containsFile Path_parse s w = Ret false w' ∧ fated w w') ∧
  (∃ w', FT_getFileContents Path_parse s w = Ret None w' ∧ fated w w') ∧
  (∃ w', FT_replaceFileContents Path_parse s c n w = Ret None w' ∧
         fated w w').
Proof.
  intros Hs Hroot Hr Ht Hc Hcs.
  split; [|split; [|split]]; apply wp_returns.
  all: unfold FT_containsDir, FT_containsFile, FT_getFileContents,
         FT_replaceFileContents.
  all: repeat (first
         [ wp_step
         | apply wp_Path_create; intros ? ? ? [<-|[-> ?]]; rewrite ?Hs
         | eapply (wp_walk_miss w r nd cs p Hr Ht Hc Hcs);
           [lia | intros ? ? ? [-> | [-> ?]]] ];
         wp_norm).
  all: try (split; [done | fated_tac]).
Qed.

Section DescentBelowTheRoot.

Variables (w : world) (r : loc) (nd : node) (cs : list Node_T) (p : path).
Hypothesis Hr : nodes w !! r = Some nd.
Hypothesis Ht : eType nd = FT_DIR.
Hypothesis Hc : oChildren nd = Some cs.
Hypothesis Hcs : ∀ c, c ∈ cs →
  ∃ q, child_path w c = Some q ∧ comparePath q (take 1 p) ≠ 0%Z.

(** The walk of an insertion stops at its first level. *)
Lemma wp_descend_miss miss f d (Q : descent → world → Prop) :
  1 ≤ d ≤ length p →
  (∀ a g, (false ∈ g → false ∈ f) →
          a = Stopped miss ∨ a = Stopped MEMORY_ERROR ∧ false ∈ f →
          Q a (set_fate g w)) →
  wp (FT_descend miss (Some p) (seq 1 d) (Some r)) Q (set_fate f w).
Proof.
  intros Hd H. destruct d as [|d]; [lia|].
  cbn [seq FT_descend]. apply wp_bind, wp_Path_prefix.
  intros o g Hg [->|[-> [?|Hfail]]]; [|lia|].
  - rewrite decide_False by done. apply wp_bind.
    eapply wp_eq; [by apply (FT_findChild_miss w r nd cs p)|].
    rewrite decide_True by done. apply wp_ret, H; auto.
  - rewrite decide_True by done. apply wp_ret, H; auto.
Qed.

End DescentBelowTheRoot.

(** X22 (insertions).  In any store, an insertion of a path of depth 2 or
    more gets below the root only through a child of the root whose path
    compares equal to the path's first component: when the root is a
    directory none of whose children has such a path, [FT_insertDir]
    returns NO_SUCH_PATH and [FT_insertFile] CONFLICTING_PATH (or, when an
    allocation fails, BAD_PATH or MEMORY_ERROR), and the tree is left as it
    was. *)
Theorem insertions_miss_below_the_root Path_parse s p c n r nd cs w :
  bIsInitialized w = true → Path_parse s = Some p → 2 ≤ length p →
  oRoot w = Some r → nodes w !! r = Some nd →
  eType nd = FT_DIR → oChildren nd = Some cs →
  (∀ c, c ∈ cs →
     ∃ q, child_path w c = Some q ∧ comparePath q (take 1 p) ≠ 0%Z) →
  (∃ st w', FT_insertDir Path_parse s w = Ret st w' ∧ fated w w' ∧
            (st = NO_SUCH_PATH ∨
             false ∈ fate w ∧ (st = BAD_PATH ∨ st = MEMORY_ERROR))) ∧
  (∃ st w', FT_insertFile Path_parse s c n w = Ret st w' ∧ fated w w' ∧
            (st = CONFLICTING_PATH ∨
             false ∈ fate w ∧ (st = BAD_PATH ∨ st = MEMORY_ERROR))).
Proof.
  intros Hi Hs Hp Hroot Hr Ht Hc Hcs.
  split; apply wp_inv; unfold FT_insertDir, FT_insertFile.
  all: repeat (first
         [ wp_step
         | apply wp_Path_create; intros ? ? ? [<-|[-> ?]]; rewrite ?Hs
         | eapply (wp_descend_miss w r nd cs p Hr Ht Hc Hcs);
           [lia | intros ? ? ? [-> | [-> ?]]] ];
         wp_norm).
  all: try discriminate.
  all: split; [fated_tac | simpl in *; tauto].
Qed.

(** X23 (removals, [FT_stat]).  In any store, a path other than the root's
    is removed or described only through a child of the root whose path
    compares equal to the path's first component: when the root is a
    directory none of whose children has such a path, [FT_rmDir] and
    [FT_rmFile] return NO_SUCH_PATH, [FT_stat] returns NO_SUCH_PATH or
    CONFLICTING_PATH and writes nothing (or, when an allocation fails, one
    of them returns BAD_PATH or MEMORY_ERROR), and the tree is left as it
    was. *)
Theorem removals_miss_below_the_root Path_parse s p rp pb pz r nd cs w :
  bIsInitialized w = true → Path_parse s = Some p → p ≠ [] →
  oRoot w = Some r → nodes w !! r = Some nd →
  eType nd = FT_DIR → oChildren nd = Some cs →
  oPPath nd = Some rp → comparePath rp p ≠ 0%Z →
  (∀ c, c ∈ cs →
     ∃ q, child_path w c = Some q ∧ comparePath q (take 1 p) ≠ 0%Z) →
  (∃ st w', FT_rmDir Path_parse s w = Ret st w' ∧ fated w w' ∧
            (st = NO_SUCH_PATH ∨
             false ∈ fate w ∧ (st = BAD_PATH ∨ st = MEMORY_ERROR))) ∧
  (∃ st w', FT_rmFile Path_parse s w = Ret st w' ∧ fated w w' ∧
            (st = NO_SUCH_PATH ∨
             false ∈ fate w ∧ (st = BAD_PATH ∨ st = MEMORY_ERROR))) ∧
  (∃ st w', FT_stat Path_parse s pb pz w = Ret (StatResult st pb pz) w' ∧
            fated w w' ∧
            (st = NO_SUCH_PATH ∨ st = CONFLICTING_PATH ∨
             false ∈ fate w ∧ (st = BAD_PATH ∨ st = MEMORY_ERROR))).
Proof.
  intros Hi Hs Hp Hroot Hr Ht Hc Hrp Hne Hcs.
  assert (length p ≠ 0) by (by destruct p).
  assert (∀ f, Node_getPath (Some r) (set_fate f w)
               = Ret (Some rp) (set_fate f w)) as Hget.
  { intros f. rewrite (Node_getPath_at r nd (set_fate f w) Hr). by rewrite Hrp. }
  split; [|split].
  1,2: apply wp_inv.
  3: enough (wp (FT_stat Path_parse s pb pz)
               (λ a w', ∃ st, a = StatResult st pb pz ∧ fated w w' ∧
                  (st = NO_SUCH_PATH ∨ st = CONFLICTING_PATH ∨
                   false ∈ fate w ∧ (st = BAD_PATH ∨ st = MEMORY_ERROR))) w)
       as (a & w' & E & st & -> & ?)%wp_inv by eauto.
  all: unfold FT_rmDir, FT_rmFile, FT_stat.
  all: repeat (first
         [ wp_step
         | apply wp_Path_create; intros ? ? ? [<-|[-> ?]]; rewrite ?Hs
         | apply wp_Path_prefix; intros ? ? ? [->|[-> ?]]
         | eapply wp_eq; [apply Hget|]
         | eapply (wp_walk_miss w r nd cs p Hr Ht Hc Hcs);
           [lia | intros ? ? ? [-> | [-> ?]]] ];
         wp_norm).
  all: try discriminate.
  all: try (eexists; split; [reflexivity|]).
  all: split; [fated_tac | simpl in *; tauto].
Qed.

(* ================================================================== *)
(** * Every file has a content buffer *)

(** ** The calls keep the buffers of the files *)

Lemma keeps_readonly {A} (m : M A) : readonly m → keeps_files m.
Proof.
  intros Hm w a w' Hw E.
  exact (fated_files_have_contents _ _ (Hm _ _ _ E) Hw).
Qed.

Lemma keeps_bind {A B} (m : M A) (k : A → M B) :
  keeps_files m → (∀ a, keeps_files (k a)) → keeps_files (bind m k).
Proof.
  intros Hm Hk w b w'' Hw (a & w' & E1 & E2)%bind_inv.
  eapply Hk; [|exact E2]. by eapply Hm.
Qed.

(** A call that leaves the nodes alone. *)
Lemma keeps_same_nodes {A} (m : M A) :
  (∀ w a w', m w = Ret a w' → nodes w' = nodes w) → keeps_files m.
Proof. intros Hm w a w' Hw E l nd. rewrite (Hm _ _ _ E). apply Hw. Qed.

Lemma keeps_modify f : (∀ w, nodes (f w) = nodes w) → keeps_files (modify f).
Proof. intros Hf. apply keeps_same_nodes. by intros w a w' [= _ <-]. Qed.

Lemma keeps_new_buf bs : keeps_files (new_buf bs).
Proof. apply keeps_same_nodes. by intros w a w' [= _ <-]. Qed.

Lemma keeps_free_buf p : keeps_files (free_buf p).
Proof.
  apply keeps_same_nodes. intros w a w'. unfold free_buf.
  destruct p as [l|]; [|by intros [= _ <-]].
  destruct (bufs w !! l); [|done]. by intros [= _ <-].
Qed.

Lemma keeps_write_buf p bs : keeps_files (write_buf p bs).
Proof.
  apply keeps_same_nodes. intros w a w'. unfold write_buf.
  destruct p as [l|]; [|done].
  destruct (bufs w !! l); [|done]. by intros [= _ <-].
Qed.

Lemma keeps_free_node n : keeps_files (free_node n).
Proof.
  intros w a w' Hw. unfold free_node. destruct n as [l|]; [|by intros [= _ <-]].
  destruct (nodes w !! l); [|done]. intros [= _ <-] l' nd. simpl.
  intros [_ Hl']%lookup_delete_Some. exact (Hw l' nd Hl').
Qed.

Lemma keeps_Node_new p par t : keeps_files (Node_new p par t).
Proof. intros w [st r] w' Hw E. by eapply Node_new_keeps_contents. Qed.

Lemma keeps_Node_setContents n c : keeps_files (Node_setContents n c).
Proof. intros w b w' Hw E. by eapply Node_setContents_keeps_contents. Qed.

(** Writing a node back with its type and contents as they were. *)
Lemma keeps_store l nd0 nd : 
  eType nd = eType nd0 → pcContents nd = pcContents nd0 →
  ∀ w w', nodes w !! l = Some nd0 → files_have_contents w →
          store (Some l) nd w = Ret () w' → files_have_contents w'.
Proof.
  intros Ht Hc w w' Hl Hw. unfold store. rewrite Hl. intros [= <-] l' nd'.
  simpl. destruct (decide (l = l')) as [<-|].
  - rewrite lookup_insert_eq. intros [= <-]. rewrite Ht, Hc.
    exact (Hw l nd0 Hl).
  - rewrite lookup_insert_ne by done. exact (Hw l' nd').
Qed.

Lemma keeps_DynArray_add owner x : keeps_files (DynArray_add owner x).
Proof.
  intros w b w' Hw E. unfold DynArray_add in E.
  apply bind_inv in E as (nd & w1 & El & E).
  apply load_inv in El as (l & -> & Hl & ->).
  apply bind_inv in E as (arr & w1 & Ea & E).
  destruct (oChildren nd); [|done]. injection Ea as <- <-.
  apply bind_inv in E as (ok & w1 & Em & E).
  pose proof (readonly_malloc_ok _ _ _ Em) as Hf.
  apply (fated_files_have_contents _ _ Hf) in Hw.
  destruct ok; cbn [negb] in E; [|by injection E as _ <-].
  apply bind_inv in E as ([] & w2 & Es & E). injection E as _ <-.
  eapply (keeps_store l nd); [..|exact Es]; try done.
  destruct Hf as (-> & _). done.
Qed.

Lemma keeps_DynArray_removeAt owner i : keeps_files (DynArray_removeAt owner i).
Proof.
  intros w b w' Hw E. unfold DynArray_removeAt in E.
  apply bind_inv in E as (nd & w1 & El & E).
  apply load_inv in El as (l & -> & Hl & ->).
  apply bind_inv in E as (arr & w1 & Ea & E).
  destruct (oChildren nd); [|done]. injection Ea as <- <-.
  case_decide; [done|]. destruct b.
  by eapply (keeps_store l nd); [..|exact E].
Qed.

#[local] Hint Resolve keeps_new_buf keeps_free_buf keeps_write_buf
  keeps_free_node keeps_Node_new keeps_Node_setContents keeps_DynArray_add
  keeps_DynArray_removeAt : keeps.

(** One step of such a proof: a call that only reads, a bind, or a case on
    what a branch looks at. *)
Ltac keeps_step :=
  match goal with
  | |- keeps_files _ => solve [apply keeps_readonly; ro]
  | |- keeps_files (bind _ _) => apply keeps_bind; [| intros ?]
  | |- keeps_files (if ?b then _ else _) => destruct b
  | |- keeps_files (match ?x with _ => _ end) => destruct x
  | |- keeps_files (let '(_, _) := ?x in _) => destruct x
  | |- keeps_files (modify _) => apply keeps_modify; done
  | |- keeps_files _ => solve [auto with keeps]
  end.
Ltac keeps_tac := repeat keeps_step.

#[local] Hint Resolve readonly_Path_create readonly_FT_scan
  readonly_FT_findChild readonly_FT_walk readonly_FT_descend : ro.

Lemma keeps_for_each {A S} (body : S → A → M S) l s :
  (∀ s a, keeps_files (body s a)) → keeps_files (for_each body l s).
Proof.
  intros H. revert s. induction l as [|a l IH]; intros s; simpl; keeps_tac.
Qed.

Lemma keeps_Node_free_rec fuel n : keeps_files (Node_free_rec fuel n).
Proof.
  revert n. induction fuel as [|fuel IH]; intros n; simpl.
  - intros w a w'. discriminate.
  - keeps_tac. apply keeps_for_each. intros total i. keeps_tac.
Qed.

Lemma keeps_Node_free n : keeps_files (Node_free n).
Proof. intros w a w'. apply keeps_Node_free_rec. Qed.

Lemma keeps_malloc_buf n : keeps_files (malloc_buf n).
Proof. unfold malloc_buf. keeps_tac. Qed.

Lemma keeps_FT_unlink par n js : keeps_files (FT_unlink par n js).
Proof. induction js as [|j js IH]; simpl; keeps_tac. Qed.

#[local] Hint Resolve keeps_Node_free keeps_malloc_buf keeps_FT_unlink
  : keeps.

Section Keeps.

Variable Path_parse : string → option path.

Lemma keeps_FT_insertDir s : keeps_files (FT_insertDir Path_parse s).
Proof. unfold FT_insertDir. keeps_tac. Qed.

Lemma keeps_FT_insertFile s c n : keeps_files (FT_insertFile Path_parse s c n).
Proof. unfold FT_insertFile. keeps_tac. Qed.

Lemma keeps_FT_rmDir s : keeps_files (FT_rmDir Path_parse s).
Proof. unfold FT_rmDir. keeps_tac. Qed.

Lemma keeps_FT_rmFile s : keeps_files (FT_rmFile Path_parse s).
Proof. unfold FT_rmFile. keeps_tac. Qed.

Lemma keeps_FT_replaceFileContents s c n :
  keeps_files (FT_replaceFileContents Path_parse s c n).
Proof. unfold FT_replaceFileContents. keeps_tac. Qed.

Lemma keeps_FT_init : keeps_files FT_init.
Proof. unfold FT_init. keeps_tac. Qed.

Lemma keeps_FT_destroy : keeps_files FT_destroy.
Proof. unfold FT_destroy. keeps_tac. Qed.

(** No call of the interface, in any store, leaves a file without a
    buffer. *)
Lemma keeps_perform c : keeps_files (perform Path_parse c).
Proof.
  destruct c; simpl; apply keeps_bind;
    try (intros ?; apply keeps_readonly, readonly_ret).
  - apply keeps_FT_init.
  - apply keeps_FT_destroy.
  - apply keeps_FT_insertDir.
  - apply keeps_FT_insertFile.
  - apply keeps_readonly, readonly_FT_containsDir.
  - apply keeps_readonly, readonly_FT_containsFile.
  - apply keeps_FT_rmDir.
  - apply keeps_FT_rmFile.
  - apply keeps_readonly, readonly_FT_getFileContents.
  - apply keeps_FT_replaceFileContents.
  - apply keeps_readonly, readonly_FT_stat.
  - apply keeps_readonly, readonly_FT_toString.
Qed.

End Keeps.

(** ** A new file, and a file whose contents are set to NULL *)

Lemma Node_hasChild_none lp ndp cs q w :
  nodes w !! lp = Some ndp → eType ndp = FT_DIR → oChildren ndp = Some cs →
  (∀ c, c ∈ cs → ∃ q', child_path w c = Some q' ∧ comparePath q' q ≠ 0%Z) →
  Node_hasChild (Some lp) (Some q) w = Ret false w.
Proof.
  intros Hl Ht Hc Hcs.
  destruct (Node_hasChild_loop_spec q cs w) as (b & E & Hb).
  { intros c Hin. destruct (Hcs c Hin) as (q' & -> & _). by eexists. }
  assert (load (Some lp) w = Ret ndp w) as El by (unfold load; by rewrite Hl).
  unfold Node_hasChild. rewrite (bind_eq _ _ _ _ _ El).
  rewrite (bind_eq _ _ _ _ _ (eq_refl : nonnull (Some q) w = Ret q w)).
  rewrite decide_True by done. rewrite Hc.
  rewrite (bind_eq _ _ _ _ _ (eq_refl : nonnull (Some cs) w = Ret cs w)).
  rewrite E. destruct b; [|done].
  destruct (proj1 Hb eq_refl) as (c & q' & Hin & Hq' & Heq).
  destruct (Hcs c Hin) as (q'' & Hq'' & Hne). congruence.
Qed.

(** Where its checks pass and no allocation fails, [Node_new] makes a file
    that holds the empty string. *)
Lemma Node_new_file_succeeds q par w :
  false ∉ fate w →
  match par with
  | None => length q = 1
  | Some lp =>
      ∃ ndp pp cs,
        nodes w !! lp = Some ndp ∧ eType ndp = FT_DIR ∧
        oPPath ndp = Some pp ∧ oChildren ndp = Some cs ∧
        length q = length pp + 1 ∧ isPrefix pp q = true ∧
        ∀ c, c ∈ cs →
          ∃ q', child_path w c = Some q' ∧ comparePath q' q ≠ 0%Z
  end →
  ∃ w', Node_new (Some q) par FT_FILE w = Ret (SUCCESS, Some (S (brk w))) w' ∧
        nodes w' = <[ S (brk w) :=
                       Node (Some q) par None FT_FILE (Some (brk w)) ]>
                     (nodes w) ∧
        bufs w' = <[ brk w := [NUL] ]> (bufs w) ∧
        (false ∉ fate w').
Proof.
  intros Hcalm Hpar.
  enough (wp (Node_new (Some q) par FT_FILE)
            (λ r w', r = (SUCCESS, Some (S (brk w))) ∧
               nodes w' = <[ S (brk w) :=
                       Node (Some q) par None FT_FILE (Some (brk w)) ]>
                     (nodes w) ∧
               bufs w' = <[ brk w := [NUL] ]> (bufs w) ∧
               (false ∉ fate w')) w)
    as (r & w' & E & -> & ?)%wp_inv by eauto.
  unfold Node_new, Path_copy.
  apply wp_bind. unfold Path_getDepth. apply wp_bind, wp_ret, wp_ret.
  destruct par as [lp|].
  - destruct Hpar as (ndp & pp & cs & Hl & Ht & Hp & Hc & Hlen & Hpre & Hcs).
    rewrite decide_False by lia. apply wp_bind, wp_bind.
    eapply wp_eq; [by apply (Node_getPath_at lp ndp)|]. rewrite Hp.
    apply wp_bind, wp_bind, wp_ret, wp_ret.
    rewrite decide_False by lia.
    apply wp_bind. unfold Path_isPrefix. cbn [nonnull]. 
    apply wp_bind, wp_ret, wp_bind, wp_ret, wp_ret. rewrite Hpre. cbn [negb].
    apply wp_bind.
    eapply wp_eq; [by apply (Node_hasChild_none lp ndp cs)|].
    apply wp_ret. cbn [nonnull]. calm_steps.
    repeat split; try done. simpl in *. tauto.
  - rewrite decide_False by lia. apply wp_bind, wp_ret.
    rewrite decide_False by lia. cbn [nonnull]. calm_steps.
    repeat split; try done. simpl in *. tauto.
Qed.

(** On a file whose buffer, if it has one, is live, [Node_setContents] with
    a NULL argument succeeds unless the allocation fails, and the file then
    holds the empty string. *)
Lemma Node_setContents_NULL_succeeds l nd w :
  fresh w → nodes w !! l = Some nd → eType nd = FT_FILE →
  (∀ b, pcContents nd = Some b → is_Some (bufs w !! b)) →
  false ∉ fate w →
  ∃ w', Node_setContents (Some l) None w = Ret true w' ∧
        holds_empty_string w' (Some l) ∧ (false ∉ fate w').
Proof.
  intros Hfresh Hl Ht Hlive Hcalm.
  assert (wp (Node_setContents (Some l) None)
            (λ b w', b = true ∧ (false ∉ fate w')) w) as H.
  { unfold Node_setContents. apply wp_bind.
    eapply wp_eq; [unfold load; by rewrite Hl|].
    rewrite decide_False by (intros H; by apply H).
    apply wp_bind, wp_ret. calm_steps.
    unfold free_buf.
    destruct (pcContents nd) as [b|] eqn:Hb.
    - destruct (Hlive b eq_refl) as [bs Hbs].
      assert (b < brk w) as Hlt by (apply Hfresh; by eexists).
      unfold wp. simpl. rewrite lookup_insert_ne by lia. rewrite Hbs.
      unfold bind, store. simpl. rewrite Hl. split; [done|]. tauto.
    - unfold wp, bind, store. simpl. rewrite Hl. split; [done|]. tauto. }
  apply wp_inv in H as (b & w' & E & -> & Hcalm').
  exists w'. split; [done|]. split; [|done].
  by apply (Node_setContents_NULL _ w).
Qed.

(** In a store where every file has a buffer, [FT_getFileContents] returns
    a buffer wherever [FT_containsFile] finds a file. *)
Lemma FT_getFileContents_found Path_parse s w w' :
  files_have_contents w →
  FT_containsFile Path_parse s w = Ret true w' →
  ∃ b, FT_getFileContents Path_parse s w = Ret (Some b) w'.
Proof.
  intros Hw E.
  pose proof (readonly_FT_containsFile _ _ _ _ _ E) as (Hn & _).
  unfold FT_containsFile in E. unfold FT_getFileContents.
  repeat sync E; try (unfold ret in *; by simplify_eq).
  injection E as Hfile <-. apply bool_decide_eq_true in Hfile as ->.
  rewrite decide_False by (intros H; by apply H).
  unfold Node_getType in E5. apply bind_inv in E5 as (nd & ? & Hld & E5).
  apply load_inv in Hld as (l & -> & Hl & ->). injection E5 as Ht <-.
  unfold Node_getContents, bind, load. rewrite Hl. cbn [ret].
  rewrite decide_False by (intros H; by apply H).
  rewrite Hn in Hl. destruct (pcContents nd) as [b|] eqn:Hb; [by exists b|].
  by destruct (Hw l nd Hl Ht).
Qed.

Section FileContents.

Variable Path_parse : string → option path.

(** C10.  Every file node has a content buffer.  In a store whose
    allocator is sound: [Node_new] makes a file wherever its checks pass
    and no allocation fails, and the file it makes holds the empty string;
    [Node_setContents] with a NULL argument succeeds on every file unless
    the allocation fails, and leaves the file with the empty string; no
    store the interface reaches has a file without a buffer; and in any
    store where every file has a buffer, neither of the two functions nor
    any call of the interface leaves a file without one,
    [FT_getFileContents] returns a buffer wherever [FT_containsFile] on the
    same path finds a file, and it returns NULL only where
    [FT_containsFile] finds none. *)
Theorem file_contents_never_null w :
  fresh w →
  (∀ q par,
     false ∉ fate w →
     match par with
     | None => length q = 1
     | Some lp =>
         ∃ ndp pp cs,
           nodes w !! lp = Some ndp ∧ eType ndp = FT_DIR ∧
           oPPath ndp = Some pp ∧ oChildren ndp = Some cs ∧
           length q = length pp + 1 ∧ isPrefix pp q = true ∧
           ∀ c, c ∈ cs →
             ∃ q', child_path w c = Some q' ∧ comparePath q' q ≠ 0%Z
     end →
     ∃ l w', Node_new (Some q) par FT_FILE w = Ret (SUCCESS, Some l) w' ∧
             holds_empty_string w' (Some l)) ∧
  (∀ p par r w',
     Node_new p par FT_FILE w = Ret (SUCCESS, r) w' →
     holds_empty_string w' r) ∧
  (∀ l nd,
     nodes w !! l = Some nd → eType nd = FT_FILE →
     (∀ b, pcContents nd = Some b → is_Some (bufs w !! b)) →
     false ∉ fate w →
     ∃ w', Node_setContents (Some l) None w = Ret true w' ∧
           holds_empty_string w' (Some l)) ∧
  (∀ n w',
     Node_setContents n None w = Ret true w' → holds_empty_string w' n) ∧
  (reachable Path_parse w → files_have_contents w) ∧
  (files_have_contents w →
     (∀ p par t st r w',
        Node_new p par t w = Ret (st, r) w' → files_have_contents w') ∧
     (∀ n c b w',
        Node_setContents n c w = Ret b w' → files_have_contents w') ∧
     (∀ c w',
        perform Path_parse c w = Ret () w' → files_have_contents w') ∧
     (∀ s w',
        FT_containsFile Path_parse s w = Ret true w' →
        ∃ b, FT_getFileContents Path_parse s w = Ret (Some b) w') ∧
     (∀ s w',
        FT_getFileContents Path_parse s w = Ret None w' →
        FT_containsFile Path_parse s w = Ret false w')).
Proof.
  intros Hfresh. split; [|split; [|split; [|split; [|split]]]].
  - intros q par Hcalm Hpar.
    destruct (Node_new_file_succeeds q par w Hcalm Hpar)
      as (w' & E & _).
    exists (S (brk w)), w'. split; [done|].
    by apply (Node_new_file_contents _ _ _ _ _ E).
  - intros p par r w'. apply Node_new_file_contents.
  - intros l nd Hl Ht Hlive Hcalm.
    destruct (Node_setContents_NULL_succeeds l nd w) as (w' & E & H & _);
      eauto.
  - intros n w'. by apply Node_setContents_NULL.
  - intros Hr. by eapply lone_root_files_have_contents, reachable_lone_root.
  - intros Hw. split; [|split; [|split; [|split]]].
    + intros p par t st r w'. by apply Node_new_keeps_contents.
    + intros n c b w'. by apply Node_setContents_keeps_contents.
    + intros c w'. by apply keeps_perform.
    + intros s w'. by apply FT_getFileContents_found.
    + intros s w'. by apply FT_getFileContents_NULL.
Qed.

End FileContents.

(* ================================================================== *)
(** * Serialising a tree of directories *)

(** ** Calls that return when no allocation fails *)

Lemma calmly_ret {A} (a : A) w : returns_calmly (ret a) a w.
Proof. intros f0 Hf0. by exists f0. Qed.

Lemma calmly_bind {A B} (m : M A) (k : A → M B) a b w :
  returns_calmly m a w → returns_calmly (k a) b w →
  returns_calmly (bind m k) b w.
Proof.
  intros Hm Hk f0 Hf0. destruct (Hm f0 Hf0) as (f1 & Hf1 & E1).
  destruct (Hk f1 Hf1) as (f2 & Hf2 & E2).
  exists f2. split; [done|]. by rewrite (bind_eq _ _ _ _ _ E1).
Qed.

(** A call that only reads, whatever the future. *)
Lemma calmly_read {A} (m : M A) a w :
  (∀ f0, m (set_fate f0 w) = Ret a (set_fate f0 w)) → returns_calmly m a w.
Proof. intros H f0 Hf0. by exists f0. Qed.

Lemma calmly_malloc w : returns_calmly malloc_ok true w.
Proof.
  intros f0 Hf0. unfold malloc_ok. simpl. destruct f0 as [|b f0].
  - by exists [].
  - destruct b; [|by destruct Hf0; left]. exists f0. split; [|done].
    intros H. by apply Hf0; right.
Qed.

Lemma calmly_fated {A} (m : M A) a w :
  returns_calmly m a w → false ∉ fate w →
  ∃ w', m w = Ret a w' ∧ fated w w' ∧ (false ∉ fate w').
Proof.
  intros H Hcalm. destruct (H (fate w) Hcalm) as (f & Hf & E).
  rewrite set_fate_same in E. exists (set_fate f w). split; [done|].
  split; [|done]. apply fated_set_fate. by intros ?%Hf.
Qed.

(** ** Sorting the children *)

Lemma comparePath_antisym p q :
  (0 < comparePath p q)%Z → (comparePath q p ≤ 0)%Z.
Proof.
  unfold comparePath. rewrite (String.compare_antisym (pathname p)).
  destruct (String.compare (pathname q) (pathname p)); simpl; lia.
Qed.

Lemma Node_compare_paths a b p q w :
  child_path w a = Some p → child_path w b = Some q →
  Node_compare a b w = Ret (comparePath p q) w.
Proof.
  intros Ha Hb. unfold Node_compare.
  rewrite (bind_eq _ _ _ _ _ (Node_getPath_child a p w Ha)).
  by rewrite (bind_eq _ _ _ _ _ (Node_getPath_child b q w Hb)).
Qed.

Section Sorting.

Variable w : world.

#[local] Abbreviation ptr := (λ t : tree, Some (root_of t)).

Lemma insert_sorted_trees t ts :
  is_Some (child_path w (ptr t)) →
  Forall (λ c, is_Some (child_path w (ptr c))) ts →
  Sorted (node_le w) (ptr <$> ts) →
  ∃ ts', (∀ f0, insert_sorted (ptr t) (ptr <$> ts) (set_fate f0 w)
                = Ret (ptr <$> ts') (set_fate f0 w)) ∧
         ts' ≡ₚ t :: ts ∧ Sorted (node_le w) (ptr <$> ts') ∧
         ∀ a, node_le w a (ptr t) → HdRel (node_le w) a (ptr <$> ts) →
              HdRel (node_le w) a (ptr <$> ts').
Proof.
  intros [p Hp] Hts Hs. induction ts as [|c ts IH].
  - exists [t]. split; [done|]. split; [done|]. split.
    + repeat constructor.
    + intros a Ha _. by constructor.
  - apply Forall_cons in Hts as [[q Hq] Hts].
    rewrite fmap_cons in Hs. apply Sorted_inv in Hs as [Hs Hhd].
    assert (∀ f0, Node_compare (ptr t) (ptr c) (set_fate f0 w)
                  = Ret (comparePath p q) (set_fate f0 w)) as Ec.
    { intros f0. by apply Node_compare_paths. }
    destruct (decide (comparePath p q ≤ 0)%Z) as [Hle|Hgt].
    + exists (t :: c :: ts). split; [|split; [done|split]].
      * intros f0. cbn [fmap list_fmap insert_sorted].
        rewrite (bind_eq _ _ _ _ _ (Ec f0)). by rewrite decide_True.
      * constructor; [by constructor|]. constructor. by exists p, q.
      * intros a Ha _. by constructor.
    + destruct (IH Hts Hs) as (ts' & E & Hperm & Hs' & Hhd').
      exists (c :: ts'). split; [|split; [|split]].
      * intros f0. cbn [fmap list_fmap insert_sorted].
        rewrite (bind_eq _ _ _ _ _ (Ec f0)). rewrite decide_False by done.
        by rewrite (bind_eq _ _ _ _ _ (E f0)).
      * by rewrite Hperm; apply perm_swap.
      * rewrite fmap_cons. constructor; [done|]. apply Hhd'; [|done].
        exists q, p. split; [done|]. split; [done|].
        apply comparePath_antisym. lia.
      * intros a _ Ha. apply HdRel_inv in Ha. rewrite fmap_cons.
        by constructor.
Qed.

Lemma qsort_trees ts :
  Forall (λ c, is_Some (child_path w (ptr c))) ts →
  ∃ ts', (∀ f0, qsort (ptr <$> ts) (set_fate f0 w)
                = Ret (ptr <$> ts') (set_fate f0 w)) ∧
         ts ≡ₚ ts' ∧ Sorted (node_le w) (ptr <$> ts').
Proof.
  induction ts as [|t ts IH]; intros Hts.
  - exists []. split; [done|]. split; [done|]. constructor.
  - apply Forall_cons in Hts as [Ht Hts].
    destruct (IH Hts) as (ts1 & E & Hperm & Hs).
    destruct (insert_sorted_trees t ts1) as (ts' & E' & Hperm' & Hs' & _);
      [done| by rewrite <- Hperm |done|].
    exists ts'. split; [|split; [|done]].
    + intros f0. cbn [fmap list_fmap qsort].
      by rewrite (bind_eq _ _ _ _ _ (E f0)).
    + by rewrite Hperm', Hperm.
Qed.

End Sorting.

(** ** One directory *)

Section OneDirectory.

Variables (w : world) (l : loc) (nd : node) (p : path) (ts : list tree).
Hypothesis Hl : nodes w !! l = Some nd.
Hypothesis Ht : eType nd = FT_DIR.
Hypothesis Hp : oPPath nd = Some p.
Hypothesis Hc : oChildren nd = Some ((λ t, Some (root_of t)) <$> ts).
Hypothesis Hts : Forall (λ c, laid_out w c ∧ dirs_only c) ts.

#[local] Abbreviation ptr := (λ t : tree, Some (root_of t)).

Lemma calmly_Node_toString :
  returns_calmly (Node_toString (Some l))
    (Some (pathname p +:+ " [dir]")) w.
Proof.
  unfold Node_toString.
  eapply calmly_bind.
  { apply calmly_read. intros f0.
    by apply (Node_getPath_at l nd (set_fate f0 w)). }
  rewrite Hp. unfold Path_toString.
  eapply calmly_bind.
  { eapply calmly_bind; [apply calmly_ret|].
    eapply calmly_bind; [apply calmly_malloc|]. apply calmly_ret. }
  eapply calmly_bind.
  { apply calmly_read. intros f0.
    by apply (Node_getType_at l nd (set_fate f0 w)). }
  rewrite Ht.
  eapply calmly_bind; [apply calmly_malloc|]. apply calmly_ret.
Qed.

Lemma child_is_dir c :
  c ∈ ts → ∃ ndc, nodes w !! root_of c = Some ndc ∧ eType ndc = FT_DIR.
Proof.
  intros Hin. rewrite Forall_forall in Hts.
  destruct (Hts c Hin) as [Hlaid Hdirs].
  destruct Hdirs. inversion Hlaid; subst. eauto.
Qed.

(** The loop that sorts the children into files and directories: all of
    them are directories. *)
Lemma calmly_partition n : ∀ k ds,
  k + n ≤ length ts →
  returns_calmly
    (for_each
       (λ '(fs, ds) i,
          '(st, child) ← Node_getChild (Some l) i;
          if decide (st = SUCCESS) then
            t ← Node_getType child;
            grown ← malloc_ok;
            ret (match t with
                 | FT_FILE => (if grown then fs ++ [child] else fs, ds)
                 | FT_DIR => (fs, if grown then ds ++ [child] else ds)
                 end)
          else ret (fs, ds))
       (seq k n) ([], ds))
    ([], ds ++ (ptr <$> take n (drop k ts))) w.
Proof.
  induction n as [|n IH]; intros k ds Hk.
  - rewrite take_0, app_nil_r. apply calmly_ret.
  - destruct (lookup_lt_is_Some_2 ts k) as [c Hk']; [lia|].
    rewrite (drop_S _ _ _ Hk'). cbn [take fmap list_fmap seq for_each].
    destruct (child_is_dir c) as (ndc & Hlc & Htc);
      [by eapply list_elem_of_lookup_2|].
    eapply calmly_bind.
    { eapply calmly_bind.
      { apply calmly_read. intros f0.
        apply (Node_getChild_at l nd (ptr <$> ts) k (ptr c) (set_fate f0 w));
          [done..|].
        by rewrite list_lookup_fmap, Hk'. }
      cbn beta iota. rewrite decide_True by done.
      eapply calmly_bind.
      { apply calmly_read. intros f0.
        by apply (Node_getType_at (root_of c) ndc (set_fate f0 w)). }
      rewrite Htc.
      eapply calmly_bind; [apply calmly_malloc|]. apply calmly_ret. }
    cbn beta iota.
    replace (ds ++ ptr c :: (ptr <$> take n (drop (S k) ts)))
      with ((ds ++ [ptr c]) ++ (ptr <$> take n (drop (S k) ts)))
      by (by rewrite <- app_assoc).
    apply IH. lia.
Qed.

End OneDirectory.

(** ** The traversal *)

Lemma preorder_dirs w ts :
  Forall dirs_only ts →
  (ts ≫= λ c, if is_file c then preorder w c else []) = [] ∧
  (ts ≫= λ c, if is_file c then [] else preorder w c) = ts ≫= preorder w.
Proof.
  induction 1 as [|t ts Ht _ [IH1 IH2]]; [done|].
  rewrite !bind_cons, IH1, IH2. by destruct Ht.
Qed.

Lemma filter_dirs ts :
  Forall dirs_only ts →
  filter (λ c, is_file c = true) ts = [] ∧
  filter (λ c, is_file c = false) ts = ts.
Proof.
  induction 1 as [|t ts Ht _ [IH1 IH2]]; [done|]. destruct Ht.
  rewrite filter_cons_False by done. rewrite filter_cons_True by done.
  by rewrite IH1, IH2.
Qed.

Section Traversal.

Variable w : world.

#[local] Abbreviation ptr := (λ t : tree, Some (root_of t)).

Section Children.

Variable fuel : nat.
Hypothesis IH : ∀ t lines,
  height t ≤ fuel → laid_out w t → pathed w t → dirs_only t →
  ∃ t', rearranged t t' ∧ in_order w t' ∧ dirs_only t' ∧
        root_of t' = root_of t ∧
        returns_calmly (FT_traverseToString_rec fuel (ptr t) lines)
          (true, lines ++ preorder w t') w.

Lemma visit_children ts1 : ∀ lines,
  Forall (λ t, height t ≤ fuel ∧ laid_out w t ∧ pathed w t ∧ dirs_only t)
    ts1 →
  ∃ ts', Forall2 rearranged ts1 ts' ∧ Forall (in_order w) ts' ∧
         Forall dirs_only ts' ∧ ptr <$> ts' = ptr <$> ts1 ∧
         returns_calmly
           (visit_all (FT_traverseToString_rec fuel) (ptr <$> ts1) lines)
           (true, lines ++ (ts' ≫= preorder w)) w.
Proof.
  induction ts1 as [|t ts1 IHts]; intros lines Hts.
  - exists []. repeat split; try constructor.
    rewrite app_nil_r. apply calmly_ret.
  - apply Forall_cons in Hts as [(Hh & Hlaid & Hpath & Hdirs) Hts].
    destruct (IH t lines Hh Hlaid Hpath Hdirs)
      as (t' & Hre & Hord & Hd' & Hroot & E).
    destruct (IHts (lines ++ preorder w t') Hts)
      as (ts' & Hre' & Hord' & Hds' & Hroots & E').
    exists (t' :: ts'). split; [by constructor|]. split; [by constructor|].
    split; [by constructor|]. split.
    { rewrite !fmap_cons. by rewrite Hroot, Hroots. }
    rewrite fmap_cons. cbn [visit_all].
    eapply calmly_bind; [exact E|]. cbn beta iota.
    rewrite bind_cons, app_assoc. exact E'.
Qed.

End Children.

End Traversal.

Lemma height_child t ts : t ∈ ts → height t ≤ max_list (height <$> ts).
Proof.
  intros Hin. apply max_list_elem_of_le.
  by apply (list_elem_of_fmap_2 height).
Qed.

Lemma pathed_child w l ts t : pathed w (Dir l ts) → t ∈ ts → pathed w t.
Proof.
  intros Hp Hin x Hx. apply Hp. simpl. apply list_elem_of_further.
  apply list_elem_of_bind. by exists t.
Qed.

(** [FT_traverseToString] on a tree of directories: no allocation failing,
    it appends the pre-order lines of the tree, every directory's children
    taken in ascending order of their paths. *)
Lemma traverse_dirs w fuel : ∀ t lines,
  height t ≤ fuel → laid_out w t → pathed w t → dirs_only t →
  ∃ t', rearranged t t' ∧ in_order w t' ∧ dirs_only t' ∧
        root_of t' = root_of t ∧
        returns_calmly
          (FT_traverseToString_rec fuel (Some (root_of t)) lines)
          (true, lines ++ preorder w t') w.
Proof.
  induction fuel as [|fuel IH]; intros t lines Hh Hlaid Hpath Hdirs.
  { destruct t; simpl in Hh; lia. }
  destruct Hdirs as [l ts Hdirs].
  inversion Hlaid as [|? ? nd Hl Ht Hc Hlaids]; subst.
  destruct (Hpath l) as [p Hp]; [apply list_elem_of_here|].
  simpl in Hp. rewrite Hl in Hp. simpl in Hh.
  assert (Forall (λ c, is_Some (child_path w (Some (root_of c)))) ts)
    as Hpaths.
  { apply Forall_forall. intros c Hin.
    apply (pathed_child w l ts c Hpath Hin), root_of_node_locs. }
  destruct (qsort_trees w ts Hpaths) as (ts1 & Eq & Hperm & Hsorted).
  assert (Forall (λ t, height t ≤ fuel ∧ laid_out w t ∧ pathed w t ∧
                       dirs_only t) ts1) as Hts1.
  { apply Forall_forall. intros c Hin. rewrite <- Hperm in Hin.
    rewrite Forall_forall in Hlaids, Hdirs.
    split; [|split; [|split]]; eauto using pathed_child.
    pose proof (height_child c ts Hin). lia. }
  destruct (visit_children w fuel (IH) ts1
              (lines ++ [pathname p +:+ " [dir]"]) Hts1)
    as (ts' & Hre & Hord & Hds' & Hroots & Ev).
  exists (Dir l ts'). split; [by econstructor|].
  destruct (filter_dirs ts' Hds') as [Hf1 Hf2].
  destruct (preorder_dirs w ts' Hds') as [Hp1 Hp2].
  split; [|split; [by constructor|split; [done|]]].
  { constructor; [rewrite Hf1; constructor| |done].
    rewrite Hf2, Hroots. exact Hsorted. }
  cbn [FT_traverseToString_rec root_of].
  eapply calmly_bind; [by apply (calmly_Node_toString w l nd p)|].
  cbn beta iota.
  eapply calmly_bind; [apply calmly_malloc|]. cbn [negb].
  eapply calmly_bind.
  { apply calmly_read. intros f0.
    exact (Node_getNumChildren_at l nd _ (set_fate f0 w) Hl Ht Hc). }
  rewrite length_fmap.
  eapply calmly_bind; [apply calmly_malloc|].
  eapply calmly_bind; [apply calmly_malloc|]. cbn [negb orb].
  eapply calmly_bind.
  { apply (calmly_partition w l nd ts Hl Ht Hc) with (k := 0) (ds := []).
    - apply Forall_forall. intros c Hin.
      rewrite Forall_forall in Hlaids, Hdirs. eauto.
    - lia. }
  rewrite drop_0, firstn_all, app_nil_l. cbn beta iota.
  eapply calmly_bind; [apply calmly_ret|].
  eapply calmly_bind; [by apply calmly_read|].
  eapply calmly_bind; [apply calmly_ret|]. cbn beta iota. cbn [negb].
  cbn [preorder]. rewrite Hp1, Hp2. cbn [app].
  assert (line_of w (Dir l ts') = pathname p +:+ " [dir]") as ->.
  { unfold line_of. simpl. rewrite Hl. simpl. by rewrite Hp. }
  replace (lines ++ (pathname p +:+ " [dir]") :: ts' ≫= preorder w)
    with ((lines ++ [pathname p +:+ " [dir]"]) ++ ts' ≫= preorder w)
    by (by rewrite <- app_assoc).
  exact Ev.
Qed.

Section Serialised.

Variable Path_parse : string → option path.


End Serialised.

(* ================================================================== *)
(** * The further theorems at work *)

Lemma laid_out_w_tree : laid_out w_tree t_tree.
Proof.
  apply (laid_out_Dir _ 1 _
           (Node (Some ["a"]) None (Some [Some 2; Some 3]) FT_DIR None));
    [vm_compute; reflexivity|done|done|].
  apply Forall_cons. split; [|apply Forall_cons; split; [|apply Forall_nil_2]].
  - apply (laid_out_Dir _ 2 _
             (Node (Some ["a"; "z"]) (Some 1) (Some []) FT_DIR None));
      [vm_compute; reflexivity|done|done|apply Forall_nil_2].
  - apply (laid_out_File _ 3 _
             (Node (Some ["a"; "y"]) (Some 1) None FT_FILE (Some 4)));
      [vm_compute; reflexivity|done|done|].
    intros x [= <-]. exists [NUL]. vm_compute. reflexivity.
Qed.

Lemma NoDup_node_locs_t_tree : NoDup (node_locs t_tree).
Proof. apply (bool_decide_unpack _). by vm_compute. Qed.

Lemma NoDup_buf_locs_t_tree : NoDup (buf_locs t_tree).
Proof. apply (bool_decide_unpack _). by vm_compute. Qed.

Lemma Node_free_frees_the_tree_witness :
  laid_out w_tree t_tree ∧ NoDup (node_locs t_tree) ∧
  NoDup (buf_locs t_tree) ∧
  ∃ w', Node_free (Some 1) w_tree = Ret 3 w' ∧
        nodes w' !! 1 = None ∧ nodes w' !! 2 = None ∧ nodes w' !! 3 = None ∧
        bufs w' !! 4 = None.
Proof.
  split; [exact laid_out_w_tree|]. split; [exact NoDup_node_locs_t_tree|].
  split; [exact NoDup_buf_locs_t_tree|].
  destruct (Node_free_frees_the_tree t_tree w_tree laid_out_w_tree
              NoDup_node_locs_t_tree NoDup_buf_locs_t_tree)
    as (w' & E & Hn & Hb & _).
  exists w'. split; [exact E|].
  rewrite !Hn, Hb. repeat split; reflexivity.
Defined.

Lemma FT_destroy_frees_the_tree_witness :
  bIsInitialized w_tree = true ∧ oRoot w_tree = Some (root_of t_tree) ∧
  laid_out w_tree t_tree ∧ NoDup (node_locs t_tree) ∧
  NoDup (buf_locs t_tree) ∧
  ∃ w', FT_destroy w_tree = Ret SUCCESS w' ∧
        bIsInitialized w' = false ∧ oRoot w' = None ∧
        nodes w' !! 1 = None ∧ nodes w' !! 2 = None ∧ nodes w' !! 3 = None ∧
        bufs w' !! 4 = None.
Proof.
  split; [reflexivity|]. split; [reflexivity|].
  split; [exact laid_out_w_tree|]. split; [exact NoDup_node_locs_t_tree|].
  split; [exact NoDup_buf_locs_t_tree|].
  destruct (FT_destroy_frees_the_tree t_tree w_tree eq_refl eq_refl
              laid_out_w_tree NoDup_node_locs_t_tree NoDup_buf_locs_t_tree)
    as (w' & E & Hi & Hr & Hn & Hb).
  exists w'. split; [exact E|]. split; [exact Hi|]. split; [exact Hr|].
  rewrite !Hn, Hb. repeat split; reflexivity.
Defined.

Lemma absolute_path_a : absolute_path "/a" = Some ["a"].
Proof. vm_compute. reflexivity. Qed.

Lemma FT_rmDir_root_frees_the_tree_witness :
  bIsInitialized w_tree = true ∧ oRoot w_tree = Some 1 ∧
  laid_out w_tree t_tree ∧ NoDup (node_locs t_tree) ∧
  NoDup (buf_locs t_tree) ∧
  absolute_path "/a" = Some ["a"] ∧ comparePath ["a"] ["a"] = 0%Z ∧
  (false ∉ fate w_tree) ∧
  ∃ w', FT_rmDir absolute_path "/a" w_tree = Ret SUCCESS w' ∧
        bIsInitialized w' = true ∧ oRoot w' = None ∧
        nodes w' !! 1 = None ∧ nodes w' !! 2 = None ∧ nodes w' !! 3 = None ∧
        bufs w' !! 4 = None.
Proof.
  split; [reflexivity|]. split; [reflexivity|].
  split; [exact laid_out_w_tree|]. split; [exact NoDup_node_locs_t_tree|].
  split; [exact NoDup_buf_locs_t_tree|]. split; [exact absolute_path_a|].
  split; [reflexivity|]. split; [apply not_elem_of_nil|].
  destruct (FT_rmDir_root_frees_the_tree absolute_path "/a" ["a"] ["a"] 1
              [Dir 2 []; File 3 (Some 4)]
              (Node (Some ["a"]) None (Some [Some 2; Some 3]) FT_DIR None)
              w_tree)
    as (w' & E & Hi & Hr & Hn & Hb).
  - reflexivity.
  - reflexivity.
  - exact laid_out_w_tree.
  - exact NoDup_node_locs_t_tree.
  - exact NoDup_buf_locs_t_tree.
  - vm_compute. reflexivity.
  - reflexivity.
  - exact absolute_path_a.
  - discriminate.
  - reflexivity.
  - apply not_elem_of_nil.
  - exists w'. split; [exact E|]. split; [exact Hi|]. split; [exact Hr|].
    rewrite !Hn, Hb. repeat split; reflexivity.
Defined.

Lemma FT_insertDir_creates_the_root_witness :
  bIsInitialized w_init = true ∧ oRoot w_init = None ∧
  absolute_path "/a" = Some ["a"] ∧ length ["a"] = 1 ∧
  (false ∉ fate w_init) ∧
  ∃ w', FT_insertDir absolute_path "/a" w_init = Ret SUCCESS w' ∧
        oRoot w' = Some (brk w_init) ∧
        nodes w' = <[ brk w_init := root_dir ["a"] ]> (nodes w_init) ∧
        bufs w' = bufs w_init ∧ bIsInitialized w' = true ∧
        (false ∉ fate w').
Proof.
  split; [reflexivity|]. split; [reflexivity|].
  split; [exact absolute_path_a|]. split; [reflexivity|].
  split; [apply not_elem_of_nil|].
  apply (FT_insertDir_creates_the_root absolute_path "/a" ["a"] w_init).
  - reflexivity.
  - reflexivity.
  - exact absolute_path_a.
  - reflexivity.
  - apply not_elem_of_nil.
Defined.

Lemma FT_insertDir_rmDir_round_trip_witness :
  bIsInitialized w_init = true ∧ oRoot w_init = None ∧
  absolute_path "/a" = Some ["a"] ∧ length ["a"] = 1 ∧
  (false ∉ fate w_init) ∧ nodes w_init !! brk w_init = None ∧
  ∃ w1 w2,
    FT_insertDir absolute_path "/a" w_init = Ret SUCCESS w1 ∧
    FT_rmDir absolute_path "/a" w1 = Ret SUCCESS w2 ∧
    bIsInitialized w2 = true ∧ oRoot w2 = None ∧
    nodes w2 = nodes w_init ∧ bufs w2 = bufs w_init.
Proof.
  split; [reflexivity|]. split; [reflexivity|].
  split; [exact absolute_path_a|]. split; [reflexivity|].
  split; [apply not_elem_of_nil|]. split; [reflexivity|].
  apply (FT_insertDir_rmDir_round_trip absolute_path "/a" ["a"] w_init).
  - reflexivity.
  - reflexivity.
  - exact absolute_path_a.
  - reflexivity.
  - apply not_elem_of_nil.
  - reflexivity.
Defined.

Lemma reachable_tree_is_at_most_a_root_witness :
  reachable absolute_path w_a ∧
  bufs w_a = ∅ ∧
  (oRoot w_a = None → nodes w_a = ∅) ∧
  (∀ r, oRoot w_a = Some r →
        bIsInitialized w_a = true ∧
        ∃ p, length p = 1 ∧ nodes w_a = {[ r := root_dir p ]}).
Proof.
  split; [exact reachable_w_a|].
  exact (reachable_tree_is_at_most_a_root absolute_path w_a reachable_w_a).
Defined.

Lemma FT_insertFile_never_succeeds_witness :
  reachable absolute_path w_a ∧
  ∃ st w', FT_insertFile absolute_path "/a/f" None 0 w_a = Ret st w' ∧
           st ≠ SUCCESS ∧ st ≠ ALREADY_IN_TREE ∧
           (oRoot w_a ≠ None → fated w_a w').
Proof.
  split; [exact reachable_w_a|].
  exact (FT_insertFile_never_succeeds absolute_path "/a/f" None 0 w_a
           reachable_w_a).
Defined.

Lemma file_lookups_always_fail_witness :
  reachable absolute_path w_a ∧
  (∃ w', FT_containsFile absolute_path "/a" w_a = Ret false w' ∧
         fated w_a w') ∧
  (∃ w', FT_getFileContents absolute_path "/a" w_a = Ret None w' ∧
         fated w_a w') ∧
  (∃ st w', FT_rmFile absolute_path "/a" w_a = Ret st w' ∧ st ≠ SUCCESS ∧
            fated w_a w').
Proof.
  split; [exact reachable_w_a|].
  exact (file_lookups_always_fail absolute_path "/a" w_a reachable_w_a).
Defined.

Lemma failed_insertDir_rmDir_change_nothing_witness :
  reachable absolute_path w_a ∧
  (∃ st w', FT_insertDir absolute_path "/a/z" w_a = Ret st w' ∧
            (st ≠ SUCCESS → fated w_a w')) ∧
  (∃ st w', FT_rmDir absolute_path "/a/z" w_a = Ret st w' ∧
            (st ≠ SUCCESS → fated w_a w')).
Proof.
  split; [exact reachable_w_a|].
  exact (failed_insertDir_rmDir_change_nothing absolute_path "/a/z" w_a
           reachable_w_a).
Defined.

Lemma FT_toString_of_reachable_tree_witness :
  reachable absolute_path w_a ∧ (false ∉ fate w_a) ∧
  ∃ w', FT_toString w_a
        = Ret ((λ p, pathname p +:+ " [dir]" +:+ newline)
                 <$> child_path w_a (oRoot w_a)) w' ∧
        fated w_a w'.
Proof.
  split; [exact reachable_w_a|]. split; [apply not_elem_of_nil|].
  exact (FT_toString_of_reachable_tree absolute_path w_a reachable_w_a
           (not_elem_of_nil false)).
Defined.

Lemma Node_hasChild_finds_equal_path_witness :
  nodes w_file !! 1
  = Some (Node (Some ["a"]) None (Some [Some 2]) FT_DIR None) ∧
  (∀ c, c ∈ [Some 2] → is_Some (child_path w_file c)) ∧
  ∃ b, Node_hasChild (Some 1) (Some ["a"; "f"]) w_file = Ret b w_file ∧
       (b = true ↔ ∃ c q, c ∈ [Some 2] ∧ child_path w_file c = Some q ∧
                          comparePath q ["a"; "f"] = 0%Z).
Proof.
  assert (∀ c, c ∈ [Some 2] → is_Some (child_path w_file c)) as Hcs.
  { intros c Hc. apply list_elem_of_singleton in Hc. rewrite Hc.
    exists ["a"; "f"]. vm_compute. reflexivity. }
  split; [vm_compute; reflexivity|]. split; [exact Hcs|].
  apply (Node_hasChild_finds_equal_path 1
           (Node (Some ["a"]) None (Some [Some 2]) FT_DIR None)).
  - vm_compute. reflexivity.
  - reflexivity.
  - reflexivity.
  - exact Hcs.
Defined.

Lemma Node_getChild_within_bounds_witness :
  Node_getNumChildren (Some 1) w_file = Ret 1 w_file ∧
  ∀ i, (i < 1 → ∃ c, Node_getChild (Some 1) i w_file = Ret (SUCCESS, c) w_file) ∧
       (1 ≤ i →
        Node_getChild (Some 1) i w_file = Ret (NO_SUCH_PATH, None) w_file).
Proof.
  assert (Node_getNumChildren (Some 1) w_file = Ret 1 w_file) as E
    by (vm_compute; reflexivity).
  split; [exact E|].
  exact (Node_getChild_within_bounds (Some 1) 1 w_file E).
Defined.

Lemma Node_removeChild_removes_first_witness :
  nodes w_tree !! 1
  = Some (Node (Some ["a"]) None (Some [Some 2; Some 3]) FT_DIR None) ∧
  Node_removeChild (Some 1) (Some 7) w_tree = Ret NO_SUCH_PATH w_tree ∧
  Node_removeChild (Some 1) (Some 3) w_tree
  = Ret SUCCESS
      (set_nodes
         (insert 1 (Node (Some ["a"]) None (Some [Some 2]) FT_DIR None))
         w_tree).
Proof.
  assert (nodes w_tree !! 1
          = Some (Node (Some ["a"]) None (Some [Some 2; Some 3]) FT_DIR None))
    as Hl by (vm_compute; reflexivity).
  split; [exact Hl|].
  destruct (Node_removeChild_removes_first 1 _ [Some 2; Some 3] 7 w_tree
              Hl eq_refl) as [Hmiss _].
  destruct (Node_removeChild_removes_first 1 _ [Some 2; Some 3] 3 w_tree
              Hl eq_refl) as [_ Hhit].
  split.
  - apply Hmiss. apply (bool_decide_unpack _). by vm_compute.
  - apply (Hhit 1); [reflexivity|].
    intros j Hj. destruct j as [|j]; [discriminate|lia].
Defined.

Lemma Node_setContents_then_getContents_witness :
  fresh w_file ∧
  ∃ w', Node_setContents (Some 2) (Some 3) w_file = Ret true w' ∧
        ∃ b src, Node_getContents (Some 2) w' = Ret (Some b) w' ∧
                 string_at w' (Some b) = Some src ∧
                 (Some 3 = None ∧ src = [] ∨
                  Some 3 ≠ None ∧ string_at w_file (Some 3) = Some src).
Proof.
  split; [exact fresh_w_file|].
  destruct (Node_setContents (Some 2) (Some 3) w_file) as [[] w'| |] eqn:E;
    [|vm_compute in E; discriminate E..].
  exists w'. split; [reflexivity|].
  exact (Node_setContents_then_getContents (Some 2) (Some 3) w_file w'
           fresh_w_file E).
Defined.

Lemma Node_setContents_failure_changes_nothing_witness :
  Node_setContents (Some 1) None w_a = Ret false w_a ∧
  fated w_a w_a ∧
  ∃ l nd, Some 1 = Some l ∧ nodes w_a !! l = Some nd ∧
          (eType nd ≠ FT_FILE ∨ false ∈ fate w_a).
Proof.
  assert (Node_setContents (Some 1) None w_a = Ret false w_a) as E
    by (vm_compute; reflexivity).
  split; [exact E|].
  exact (Node_setContents_failure_changes_nothing (Some 1) None w_a w_a E).
Defined.

Lemma Node_new_contract_witness :
  Node_new (Some ["a"]) None FT_DIR w_init
  = Ret (SUCCESS, Some 1) (set_oRoot None w_a) ∧
  ∃ q l, Some ["a"] = Some q ∧ Some 1 = Some l ∧ brk w_init ≤ l ∧
         nodes (set_oRoot None w_a)
         = <[ l := Node (Some q) None (Some []) FT_DIR None ]>
             (nodes w_init) ∧
         bufs (set_oRoot None w_a) = bufs w_init ∧ length q = 1.
Proof.
  assert (Node_new (Some ["a"]) None FT_DIR w_init
          = Ret (SUCCESS, Some 1) (set_oRoot None w_a))
    as E by (vm_compute; reflexivity).
  split; [exact E|].
  exact (proj2 (Node_new_contract (Some ["a"]) None FT_DIR w_init SUCCESS
                  (Some 1) (set_oRoot None w_a) E) eq_refl).
Defined.

Lemma CheckerDT_Node_isValid_accepts_exactly_witness :
  (∀ nd cs, nodes w_file !! 1 = Some nd → oChildren nd = Some cs →
            (Z.of_nat (length cs) ≤ SIZE_MODULUS)%Z) ∧
  CheckerDT_Node_isValid (Some 1) w_file = Ret true w_file ∧
  accepted_node w_file 1.
Proof.
  assert (∀ nd cs, nodes w_file !! 1 = Some nd → oChildren nd = Some cs →
                   (Z.of_nat (length cs) ≤ SIZE_MODULUS)%Z) as Hsz.
  { intros nd cs Hl Hc. vm_compute in Hl. injection Hl as <-.
    injection Hc as <-. by vm_compute. }
  assert (CheckerDT_Node_isValid (Some 1) w_file = Ret true w_file) as E
    by (vm_compute; reflexivity).
  split; [exact Hsz|]. split; [exact E|].
  exact (proj1 (CheckerDT_Node_isValid_accepts_exactly 1 w_file Hsz) E).
Defined.

Lemma CheckerDT_isValid_only_reads_witness :
  CheckerDT_isValid true (Some 1) 1 w_a = Ret false w_a ∧ w_a = w_a.
Proof.
  assert (CheckerDT_isValid true (Some 1) 1 w_a = Ret false w_a) as E
    by (vm_compute; reflexivity).
  split; [exact E|].
  exact (CheckerDT_isValid_only_reads true (Some 1) 1 w_a false w_a E).
Defined.

Lemma FT_toString_prints_directories_only_witness :
  FT_toString w_dirs
  = Ret (Some ("/a [dir]" +:+ newline +:+ "/a/b [dir]" +:+ newline)) w_dirs ∧
  ∃ lines,
    "/a [dir]" +:+ newline +:+ "/a/b [dir]" +:+ newline
    = foldr (λ line acc, line +:+ newline +:+ acc) "" lines ∧
    Forall (dir_line w_dirs) lines.
Proof.
  assert (FT_toString w_dirs
          = Ret (Some ("/a [dir]" +:+ newline +:+ "/a/b [dir]" +:+ newline))
              w_dirs) as E by (vm_compute; reflexivity).
  split; [exact E|].
  exact (FT_toString_prints_directories_only w_dirs _ w_dirs E).
Defined.

Lemma lookups_miss_below_the_root_witness :
  absolute_path "/a/f" = Some ["a"; "f"] ∧
  nodes w_file !! 1
  = Some (Node (Some ["a"]) None (Some [Some 2]) FT_DIR None) ∧
  (∀ c, c ∈ [Some 2] →
     ∃ q, child_path w_file c = Some q ∧
          comparePath q (take 1 ["a"; "f"]) ≠ 0%Z) ∧
  (∃ w', FT_containsDir absolute_path "/a/f" w_file = Ret false w' ∧
         fated w_file w') ∧
  (∃ w', FT_containsFile absolute_path "/a/f" w_file = Ret false w' ∧
         fated w_file w') ∧
  (∃ w', FT_getFileContents absolute_path "/a/f" w_file = Ret None w' ∧
         fated w_file w') ∧
  (∃ w', FT_replaceFileContents absolute_path "/a/f" (Some ["y"%char]) 1
           w_file = Ret None w' ∧
         fated w_file w').
Proof.
  assert (∀ c, c ∈ [Some 2] →
            ∃ q, child_path w_file c = Some q ∧
                 comparePath q (take 1 ["a"; "f"]) ≠ 0%Z) as Hcs.
  { intros c Hc. apply list_elem_of_singleton in Hc. rewrite Hc.
    exists ["a"; "f"]. split; [vm_compute; reflexivity|].
    vm_compute. discriminate. }
  split; [vm_compute; reflexivity|]. split; [vm_compute; reflexivity|].
  split; [exact Hcs|].
  exact (lookups_miss_below_the_root absolute_path "/a/f" ["a"; "f"]
           (Some ["y"%char]) 1 1
           (Node (Some ["a"]) None (Some [Some 2]) FT_DIR None) [Some 2]
           w_file eq_refl eq_refl eq_refl eq_refl eq_refl Hcs).
Defined.

Lemma insertions_miss_below_the_root_witness :
  absolute_path "/a/g" = Some ["a"; "g"] ∧
  nodes w_file !! 1
  = Some (Node (Some ["a"]) None (Some [Some 2]) FT_DIR None) ∧
  (∀ c, c ∈ [Some 2] →
     ∃ q, child_path w_file c = Some q ∧
          comparePath q (take 1 ["a"; "g"]) ≠ 0%Z) ∧
  (∃ st w', FT_insertDir absolute_path "/a/g" w_file = Ret st w' ∧
            fated w_file w' ∧
            (st = NO_SUCH_PATH ∨
             false ∈ fate w_file ∧ (st = BAD_PATH ∨ st = MEMORY_ERROR))) ∧
  (∃ st w', FT_insertFile absolute_path "/a/g" None 0 w_file = Ret st w' ∧
            fated w_file w' ∧
            (st = CONFLICTING_PATH ∨
             false ∈ fate w_file ∧ (st = BAD_PATH ∨ st = MEMORY_ERROR))).
Proof.
  assert (∀ c, c ∈ [Some 2] →
            ∃ q, child_path w_file c = Some q ∧
                 comparePath q (take 1 ["a"; "g"]) ≠ 0%Z) as Hcs.
  { intros c Hc. apply list_elem_of_singleton in Hc. rewrite Hc.
    exists ["a"; "f"]. split; [vm_compute; reflexivity|].
    vm_compute. discriminate. }
  split; [vm_compute; reflexivity|]. split; [vm_compute; reflexivity|].
  split; [exact Hcs|].
  exact (insertions_miss_below_the_root absolute_path "/a/g" ["a"; "g"]
           None 0 1
           (Node (Some ["a"]) None (Some [Some 2]) FT_DIR None) [Some 2]
           w_file eq_refl eq_refl (le_n 2) eq_refl eq_refl eq_refl eq_refl
           Hcs).
Defined.

Lemma removals_miss_below_the_root_witness :
  absolute_path "/a/f" = Some ["a"; "f"] ∧
  nodes w_file !! 1
  = Some (Node (Some ["a"]) None (Some [Some 2]) FT_DIR None) ∧
  comparePath ["a"] ["a"; "f"] ≠ 0%Z ∧
  (∀ c, c ∈ [Some 2] →
     ∃ q, child_path w_file c = Some q ∧
          comparePath q (take 1 ["a"; "f"]) ≠ 0%Z) ∧
  (∃ st w', FT_rmDir absolute_path "/a/f" w_file = Ret st w' ∧
            fated w_file w' ∧
            (st = NO_SUCH_PATH ∨
             false ∈ fate w_file ∧ (st = BAD_PATH ∨ st = MEMORY_ERROR))) ∧
  (∃ st w', FT_rmFile absolute_path "/a/f" w_file = Ret st w' ∧
            fated w_file w' ∧
            (st = NO_SUCH_PATH ∨
             false ∈ fate w_file ∧ (st = BAD_PATH ∨ st = MEMORY_ERROR))) ∧
  (∃ st w', FT_stat absolute_path "/a/f" (Some false) (Some 7%Z) w_file
            = Ret (StatResult st (Some false) (Some 7%Z)) w' ∧
            fated w_file w' ∧
            (st = NO_SUCH_PATH ∨ st = CONFLICTING_PATH ∨
             false ∈ fate w_file ∧ (st = BAD_PATH ∨ st = MEMORY_ERROR))).
Proof.
  assert (∀ c, c ∈ [Some 2] →
            ∃ q, child_path w_file c = Some q ∧
                 comparePath q (take 1 ["a"; "f"]) ≠ 0%Z) as Hcs.
  { intros c Hc. apply list_elem_of_singleton in Hc. rewrite Hc.
    exists ["a"; "f"]. split; [vm_compute; reflexivity|].
    vm_compute. discriminate. }
  assert (comparePath ["a"] ["a"; "f"] ≠ 0%Z) as Hne
    by (vm_compute; discriminate).
  split; [vm_compute; reflexivity|]. split; [vm_compute; reflexivity|].
  split; [exact Hne|]. split; [exact Hcs|].
  refine (removals_miss_below_the_root absolute_path "/a/f" ["a"; "f"] ["a"]
            (Some false) (Some 7%Z) 1
            (Node (Some ["a"]) None (Some [Some 2]) FT_DIR None) [Some 2]
            w_file eq_refl eq_refl _ eq_refl eq_refl eq_refl eq_refl eq_refl
            Hne Hcs).
  discriminate.
Defined.

Lemma fresh_w_a : fresh w_a.
Proof.
  split.
  - intros l [bs Hl]. simpl in Hl. by rewrite lookup_empty in Hl.
  - intros l nd b Hl Hb. simpl in *.
    apply lookup_singleton_Some in Hl as [_ <-]. done.
Qed.

Lemma fresh_w_flat : fresh w_flat.
Proof.
  split.
  - intros l [bs Hl]. simpl in Hl.
    apply lookup_singleton_Some in Hl as [<- _]. simpl. lia.
  - intros l nd b Hl Hb. simpl in *.
    apply lookup_insert_Some in Hl as [[_ <-]|[_ Hl]]; [done|].
    apply lookup_insert_Some in Hl as [[_ <-]|[_ Hl]]; [|done].
    simpl in Hb. injection Hb as <-. lia.
Qed.

Lemma files_have_contents_w_flat : files_have_contents w_flat.
Proof.
  intros l nd Hl Ht. simpl in Hl.
  apply lookup_insert_Some in Hl as [[_ <-]|[_ Hl]]; [done|].
  apply lookup_insert_Some in Hl as [[_ <-]|[_ Hl]]; done.
Qed.

(** The file [/a/f] is made under the root [/a] with the empty string; the
    contents ["x"] of a file are replaced by the empty string; and on the
    store where the walk arrives at a file, [FT_getFileContents] returns its
    buffer. *)
Lemma file_contents_never_null_witness :
  fresh w_a ∧
  (∃ l w', Node_new (Some ["a"; "f"]) (Some 1) FT_FILE w_a
           = Ret (SUCCESS, Some l) w' ∧
           holds_empty_string w' (Some l)) ∧
  fresh w_file ∧ files_have_contents w_file ∧
  (∃ w', Node_setContents (Some 2) None w_file = Ret true w' ∧
         holds_empty_string w' (Some 2) ∧ files_have_contents w') ∧
  fresh w_flat ∧ files_have_contents w_flat ∧
  FT_containsFile absolute_path "/a" w_flat = Ret true w_flat ∧
  (∃ b, FT_getFileContents absolute_path "/a" w_flat = Ret (Some b) w_flat).
Proof.
  pose proof (file_contents_never_null absolute_path w_a fresh_w_a)
    as (Hnew & _).
  pose proof (file_contents_never_null absolute_path w_file fresh_w_file)
    as (_ & _ & Hset & _ & _ & Hinv').
  destruct (Hinv' files_have_contents_w_file) as (_ & Hkeep & _).
  pose proof (file_contents_never_null absolute_path w_flat fresh_w_flat)
    as (_ & _ & _ & _ & _ & Hinv).
  destruct (Hinv files_have_contents_w_flat) as (_ & _ & _ & Hfound & _).
  assert (FT_containsFile absolute_path "/a" w_flat = Ret true w_flat) as Ec
    by (vm_compute; reflexivity).
  split; [exact fresh_w_a|]. split.
  { apply (Hnew ["a"; "f"] (Some 1)); [apply not_elem_of_nil|].
    exists (root_dir ["a"]), ["a"], [].
    split; [reflexivity|]. split; [reflexivity|]. split; [reflexivity|].
    split; [reflexivity|]. split; [reflexivity|]. split; [reflexivity|].
    intros c Hc. by apply elem_of_nil in Hc. }
  split; [exact fresh_w_file|]. split; [exact files_have_contents_w_file|].
  split.
  { destruct (Hset 2 (Node (Some ["a"; "f"]) (Some 1) None FT_FILE (Some 3)))
      as (w' & E & Hempty);
      [reflexivity|reflexivity| |apply not_elem_of_nil|].
    { intros b [= <-]. by eexists. }
    exists w'. split; [exact E|]. split; [exact Hempty|].
    exact (Hkeep _ _ _ _ E). }
  split; [exact fresh_w_flat|]. split; [exact files_have_contents_w_flat|].
  split; [exact Ec|]. exact (Hfound "/a" w_flat Ec).
Defined.

Lemma laid_out_w_zm : laid_out w_zm t_zm.
Proof.
  apply (laid_out_Dir _ 1 _
           (Node (Some ["a"]) None (Some [Some 2; Some 3]) FT_DIR None));
    [vm_compute; reflexivity|done|done|].
  apply Forall_cons. split; [|apply Forall_cons; split; [|apply Forall_nil_2]].
  - apply (laid_out_Dir _ 2 _
             (Node (Some ["a"; "z"]) (Some 1) (Some []) FT_DIR None));
      [vm_compute; reflexivity|done|done|apply Forall_nil_2].
  - apply (laid_out_Dir _ 3 _
             (Node (Some ["a"; "m"]) (Some 1) (Some [Some 4]) FT_DIR None));
      [vm_compute; reflexivity|done|done|].
    apply Forall_cons. split; [|apply Forall_nil_2].
    apply (laid_out_Dir _ 4 _
             (Node (Some ["a"; "m"; "k"]) (Some 3) (Some []) FT_DIR None));
      [vm_compute; reflexivity|done|done|apply Forall_nil_2].
Qed.

Lemma pathed_w_zm : pathed w_zm t_zm.
Proof.
  intros l Hl. simpl in Hl.
  repeat (apply elem_of_cons in Hl as [->|Hl]; [by eexists|]).
  by apply elem_of_nil in Hl.
Qed.

Lemma dirs_only_t_zm : dirs_only t_zm.
Proof. repeat constructor. Qed.

Lemma NoDup_node_locs_t_zm : NoDup (node_locs t_zm).
Proof. apply (bool_decide_unpack _). by vm_compute. Qed.

